(** * Flare node: consensus-core bookkeeping, verified against the Go sources

  The development embeds four pieces of the node:
  - [snow/engine/common/tracker/weight_tracker.go]  (module [Tracker]),
  - [network/throttling] outbound byte throttler     (module [Throttling]),
  - [snow/triggers/dispatcher.go]                    (module [Triggers]),
  - the unique vertices of the avalanche state       (module [AvalancheState]).

  Each module of definitions is followed by one of facts ([TrackerFacts],
  [ThrottlingFacts], [TriggersFacts], [AvalancheStateFacts] and, for the
  search of [Verify], [StopVertexFacts]); [DagExample] holds a small DAG.
  Further modules hold the invariant of the tracked weight
  ([TrackerInvariant]), the limits of the throttler ([ThrottlingLimits]), the
  registry of the dispatcher ([RegistryFacts]), more on the operations of a
  unique vertex ([UniqueVertexFacts]) and its whitelist ([WhitelistFacts]).

  Go's [uint64] is a [Z] in the range [0, 2^64) with the wrap-around written
  out; Go maps are [gmap]s, [ids.Set] is a [gset]; identifiers ([ids.ID],
  [ids.ShortID]) are the natural numbers their bytes encode. *)

From stdpp Require Import gmap strings list fin_maps.
From Stdlib Require Import ZArith Lia.

Local Open Scope Z_scope.
#[local] Set Warnings "-clear-no-such-hyp".

(** ** Machine integers *)

Module U64.

Definition MaxUint64 : Z := 18446744073709551615.
Definition modulus : Z := MaxUint64 + 1.

(** Result of a Go [uint64] operation: reduction modulo [2^64]. *)
Definition wrap (z : Z) : Z := z mod modulus.

Definition add (a b : Z) : Z := wrap (a + b).
Definition sub (a b : Z) : Z := wrap (a - b).

Definition in_range (z : Z) : Prop := 0 <= z <= MaxUint64.

End U64.

(** ** utils/math: overflow-checked arithmetic *)

Module SafeMath.

Inductive error := errOverflow | errUnderflow.

(** Modelled from the spec: [utils/math.Add64] is not among the sources; the
    validator-set section states that adding weight fails with [Overflow]
    when the sum exceeds the largest [uint64]. *)
Definition Add64 (a b : Z) : Z * option error :=
  if a >? U64.MaxUint64 - b then (0, Some errOverflow) else (a + b, None).

(** Modelled from the spec: [utils/math.Sub64] is not among the sources; the
    comment in [RemoveWeightForNode] records that it returns 0 on error, and
    the validator-set section that removal saturates at 0. *)
Definition Sub64 (a b : Z) : Z * option error :=
  if a <? b then (0, Some errUnderflow) else (a - b, None).

(** Modelled from the spec: [utils/math.Min64] is not among the sources; it
    is the variadic minimum its name and its call sites describe. *)
Definition Min64 (a : Z) (rest : list Z) : Z := foldl Z.min a rest.

End SafeMath.

(** ** snow/engine/common/tracker: the bootstrap weight tracker *)

Module Tracker.
Import SafeMath.

(** [ids.ShortID], a 20-byte node identifier. *)
Definition ShortID := N.

Record weightTracker := mkWT {
  beacons : gmap N Z;              (* validation.Set, through GetWeight *)
  startupAlpha : Z;
  weight : Z;
  enoughConnectedWeight : bool
}.

Definition NewWeightTracker (b : gmap N Z) (alpha : Z) : weightTracker :=
  {| beacons := b; startupAlpha := alpha; weight := 0;
     enoughConnectedWeight := false |}.

(** [validation.Set.GetWeight]: the weight and whether the node is known. *)
Definition GetWeight (b : gmap N Z) (nodeID : ShortID) : Z * bool :=
  match b !! nodeID with
  | Some w => (w, true)
  | None => (0, false)
  end.

Definition AddWeightForNode (wt : weightTracker) (nodeID : ShortID)
  : weightTracker * option error :=
  if enoughConnectedWeight wt then (wt, None)
  else
    let '(w, ok) := GetWeight (beacons wt) nodeID in
    if negb ok then (wt, None)
    else
      match Add64 w (weight wt) with
      | (_, Some err) => (wt, Some err)
      | (w', None) =>
          let wt1 := {| beacons := beacons wt; startupAlpha := startupAlpha wt;
                        weight := w';
                        enoughConnectedWeight := enoughConnectedWeight wt |} in
          if weight wt1 >=? startupAlpha wt1
          then ({| beacons := beacons wt1; startupAlpha := startupAlpha wt1;
                   weight := weight wt1; enoughConnectedWeight := true |}, None)
          else (wt1, None)
      end.

Definition RemoveWeightForNode (wt : weightTracker) (nodeID : ShortID)
  : weightTracker * option error :=
  let '(w, ok) := GetWeight (beacons wt) nodeID in
  if ok
  then ({| beacons := beacons wt; startupAlpha := startupAlpha wt;
           weight := fst (Sub64 (weight wt) w);
           enoughConnectedWeight := enoughConnectedWeight wt |}, None)
  else (wt, None).

Definition EnoughConnectedWeight (wt : weightTracker) : bool :=
  enoughConnectedWeight wt.

(** Calls the engine makes on a tracker.  The beacon set is a shared object
    that the validator manager may change between two calls. *)
Inductive call :=
| CallAdd (nodeID : ShortID)
| CallRemove (nodeID : ShortID)
| BeaconsChanged (b : gmap N Z).

Definition step (wt : weightTracker) (c : call) : weightTracker :=
  match c with
  | CallAdd n => fst (AddWeightForNode wt n)
  | CallRemove n => fst (RemoveWeightForNode wt n)
  | BeaconsChanged b =>
      {| beacons := b; startupAlpha := startupAlpha wt; weight := weight wt;
         enoughConnectedWeight := enoughConnectedWeight wt |}
  end.

Definition run (wt : weightTracker) (cs : list call) : weightTracker :=
  foldl step wt cs.

(** All stored quantities are [uint64]s. *)
Definition well_typed (wt : weightTracker) : Prop :=
  U64.in_range (startupAlpha wt) /\ U64.in_range (weight wt) /\
  forall n w, beacons wt !! n = Some w -> U64.in_range w.

End Tracker.

(** ** network/throttling: the outbound message byte throttler *)

Module Throttling.
Import SafeMath.

(** [message.OutboundMessage], as far as the throttler looks at it. *)
Record OutboundMessage := mkMsg {
  BypassThrottling : bool;
  Bytes : list Byte.byte
}.

(** [uint64(len(msg.Bytes()))] *)
Definition msgSize (msg : OutboundMessage) : Z := Z.of_nat (length (Bytes msg)).

(** [validation.Set], through [GetWeight] and [Weight]. *)
Definition GetWeight (vdrs : gmap N Z) (nodeID : N) : Z * bool :=
  match vdrs !! nodeID with
  | Some w => (w, true)
  | None => (0, false)
  end.

Definition Weight (vdrs : gmap N Z) : Z :=
  map_fold (fun _ w acc => U64.add w acc) 0 vdrs.

Record outboundMsgThrottlerMetrics := mkMetrics {
  acquireSuccesses : Z;
  acquireFailures : Z;
  gaugeRemainingAtLargeBytes : Z;        (* the value the gauge was last set from *)
  gaugeRemainingVdrBytes : Z;
  awaitingRelease : Z
}.

(** [outboundMsgThrottler]: the embedded [commonMsgThrottler] (without its
    lock and logger) and the metrics. *)
Record outboundMsgThrottler := mkThrottler {
  validators : gmap N Z;
  maxVdrBytes : Z;
  remainingVdrBytes : Z;
  remainingAtLargeBytes : Z;
  nodeMaxAtLargeBytes : Z;
  nodeToVdrBytesUsed : gmap N Z;
  nodeToAtLargeBytesUsed : gmap N Z;
  metrics : outboundMsgThrottlerMetrics
}.

Record MsgByteThrottlerConfig := mkConfig {
  VdrAllocSize : Z;
  AtLargeAllocSize : Z;
  NodeMaxAtLargeBytes : Z
}.

Definition NewSybilOutboundMsgThrottler (vdrs : gmap N Z) (config : MsgByteThrottlerConfig)
  : outboundMsgThrottler :=
  {| validators := vdrs;
     maxVdrBytes := VdrAllocSize config;
     remainingVdrBytes := VdrAllocSize config;
     remainingAtLargeBytes := AtLargeAllocSize config;
     nodeMaxAtLargeBytes := NodeMaxAtLargeBytes config;
     nodeToVdrBytesUsed := ∅;
     nodeToAtLargeBytesUsed := ∅;
     metrics := mkMetrics 0 0 0 0 0 |}.

(** Reading a Go map of [uint64]: a missing key reads as 0. *)
Definition used (m : gmap N Z) (nodeID : N) : Z := default 0 (m !! nodeID).

(** The four state fields of the throttler with new values, the rest kept. *)
Definition with_at_large (t : outboundMsgThrottler) (rem : Z) (m : gmap N Z)
  : outboundMsgThrottler :=
  {| validators := validators t; maxVdrBytes := maxVdrBytes t;
     remainingVdrBytes := remainingVdrBytes t;
     remainingAtLargeBytes := rem;
     nodeMaxAtLargeBytes := nodeMaxAtLargeBytes t;
     nodeToVdrBytesUsed := nodeToVdrBytesUsed t;
     nodeToAtLargeBytesUsed := m;
     metrics := metrics t |}.

Definition with_vdr (t : outboundMsgThrottler) (rem : Z) (m : gmap N Z)
  : outboundMsgThrottler :=
  {| validators := validators t; maxVdrBytes := maxVdrBytes t;
     remainingVdrBytes := rem;
     remainingAtLargeBytes := remainingAtLargeBytes t;
     nodeMaxAtLargeBytes := nodeMaxAtLargeBytes t;
     nodeToVdrBytesUsed := m;
     nodeToAtLargeBytesUsed := nodeToAtLargeBytesUsed t;
     metrics := metrics t |}.

Definition with_metrics (t : outboundMsgThrottler) (m : outboundMsgThrottlerMetrics)
  : outboundMsgThrottler :=
  {| validators := validators t; maxVdrBytes := maxVdrBytes t;
     remainingVdrBytes := remainingVdrBytes t;
     remainingAtLargeBytes := remainingAtLargeBytes t;
     nodeMaxAtLargeBytes := nodeMaxAtLargeBytes t;
     nodeToVdrBytesUsed := nodeToVdrBytesUsed t;
     nodeToAtLargeBytesUsed := nodeToAtLargeBytesUsed t;
     metrics := m |}.

Definition incAcquireFailures (m : outboundMsgThrottlerMetrics) :=
  {| acquireSuccesses := acquireSuccesses m; acquireFailures := acquireFailures m + 1;
     gaugeRemainingAtLargeBytes := gaugeRemainingAtLargeBytes m;
     gaugeRemainingVdrBytes := gaugeRemainingVdrBytes m;
     awaitingRelease := awaitingRelease m |}.

Definition incAcquired (m : outboundMsgThrottlerMetrics) :=
  {| acquireSuccesses := acquireSuccesses m + 1; acquireFailures := acquireFailures m;
     gaugeRemainingAtLargeBytes := gaugeRemainingAtLargeBytes m;
     gaugeRemainingVdrBytes := gaugeRemainingVdrBytes m;
     awaitingRelease := awaitingRelease m + 1 |}.

Definition setGaugeAtLarge (m : outboundMsgThrottlerMetrics) (v : Z) :=
  {| acquireSuccesses := acquireSuccesses m; acquireFailures := acquireFailures m;
     gaugeRemainingAtLargeBytes := v;
     gaugeRemainingVdrBytes := gaugeRemainingVdrBytes m;
     awaitingRelease := awaitingRelease m |}.

Definition setGaugeVdr (m : outboundMsgThrottlerMetrics) (v : Z) :=
  {| acquireSuccesses := acquireSuccesses m; acquireFailures := acquireFailures m;
     gaugeRemainingAtLargeBytes := gaugeRemainingAtLargeBytes m;
     gaugeRemainingVdrBytes := v;
     awaitingRelease := awaitingRelease m |}.

Definition releasedMetrics (m : outboundMsgThrottlerMetrics) (atLarge vdr : Z) :=
  {| acquireSuccesses := acquireSuccesses m; acquireFailures := acquireFailures m;
     gaugeRemainingAtLargeBytes := atLarge;
     gaugeRemainingVdrBytes := vdr;
     awaitingRelease := awaitingRelease m - 1 |}.

Section Throttler.

(** The size of a validator's allocation is computed in [float64]:
    [uint64(float64(maxVdrBytes) * float64(weight) / float64(validators.Weight()))].
    The function is a parameter of the model; no property below depends on
    the number it returns. *)
Variable vdrAllocation : forall (maxVdrBytes weight totalWeight : Z), Z.

(** The bytes [Acquire] would take from the at-large allocation. *)
Definition atLargeBytesUsed (t : outboundMsgThrottler) (msg : OutboundMessage) (nodeID : N) : Z :=
  Min64 (msgSize msg)
        [U64.sub (nodeMaxAtLargeBytes t) (used (nodeToAtLargeBytesUsed t) nodeID);
         remainingAtLargeBytes t].

Definition vdrAllocationSize (t : outboundMsgThrottler) (nodeID : N) : Z :=
  let '(weight, isVdr) := GetWeight (validators t) nodeID in
  if isVdr && negb (weight =? 0)
  then vdrAllocation (maxVdrBytes t) weight (Weight (validators t))
  else 0.

Definition vdrBytesAllowed (t : outboundMsgThrottler) (nodeID : N) : Z :=
  let vdrBytesAlreadyUsed := used (nodeToVdrBytesUsed t) nodeID in
  if vdrBytesAlreadyUsed >=? vdrAllocationSize t nodeID then 0
  else U64.sub (vdrAllocationSize t nodeID) vdrBytesAlreadyUsed.

(** The bytes [Acquire] would take from the validator allocation. *)
Definition vdrBytesUsed (t : outboundMsgThrottler) (msg : OutboundMessage) (nodeID : N) : Z :=
  Min64 (remainingVdrBytes t)
        [U64.sub (msgSize msg) (atLargeBytesUsed t msg nodeID);
         vdrBytesAllowed t nodeID].

Definition Acquire (t : outboundMsgThrottler) (msg : OutboundMessage) (nodeID : N)
  : bool * outboundMsgThrottler :=
  if BypassThrottling msg then (true, t)
  else
    let bytesNeeded := msgSize msg in
    let atLarge := atLargeBytesUsed t msg nodeID in
    let bytesNeeded := U64.sub bytesNeeded atLarge in
    let vdr := vdrBytesUsed t msg nodeID in
    let bytesNeeded := U64.sub bytesNeeded vdr in
    if negb (bytesNeeded =? 0)
    then (false, with_metrics t (incAcquireFailures (metrics t)))
    else
      let t :=
        if atLarge >? 0
        then
          let rem := U64.sub (remainingAtLargeBytes t) atLarge in
          with_metrics
            (with_at_large t rem
               (<[nodeID := U64.add (used (nodeToAtLargeBytesUsed t) nodeID) atLarge]>
                  (nodeToAtLargeBytesUsed t)))
            (setGaugeAtLarge (metrics t) rem)
        else t in
      let t :=
        if vdr >? 0
        then
          let rem := U64.sub (remainingVdrBytes t) vdr in
          with_metrics
            (with_vdr t rem
               (<[nodeID := U64.add (used (nodeToVdrBytesUsed t) nodeID) vdr]>
                  (nodeToVdrBytesUsed t)))
            (setGaugeVdr (metrics t) rem)
        else t in
      (true, with_metrics t (incAcquired (metrics t))).

End Throttler.

(** [m[nodeID] -= x; if m[nodeID] == 0 { delete(m, nodeID) }] *)
Definition giveBack (m : gmap N Z) (nodeID : N) (x : Z) : gmap N Z :=
  let m := <[nodeID := U64.sub (used m nodeID) x]> m in
  if used m nodeID =? 0 then delete nodeID m else m.

Definition vdrBytesToReturn (t : outboundMsgThrottler) (msg : OutboundMessage) (nodeID : N) : Z :=
  Min64 (msgSize msg) [used (nodeToVdrBytesUsed t) nodeID].

Definition atLargeBytesToReturn (t : outboundMsgThrottler) (msg : OutboundMessage) (nodeID : N) : Z :=
  U64.sub (msgSize msg) (vdrBytesToReturn t msg nodeID).

Definition Release (t : outboundMsgThrottler) (msg : OutboundMessage) (nodeID : N)
  : outboundMsgThrottler :=
  if BypassThrottling msg then t
  else
    let toVdr := vdrBytesToReturn t msg nodeID in
    let toAtLarge := atLargeBytesToReturn t msg nodeID in
    let t := with_vdr t (U64.add (remainingVdrBytes t) toVdr)
                      (giveBack (nodeToVdrBytesUsed t) nodeID toVdr) in
    let t := with_at_large t (U64.add (remainingAtLargeBytes t) toAtLarge)
                           (giveBack (nodeToAtLargeBytesUsed t) nodeID toAtLarge) in
    with_metrics t (releasedMetrics (metrics t) (remainingAtLargeBytes t) (remainingVdrBytes t)).

(** The sum of the entries of a usage map. *)
Definition usedTotal (m : gmap N Z) : Z := map_fold (fun _ v acc => v + acc) 0 m.

(** Every stored quantity is a [uint64]. *)
Definition well_typed (t : outboundMsgThrottler) : Prop :=
  U64.in_range (maxVdrBytes t) /\
  U64.in_range (remainingVdrBytes t) /\
  U64.in_range (remainingAtLargeBytes t) /\
  U64.in_range (nodeMaxAtLargeBytes t) /\
  (forall n v, nodeToVdrBytesUsed t !! n = Some v -> U64.in_range v) /\
  (forall n v, nodeToAtLargeBytesUsed t !! n = Some v -> U64.in_range v).

(** The bookkeeping of the two allocations: what remains and what the nodes
    hold add up to the validator allocation, and the at-large side has not
    wrapped around. *)
Definition accounted (t : outboundMsgThrottler) : Prop :=
  remainingVdrBytes t + usedTotal (nodeToVdrBytesUsed t) = maxVdrBytes t /\
  remainingAtLargeBytes t + usedTotal (nodeToAtLargeBytesUsed t) <= U64.MaxUint64.

(** A message that fits Go's [int] length. *)
Definition sized (msg : OutboundMessage) : Prop := U64.in_range (msgSize msg).

End Throttling.

(** ** snow/triggers: the event dispatcher *)

Module Triggers.

(** [ids.ID], a 32-byte identifier. *)
Definition ID := N.

(** [snow.ConsensusContext], as far as the dispatcher looks at it. *)
Record ConsensusContext := mkCtx { ChainID : ID }.

Inductive error :=
| HandlerError (msg : string)
    (* an error returned by a handler *)
| AcceptErrored (identifier : string) (chainID containerID : ID) (cause : error)
    (* "handler %s on chain %s errored while accepting %s: %w" *)
| AlreadyExists (identifier : string) (chainID : ID)
| NoHandlers (chainID : ID)
| DoesNotExist (identifier : string) (chainID : ID).

(** Lines written with [ed.log.Error]. *)
Inductive logLine :=
| LogAccept (identifier : string) (chainID containerID : ID) (err : error)
| LogReject (identifier : string) (chainID : ID) (err : error)
| LogIssue (identifier : string) (chainID : ID) (err : error).

Inductive event := EvAccept | EvReject | EvIssue.

Section Dispatcher.

(** Handlers are objects of the embedding application; what they do when
    called is a transition on a state [World] of their own. *)
Context {World : Type}.

Definition method : Type :=
  ConsensusContext -> ID -> list Byte.byte -> World -> option error * World.

(** The [interface{}] value of a handler: for each of [snow.Acceptor],
    [snow.Rejector] and [snow.Issuer], the method it has when it implements
    the interface. *)
Record handlerValue := mkHandlerValue {
  asAcceptor : option method;
  asRejector : option method;
  asIssuer : option method
}.

Record handler := mkHandler {
  handlerFunc : handlerValue;
  dieOnError : bool
}.

Record EventDispatcher := mkDispatcher {
  log : list logLine;
  (* Chain ID --> Identifier --> handler *)
  chainHandlers : gmap N (gmap string handler)
}.

Definition New : EventDispatcher := {| log := []; chainHandlers := ∅ |}.

(** One handler invocation: who was called, and what it returned. *)
Record call := mkCall { callee : string; returned : option error }.

(** What a dispatch leaves behind: the returned error, the dispatcher (its
    log), the handlers' world, and the handler invocations in the order in
    which they were made. *)
Record outcome := mkOutcome {
  result : option error;
  dispatcher : EventDispatcher;
  world : World;
  calls : list call
}.

Definition logged (ed : EventDispatcher) (l : logLine) : EventDispatcher :=
  {| log := log ed ++ [l]; chainHandlers := chainHandlers ed |}.

(** The body of [for id, handler := range events] in [Accept], over the
    entries in the order in which the runtime yields them. *)
Fixpoint acceptRange (ctx : ConsensusContext) (containerID : ID) (container : list Byte.byte)
    (entries : list (string * handler)) (ed : EventDispatcher) (w : World) (cs : list call)
  : outcome :=
  match entries with
  | [] => {| result := None; dispatcher := ed; world := w; calls := cs |}
  | (id, h) :: rest =>
      match asAcceptor (handlerFunc h) with
      | None => acceptRange ctx containerID container rest ed w cs
      | Some accept =>
          match accept ctx containerID container w with
          | (Some err, w) =>
              let ed := logged ed (LogAccept id (ChainID ctx) containerID err) in
              let cs := cs ++ [mkCall id (Some err)] in
              if dieOnError h
              then {| result := Some (AcceptErrored id (ChainID ctx) containerID err);
                      dispatcher := ed; world := w; calls := cs |}
              else acceptRange ctx containerID container rest ed w cs
          | (None, w) =>
              acceptRange ctx containerID container rest ed w (cs ++ [mkCall id None])
          end
      end
  end.

Fixpoint rejectRange (ctx : ConsensusContext) (containerID : ID) (container : list Byte.byte)
    (entries : list (string * handler)) (ed : EventDispatcher) (w : World) (cs : list call)
  : outcome :=
  match entries with
  | [] => {| result := None; dispatcher := ed; world := w; calls := cs |}
  | (id, h) :: rest =>
      match asRejector (handlerFunc h) with
      | None => rejectRange ctx containerID container rest ed w cs
      | Some reject =>
          match reject ctx containerID container w with
          | (Some err, w) =>
              rejectRange ctx containerID container rest
                (logged ed (LogReject id (ChainID ctx) err)) w (cs ++ [mkCall id (Some err)])
          | (None, w) =>
              rejectRange ctx containerID container rest ed w (cs ++ [mkCall id None])
          end
      end
  end.

Fixpoint issueRange (ctx : ConsensusContext) (containerID : ID) (container : list Byte.byte)
    (entries : list (string * handler)) (ed : EventDispatcher) (w : World) (cs : list call)
  : outcome :=
  match entries with
  | [] => {| result := None; dispatcher := ed; world := w; calls := cs |}
  | (id, h) :: rest =>
      match asIssuer (handlerFunc h) with
      | None => issueRange ctx containerID container rest ed w cs
      | Some issue =>
          match issue ctx containerID container w with
          | (Some err, w) =>
              issueRange ctx containerID container rest
                (logged ed (LogIssue id (ChainID ctx) err)) w (cs ++ [mkCall id (Some err)])
          | (None, w) =>
              issueRange ctx containerID container rest ed w (cs ++ [mkCall id None])
          end
      end
  end.

(** Go leaves the order of a [range] over a map unspecified, and it may
    differ from one loop to the next: the order is an argument of each
    dispatch, a function that lists the entries of a map. *)
Definition rangeOrder : Type := gmap string handler -> list (string * handler).

Definition range_ok (range : rangeOrder) : Prop :=
  forall events, range events ≡ₚ map_to_list events.

Definition Accept (range : rangeOrder) (ed : EventDispatcher) (ctx : ConsensusContext)
    (containerID : ID) (container : list Byte.byte) (w : World) : outcome :=
  match chainHandlers ed !! ChainID ctx with
  | None => {| result := None; dispatcher := ed; world := w; calls := [] |}
  | Some events => acceptRange ctx containerID container (range events) ed w []
  end.

Definition Reject (range : rangeOrder) (ed : EventDispatcher) (ctx : ConsensusContext)
    (containerID : ID) (container : list Byte.byte) (w : World) : outcome :=
  match chainHandlers ed !! ChainID ctx with
  | None => {| result := None; dispatcher := ed; world := w; calls := [] |}
  | Some events => rejectRange ctx containerID container (range events) ed w []
  end.

Definition Issue (range : rangeOrder) (ed : EventDispatcher) (ctx : ConsensusContext)
    (containerID : ID) (container : list Byte.byte) (w : World) : outcome :=
  match chainHandlers ed !! ChainID ctx with
  | None => {| result := None; dispatcher := ed; world := w; calls := [] |}
  | Some events => issueRange ctx containerID container (range events) ed w []
  end.

Definition dispatch (ev : event) : rangeOrder -> EventDispatcher -> ConsensusContext ->
    ID -> list Byte.byte -> World -> outcome :=
  match ev with
  | EvAccept => Accept
  | EvReject => Reject
  | EvIssue => Issue
  end.

Definition RegisterChain (ed : EventDispatcher) (chainID : ID) (identifier : string)
    (hf : handlerValue) (die : bool) : EventDispatcher * option error :=
  let '(events, ed) :=
    match chainHandlers ed !! chainID with
    | Some events => (events, ed)
    | None => (∅, {| log := log ed; chainHandlers := <[chainID := ∅]> (chainHandlers ed) |})
    end in
  match events !! identifier with
  | Some _ => (ed, Some (AlreadyExists identifier chainID))
  | None =>
      ({| log := log ed;
          chainHandlers :=
            <[chainID := <[identifier := {| handlerFunc := hf; dieOnError := die |}]> events]>
              (chainHandlers ed) |}, None)
  end.

Definition DeregisterChain (ed : EventDispatcher) (chainID : ID) (identifier : string)
  : EventDispatcher * option error :=
  match chainHandlers ed !! chainID with
  | None => (ed, Some (NoHandlers chainID))
  | Some events =>
      match events !! identifier with
      | None => (ed, Some (DoesNotExist identifier chainID))
      | Some _ =>
          if Nat.eqb (size events) 1
          then ({| log := log ed; chainHandlers := delete chainID (chainHandlers ed) |}, None)
          else ({| log := log ed;
                   chainHandlers := <[chainID := delete identifier events]> (chainHandlers ed) |},
                None)
      end
  end.

(** Does a handler implement the interface of an event? *)
Definition implements (ev : event) (h : handler) : bool :=
  match ev with
  | EvAccept => bool_decide (is_Some (asAcceptor (handlerFunc h)))
  | EvReject => bool_decide (is_Some (asRejector (handlerFunc h)))
  | EvIssue => bool_decide (is_Some (asIssuer (handlerFunc h)))
  end.

(** The identifiers, in the order of [entries], of the handlers that
    implement the interface of [ev]. *)
Definition matching (ev : event) (entries : list (string * handler)) : list string :=
  fst <$> filter (fun e => implements ev (snd e) = true) entries.

(** A registration request, and the handlers registered by a sequence of
    requests on one chain, starting from a new dispatcher. *)
Record registration := mkReg {
  regIdentifier : string;
  regHandler : handlerValue;
  regDieOnError : bool
}.

Definition registerAll (chainID : ID) (regs : list registration) : EventDispatcher :=
  foldl (fun ed r =>
           fst (RegisterChain ed chainID (regIdentifier r) (regHandler r) (regDieOnError r)))
        New regs.

(** The identifiers of the registered handlers that implement the interface
    of [ev], in registration order. *)
Definition registeredFor (ev : event) (regs : list registration) : list string :=
  regIdentifier <$>
    filter (fun r => implements ev {| handlerFunc := regHandler r;
                                      dieOnError := regDieOnError r |} = true) regs.

End Dispatcher.

Arguments handlerValue : clear implicits.
Arguments handler : clear implicits.
Arguments EventDispatcher : clear implicits.
Arguments outcome : clear implicits.
Arguments method : clear implicits.
Arguments rangeOrder : clear implicits.
Arguments registration : clear implicits.

End Triggers.

(** ** snow/engine/avalanche/state: unique vertices *)

Module AvalancheState.

(** [ids.ID], the 32-byte hash of a vertex or transaction. *)
Abbreviation ID := N.

(** [choices.Status] *)
Inductive Status := Unknown | Processing | Rejected | Accepted.

#[global] Instance Status_eq_dec : EqDecision Status.
Proof. solve_decision. Defined.

(** Modelled from the spec: [choices.Status.Fetched] is not among the
    sources; a vertex is fetched once it has left [Unknown] (the data model's
    status values and the lifecycle of a vertex). *)
Definition Fetched (s : Status) : bool :=
  match s with
  | Unknown => false
  | Processing | Rejected | Accepted => true
  end.

Inductive error :=
| errStopVertexNotAllowedTimestamp
| errStopVertexAlreadyAccepted
| errUnexpectedEdges
| errUnexpectedDependencyStopVtx
| errUnknownVertex
| errFailedParents (s : Status)      (* "failed to get parents for vertex with status: %s" *)
| errFailedTxs (s : Status)          (* "failed to get txs for vertex with status: %s" *)
| errSetEdge (vtxID : ID) (cause : error)
                                     (* "failed to set edge while accepting vertex %s due to %w" *)
| errDatabase (code : N)             (* an error of the key-value store *)
| errVM (code : N)                   (* an error of the virtual machine *)
| errVertex (code : N).              (* an error of the stateless vertex's own Verify *)

(** What a Go function leaves: a value, an error, or a panic (a nil
    dereference). *)
Inductive result (A : Type) :=
| Ok (a : A)
| Err (e : error)
| Panic.
Arguments Ok {A} a.
Arguments Err {A} e.
Arguments Panic {A}.

(** A dependency of a transaction, as far as [Verify] looks at it. *)
Record Dep := mkDep { depID : ID; depStatus : Status }.

(** [snowstorm.Tx], as far as [Verify] looks at it. *)
Record Tx := mkTx {
  txID : ID;
  txDependencies : result (list Dep)
}.

(** [vertex.StatelessVertex] *)
Record StatelessVertex := mkVertex {
  svVerify : option error;
  svStopVertex : bool;
  svParentIDs : list ID;
  svTxs : list (list Byte.byte)
}.

(** Addresses of the Go heap: of [uniqueVertex] and of [vertexState] values. *)
Abbreviation ptr := positive.

Record vertexState := mkVertexState {
  latest : bool;
  vtx : option StatelessVertex;
  status : Status;
  parents : list ptr;                (* []avalanche.Vertex, each a *uniqueVertex *)
  txs : list (option Tx)             (* []snowstorm.Tx, an entry may be nil *)
}.

Record uniqueVertex := mkUniqueVertex {
  id : ID;
  v : option ptr;                    (* *vertexState, may be nil *)
  time : option Z                    (* the clock of tests, may be nil *)
}.

(** The part of the Go heap that holds vertex handles and their state. *)
Record Heap := mkHeap {
  handles : gmap positive uniqueVertex;
  cells : gmap positive vertexState;
  nextHandle : positive;
  nextCell : positive
}.

(** Modelled from the spec: the [state] behind a [Serializer] is not among the
    sources.  It is the unique-vertex cache (a bounded LRU keyed by vertex
    ID, least recently used entry first) and the status, vertex and frontier
    records of the persistent store, per the sections on the unique-vertex
    cache and on persistence. *)
Record prefixedState := mkState {
  uniqueVtx : list (ID * ptr);
  cacheSize : nat;
  dbStatus : gmap N Status;
  dbVertex : gmap N StatelessVertex;
  dbEdge : list ID
}.

Inductive dbOp :=
| OpSetVertex (sv : StatelessVertex)
| OpSetStatus (vtxID : ID) (s : Status)
| OpSetEdge (frontier : list ID)
| OpCommit.

Record diskImage := mkDisk {
  diskStatus : gmap N Status;
  diskVertex : gmap N StatelessVertex;
  diskEdge : list ID
}.

(** Modelled from the spec: the versioned database is not among the sources.
    Writes are staged; [Commit] makes all staged writes durable in one batch;
    any operation may fail with an error of the store.  [disk] is what is
    durable, [dbLog] the operations issued so far, and [faults] the outcomes
    of the coming operations (none left: success). *)
Record Database := mkDatabase {
  disk : diskImage;
  dbLog : list dbOp;
  faults : list (option error)
}.

Record Serializer := mkSerializer {
  heap : Heap;
  state : prefixedState;
  versionDB : Database;
  edge : gset N;
  XChainMigrationTime : Z;
  ParseTx : list Byte.byte -> result Tx      (* VM.ParseTx *)
}.

(** *** Field updates *)

Definition setHeap (hp : Heap) (s : Serializer) : Serializer :=
  {| heap := hp; state := state s; versionDB := versionDB s; edge := edge s;
     XChainMigrationTime := XChainMigrationTime s; ParseTx := ParseTx s |}.

Definition setState (st : prefixedState) (s : Serializer) : Serializer :=
  {| heap := heap s; state := st; versionDB := versionDB s; edge := edge s;
     XChainMigrationTime := XChainMigrationTime s; ParseTx := ParseTx s |}.

Definition setVersionDB (db : Database) (s : Serializer) : Serializer :=
  {| heap := heap s; state := state s; versionDB := db; edge := edge s;
     XChainMigrationTime := XChainMigrationTime s; ParseTx := ParseTx s |}.

Definition setEdgeSet (e : gset N) (s : Serializer) : Serializer :=
  {| heap := heap s; state := state s; versionDB := versionDB s; edge := e;
     XChainMigrationTime := XChainMigrationTime s; ParseTx := ParseTx s |}.

Definition setHandle (l : ptr) (hv : uniqueVertex) (s : Serializer) : Serializer :=
  setHeap {| handles := <[l := hv]> (handles (heap s)); cells := cells (heap s);
             nextHandle := nextHandle (heap s); nextCell := nextCell (heap s) |} s.

Definition setCell (c : ptr) (cs : vertexState) (s : Serializer) : Serializer :=
  setHeap {| handles := handles (heap s); cells := <[c := cs]> (cells (heap s));
             nextHandle := nextHandle (heap s); nextCell := nextCell (heap s) |} s.

(** [&uniqueVertex{...}] *)
Definition allocHandle (hv : uniqueVertex) (s : Serializer) : ptr * Serializer :=
  let l := nextHandle (heap s) in
  (l, setHeap {| handles := <[l := hv]> (handles (heap s)); cells := cells (heap s);
                 nextHandle := Pos.succ l; nextCell := nextCell (heap s) |} s).

(** [&vertexState{...}] *)
Definition allocCell (cs : vertexState) (s : Serializer) : ptr * Serializer :=
  let c := nextCell (heap s) in
  (c, setHeap {| handles := handles (heap s); cells := <[c := cs]> (cells (heap s));
                 nextHandle := nextHandle (heap s); nextCell := Pos.succ c |} s).

Definition setCache (cache : list (ID * ptr)) (s : Serializer) : Serializer :=
  setState {| uniqueVtx := cache; cacheSize := cacheSize (state s);
              dbStatus := dbStatus (state s); dbVertex := dbVertex (state s);
              dbEdge := dbEdge (state s) |} s.

Definition withLatest (b : bool) (cs : vertexState) : vertexState :=
  {| latest := b; vtx := vtx cs; status := status cs; parents := parents cs; txs := txs cs |}.

Definition withVtx (sv : option StatelessVertex) (cs : vertexState) : vertexState :=
  {| latest := latest cs; vtx := sv; status := status cs; parents := parents cs; txs := txs cs |}.

Definition withStatus (st : Status) (cs : vertexState) : vertexState :=
  {| latest := latest cs; vtx := vtx cs; status := st; parents := parents cs; txs := txs cs |}.

Definition withParents (ps : list ptr) (cs : vertexState) : vertexState :=
  {| latest := latest cs; vtx := vtx cs; status := status cs; parents := ps; txs := txs cs |}.

Definition withTxs (ts : list (option Tx)) (cs : vertexState) : vertexState :=
  {| latest := latest cs; vtx := vtx cs; status := status cs; parents := parents cs; txs := ts |}.

(** The zero value [vertexState{}]. *)
Definition zeroVertexState : vertexState :=
  {| latest := false; vtx := None; status := Unknown; parents := []; txs := [] |}.

(** *** The persistent state *)

(** Modelled from the spec: [state.Status] reads the status record of a
    vertex; a vertex without a record is [Unknown]. *)
Definition state_Status (s : Serializer) (vtxID : ID) : Status :=
  default Unknown (dbStatus (state s) !! vtxID).

(** Modelled from the spec: [state.Vertex] reads the stored vertex, nil when
    there is none. *)
Definition state_Vertex (s : Serializer) (vtxID : ID) : option StatelessVertex :=
  dbVertex (state s) !! vtxID.

(** One operation on the versioned database: it is logged, and it fails when
    the store is due to fail. *)
Definition issue (op : dbOp) (db : Database) : option error * Database :=
  (match faults db with
   | Some e :: _ => Some e
   | _ => None
   end,
   {| disk := disk db; dbLog := dbLog db ++ [op]; faults := tail (faults db) |}).

Definition dbIssue (op : dbOp) (s : Serializer) : option error * Serializer :=
  let '(r, db) := issue op (versionDB s) in (r, setVersionDB db s).

(** Modelled from the spec: [state.SetStatus] stages the status record. *)
Definition state_SetStatus (vtxID : ID) (st : Status) (s : Serializer)
  : option error * Serializer :=
  match dbIssue (OpSetStatus vtxID st) s with
  | (Some e, s) => (Some e, s)
  | (None, s) =>
      (None, setState {| uniqueVtx := uniqueVtx (state s); cacheSize := cacheSize (state s);
                         dbStatus := <[vtxID := st]> (dbStatus (state s));
                         dbVertex := dbVertex (state s); dbEdge := dbEdge (state s) |} s)
  end.

(** Modelled from the spec: [state.SetEdge] stages the frontier record. *)
Definition state_SetEdge (frontier : list ID) (s : Serializer) : option error * Serializer :=
  match dbIssue (OpSetEdge frontier) s with
  | (Some e, s) => (Some e, s)
  | (None, s) =>
      (None, setState {| uniqueVtx := uniqueVtx (state s); cacheSize := cacheSize (state s);
                         dbStatus := dbStatus (state s); dbVertex := dbVertex (state s);
                         dbEdge := frontier |} s)
  end.

(** Modelled from the spec: [versionDB.Commit] writes every staged record in
    one atomic batch. *)
Definition Commit (s : Serializer) : option error * Serializer :=
  match dbIssue OpCommit s with
  | (Some e, s) => (Some e, s)
  | (None, s) =>
      (None, setVersionDB {| disk := {| diskStatus := dbStatus (state s);
                                        diskVertex := dbVertex (state s);
                                        diskEdge := dbEdge (state s) |};
                             dbLog := dbLog (versionDB s);
                             faults := faults (versionDB s) |} s)
  end.

(** Modelled from the spec: [Serializer.Edge] lists the accepted frontier. *)
Definition Edge (s : Serializer) : list ID := elements (edge s).

(** *** The unique-vertex cache *)

Definition Evict (l : ptr) (s : Serializer) : Serializer :=
  match handles (heap s) !! l with
  | Some hv =>
      match v hv with
      | Some c =>
          match cells (heap s) !! c with
          | Some cs => setCell c (withParents [] (withLatest false cs)) s
          | None => s
          end
      | None => s
      end
  | None => s
  end.

Definition cacheFind (key : ID) (cache : list (ID * ptr)) : option ptr :=
  snd <$> find (fun e => bool_decide (fst e = key)) cache.

Definition cacheRemove (key : ID) (cache : list (ID * ptr)) : list (ID * ptr) :=
  filter (fun e => fst e <> key) cache.

(** The cache makes room for one more entry: when it is full, the least
    recently used entry is dropped and its handle told. *)
Definition makeRoom (s : Serializer) : Serializer :=
  let cache := uniqueVtx (state s) in
  if (Nat.max 1 (cacheSize (state s)) <=? length cache)%nat
  then match cache with
       | (_, oldest) :: rest => Evict oldest (setCache rest s)
       | [] => s
       end
  else s.

(** Modelled from the spec: [state.UniqueVertex] deduplicates a handle
    through the cache.  A vertex that is in the cache yields the canonical
    handle (which becomes the most recently used); on a miss the handle
    itself is inserted, after the least recently used entry was evicted when
    the cache is full. *)
Definition UniqueVertex (l : ptr) (s : Serializer) : ptr * Serializer :=
  match handles (heap s) !! l with
  | None => (l, s)
  | Some hv =>
      let key := id hv in
      let cache := uniqueVtx (state s) in
      match cacheFind key cache with
      | Some l' => (l', setCache (cacheRemove key cache ++ [(key, l')]) s)
      | None =>
          let s := makeRoom s in
          (l, setCache (uniqueVtx (state s) ++ [(key, l)]) s)
      end
  end.

(** An eviction decided by the cache: the entry of a vertex is dropped and
    its handle told. *)
Definition evictKey (key : ID) (s : Serializer) : Serializer :=
  match cacheFind key (uniqueVtx (state s)) with
  | Some l => Evict l (setCache (cacheRemove key (uniqueVtx (state s))) s)
  | None => s
  end.

(** *** [uniqueVertex] *)

(** The rest of [shallowRefresh], for a handle of vertex [vtxID] whose state
    [c] is not the latest. *)
Definition refreshFromCache (l c : ptr) (vtxID : ID) (s : Serializer) : Serializer :=
  let '(latestVtx, s) := UniqueVertex l s in
  let prevVtx := (cells (heap s) !! c) ≫= vtx in
  let s :=
    if bool_decide (latestVtx = l)
    then
      match cells (heap s) !! c with
      | Some cs => setCell c (withLatest true (withStatus (state_Status s vtxID) cs)) s
      | None => s
      end
    else
      (* *vtx = *latest *)
      match handles (heap s) !! latestVtx with
      | Some lv => setHandle l lv s
      | None => s
      end in
  (* if vtx.v.vtx == nil { vtx.v.vtx = prevVtx } *)
  match handles (heap s) !! l with
  | Some hv =>
      match v hv with
      | Some c =>
          match cells (heap s) !! c with
          | Some cs =>
              match vtx cs with
              | None => setCell c (withVtx prevVtx cs) s
              | Some _ => s
              end
          | None => s
          end
      | None => s
      end
  | None => s
  end.

Definition shallowRefresh (l : ptr) (s : Serializer) : Serializer :=
  match handles (heap s) !! l with
  | None => s
  | Some hv =>
      (* if vtx.v == nil { vtx.v = &vertexState{} } *)
      let '(c, s) :=
        match v hv with
        | Some c => (c, s)
        | None =>
            let '(c, s) := allocCell zeroVertexState s in
            (c, setHandle l {| id := id hv; v := Some c; time := time hv |} s)
        end in
      match cells (heap s) !! c with
      | None => s
      | Some cs => if latest cs then s else refreshFromCache l c (id hv) s
      end
  end.

(** The handle and the state it points to, once it points to one. *)
Definition deref (l : ptr) (s : Serializer) : option (uniqueVertex * ptr * vertexState) :=
  hv ← handles (heap s) !! l;
  c ← v hv;
  cs ← cells (heap s) !! c;
  Some (hv, c, cs).

Definition refresh (l : ptr) (s : Serializer) : Serializer :=
  let s := shallowRefresh l s in
  match deref l s with
  | Some (hv, c, cs) =>
      match vtx cs with
      | None =>
          if Fetched (status cs)
          then setCell c (withVtx (state_Vertex s (id hv)) cs) s
          else s
      | Some _ => s
      end
  | None => s
  end.

Definition Status_ (l : ptr) (s : Serializer) : result Status * Serializer :=
  let s := refresh l s in
  match deref l s with
  | Some (_, _, cs) => (Ok (status cs), s)
  | None => (Panic, s)
  end.

Definition setStatus (l : ptr) (st : Status) (s : Serializer) : result unit * Serializer :=
  let s := shallowRefresh l s in
  match deref l s with
  | Some (hv, c, cs) =>
      if decide (status cs = st) then (Ok tt, s)
      else
        let s := setCell c (withStatus st cs) s in
        match state_SetStatus (id hv) st s with
        | (Some e, s) => (Err e, s)
        | (None, s) => (Ok tt, s)
        end
  | None => (Panic, s)
  end.

(** [&uniqueVertex{serializer: ..., id: parentID}] for each parent. *)
Fixpoint newHandles (ids : list ID) (s : Serializer) : list ptr * Serializer :=
  match ids with
  | [] => ([], s)
  | i :: ids =>
      let '(l, s) := allocHandle {| id := i; v := None; time := None |} s in
      let '(ls, s) := newHandles ids s in
      (l :: ls, s)
  end.

Definition Parents (l : ptr) (s : Serializer) : result (list ptr) * Serializer :=
  let s := refresh l s in
  match deref l s with
  | Some (hv, c, cs) =>
      match vtx cs with
      | None => (Err (errFailedParents (status cs)), s)
      | Some sv =>
          let parentIDs := svParentIDs sv in
          if bool_decide (length (parents cs) <> length parentIDs)
          then
            let '(ps, s) := newHandles parentIDs s in
            match cells (heap s) !! c with
            | Some cs => (Ok ps, setCell c (withParents ps cs) s)
            | None => (Panic, s)
            end
          else (Ok (parents cs), s)
      end
  | None => (Panic, s)
  end.

(** The loop of [Txs]: the slice [vtx.v.txs] has been replaced by one of nil
    entries, which are filled in until a transaction fails to parse. *)
Fixpoint parseInto (parse : list Byte.byte -> result Tx) (txBytes : list (list Byte.byte))
    (done : list (option Tx)) : result unit * list (option Tx) :=
  match txBytes with
  | [] => (Ok tt, done)
  | b :: rest =>
      match parse b with
      | Ok tx => parseInto parse rest (done ++ [Some tx])
      | Err e => (Err e, done ++ replicate (S (length rest)) None)
      | Panic => (Panic, done ++ replicate (S (length rest)) None)
      end
  end.

Definition Txs (l : ptr) (s : Serializer) : result (list (option Tx)) * Serializer :=
  let s := refresh l s in
  match deref l s with
  | Some (hv, c, cs) =>
      match vtx cs with
      | None => (Err (errFailedTxs (status cs)), s)
      | Some sv =>
          if bool_decide (length (svTxs sv) <> length (txs cs))
          then
            match parseInto (ParseTx s) (svTxs sv) [] with
            | (Ok _, ts) => (Ok ts, setCell c (withTxs ts cs) s)
            | (Err e, ts) => (Err e, setCell c (withTxs ts cs) s)
            | (Panic, ts) => (Panic, setCell c (withTxs ts cs) s)
            end
          else (Ok (txs cs), s)
      end
  | None => (Panic, s)
  end.

(** The identifiers of handles, as [parent.ID()] reads them. *)
Definition idOf (s : Serializer) (l : ptr) : ID :=
  match handles (heap s) !! l with
  | Some hv => id hv
  | None => 0%N
  end.

Definition clearParents (l : ptr) (s : Serializer) : result unit * Serializer :=
  match deref l s with
  | Some (_, c, cs) => (Ok tt, setCell c (withParents [] cs) s)
  | None => (Panic, s)
  end.

(** [Accept], once the status is set: the frontier is updated and
    persisted, and the database committed. *)
Definition acceptFrontier (l : ptr) (s : Serializer) : result unit * Serializer :=
  let s := setEdgeSet ({[ idOf s l ]} ∪ edge s) s in
  match Parents l s with
  | (Ok ps, s) =>
      let s := foldl (fun s p => setEdgeSet (edge s ∖ {[ idOf s p ]}) s) s ps in
      match state_SetEdge (Edge s) s with
      | (Some e, s) => (Err (errSetEdge (idOf s l) e), s)
      | (None, s) =>
          match clearParents l s with
          | (Ok _, s) =>
              match Commit s with
              | (Some e, s) => (Err e, s)
              | (None, s) => (Ok tt, s)
              end
          | (Err e, s) => (Err e, s)
          | (Panic, s) => (Panic, s)
          end
      end
  | (Err e, s) => (Err e, s)
  | (Panic, s) => (Panic, s)
  end.

Definition Accept (l : ptr) (s : Serializer) : result unit * Serializer :=
  match setStatus l Accepted s with
  | (Ok _, s) => acceptFrontier l s
  | (Err e, s) => (Err e, s)
  | (Panic, s) => (Panic, s)
  end.

Definition Reject (l : ptr) (s : Serializer) : result unit * Serializer :=
  match setStatus l Rejected s with
  | (Ok _, s) =>
      match clearParents l s with
      | (Ok _, s) =>
          match Commit s with
          | (Some e, s) => (Err e, s)
          | (None, s) => (Ok tt, s)
          end
      | (Err e, s) => (Err e, s)
      | (Panic, s) => (Panic, s)
      end
  | (Err e, s) => (Err e, s)
  | (Panic, s) => (Panic, s)
  end.

(** Modelled from the spec: [Serializer.getUniqueVertex] is not among the
    sources; it makes a handle for the identifier and fails for a vertex
    whose status is [Unknown]. *)
Definition getUniqueVertex (vtxID : ID) (s : Serializer) : result ptr * Serializer :=
  let '(l, s) := allocHandle {| id := vtxID; v := None; time := None |} s in
  match Status_ l s with
  | (Ok st, s) =>
      if decide (st = Unknown) then (Err errUnknownVertex, s) else (Ok l, s)
  | (Err e, s) => (Err e, s)
  | (Panic, s) => (Panic, s)
  end.

(** *** [Verify] *)

(** The loop over the accepted frontier: no stop vertex must be on it. *)
Fixpoint checkEdges (edgeIDs : list ID) (s : Serializer) : result unit * Serializer :=
  match edgeIDs with
  | [] => (Ok tt, s)
  | i :: rest =>
      match getUniqueVertex i s with
      | (Ok edgeVtx, s) =>
          match deref edgeVtx s with
          | Some (_, _, cs) =>
              match vtx cs with
              | Some sv =>
                  if svStopVertex sv then (Err errStopVertexAlreadyAccepted, s)
                  else checkEdges rest s
              | None => (Panic, s)
              end
          | None => (Panic, s)
          end
      | (Err e, s) => (Err e, s)
      | (Panic, s) => (Panic, s)
      end
  end.

(** The sets the search of [Verify] builds. *)
Record searched := mkSearched {
  visitedVtx : gset N;
  acceptedFrontier : gset N;
  transitivePaths : gset N;
  dependencies : gset N
}.

(** [for _, dep := range deps]: only the dependencies that are not accepted. *)
Definition pendingDeps (deps : list Dep) : gset N :=
  list_to_set (depID <$> filter (fun d => depStatus d <> Accepted) deps).

(** [for _, tx := range txs] *)
Fixpoint scanTxs (ts : list (option Tx)) (paths deps : gset N) : result (gset N * gset N) :=
  match ts with
  | [] => Ok (paths, deps)
  | None :: _ => Panic
  | Some tx :: rest =>
      let paths := {[ txID tx ]} ∪ paths in
      match txDependencies tx with
      | Ok ds => scanTxs rest paths (pendingDeps ds ∪ deps)
      | Err e => Err e
      | Panic => Panic
      end
  end.

(** [for len(queue) > 0], for at most [fuel] rounds; [None] when the rounds
    are used up. *)
Fixpoint search (fuel : nat) (queue : list ptr) (acc : searched) (s : Serializer)
  : option (result searched * Serializer) :=
  match fuel with
  | O => None
  | S fuel =>
      match queue with
      | [] => Some (Ok acc, s)
      | cur :: queue =>
          let curID := idOf s cur in
          match Status_ cur s with
          | (Ok st, s) =>
              if decide (st = Accepted)
              then search fuel queue
                     {| visitedVtx := visitedVtx acc;
                        acceptedFrontier := {[ curID ]} ∪ acceptedFrontier acc;
                        transitivePaths := transitivePaths acc;
                        dependencies := dependencies acc |} s
              else if decide (curID ∈ visitedVtx acc)
              then search fuel queue acc s
              else
                let visited := {[ curID ]} ∪ visitedVtx acc in
                let paths := {[ curID ]} ∪ transitivePaths acc in
                match Txs cur s with
                | (Ok ts, s) =>
                    match scanTxs ts paths (dependencies acc) with
                    | Ok (paths, deps) =>
                        match Parents cur s with
                        | (Ok ps, s) =>
                            search fuel (queue ++ ps)
                              {| visitedVtx := visited;
                                 acceptedFrontier := acceptedFrontier acc;
                                 transitivePaths := paths;
                                 dependencies := deps |} s
                        | (Err e, s) => Some (Err e, s)
                        | (Panic, s) => Some (Panic, s)
                        end
                    | Err e => Some (Err e, s)
                    | Panic => Some (Panic, s)
                    end
                | (Err e, s) => Some (Err e, s)
                | (Panic, s) => Some (Panic, s)
                end
          | (Err e, s) => Some (Err e, s)
          | (Panic, s) => Some (Panic, s)
          end
      end
  end.

(** Go leaves the order of a [range] over a set unspecified. *)
Definition rangeOrder : Type := gset N -> list ID.

Definition range_ok (range : rangeOrder) : Prop :=
  forall X, range X ≡ₚ elements X.

(** [Verify], with the wall clock reading [now] and the order in which the
    runtime ranges over the accepted frontier. *)
Definition Verify (range : rangeOrder) (now : Z) (fuel : nat) (l : ptr) (s : Serializer)
  : option (result unit * Serializer) :=
  match deref l s with
  | None => Some (Panic, s)
  | Some (hv, _, cs) =>
      match vtx cs with
      | None => Some (Panic, s)
      | Some sv =>
          (* first verify the underlying stateless vertex *)
          match svVerify sv with
          | Some e => Some (Err e, s)
          | None =>
              let whitelistVtx := svStopVertex sv in
              let now := match time hv with Some t => t | None => now end in
              if whitelistVtx && (now <? XChainMigrationTime s)
              then Some (Err errStopVertexNotAllowedTimestamp, s)
              else
                let acceptedEdges : gset N := list_to_set (Edge s) in
                match checkEdges (range acceptedEdges) s with
                | (Ok _, s) =>
                    if negb whitelistVtx then Some (Ok tt, s)
                    else
                      match search fuel [l]
                              {| visitedVtx := ∅; acceptedFrontier := ∅;
                                 transitivePaths := ∅; dependencies := ∅ |} s with
                      | None => None
                      | Some (Ok acc, s) =>
                          if negb (bool_decide (acceptedFrontier acc = acceptedEdges))
                          then Some (Err errUnexpectedEdges, s)
                          else
                            let prev := size (transitivePaths acc) in
                            if negb (Nat.eqb prev
                                       (size (transitivePaths acc ∪ dependencies acc)))
                            then Some (Err errUnexpectedDependencyStopVtx, s)
                            else Some (Ok tt, s)
                      | Some (Err e, s) => Some (Err e, s)
                      | Some (Panic, s) => Some (Panic, s)
                      end
                | (Err e, s) => Some (Err e, s)
                | (Panic, s) => Some (Panic, s)
                end
          end
      end
  end.

End AvalancheState.
(** * Properties *)

(** ** Machine integers *)

Module U64Facts.
Import U64.

Lemma wrap_in_range z : in_range (wrap z).
Proof.
  unfold in_range, wrap, modulus, MaxUint64.
  pose proof (Z.mod_pos_bound z (18446744073709551615 + 1)). lia.
Qed.

Lemma wrap_small z : in_range z -> wrap z = z.
Proof.
  unfold in_range, wrap, modulus, MaxUint64. intros H.
  apply Z.mod_small. lia.
Qed.

End U64Facts.

(** ** The weight tracker *)

Module TrackerFacts.
Import SafeMath Tracker.

Lemma GetWeight_Some b n w : b !! n = Some w -> GetWeight b n = (w, true).
Proof. unfold GetWeight. intros ->. reflexivity. Qed.

Lemma GetWeight_None b n : b !! n = None -> GetWeight b n = (0, false).
Proof. unfold GetWeight. intros ->. reflexivity. Qed.

(** [AddWeightForNode] never touches the beacon set or the threshold. *)
Lemma Add_frame wt n :
  beacons (fst (AddWeightForNode wt n)) = beacons wt /\
  startupAlpha (fst (AddWeightForNode wt n)) = startupAlpha wt.
Proof.
  unfold AddWeightForNode.
  destruct (enoughConnectedWeight wt); [done|].
  destruct (GetWeight (beacons wt) n) as [w ok].
  destruct ok; simpl; [|done].
  unfold Add64. destruct (w >? U64.MaxUint64 - weight wt); [done|].
  simpl. destruct (w + weight wt >=? startupAlpha wt); done.
Qed.


Lemma Add_keeps_flag wt n :
  enoughConnectedWeight wt = true -> fst (AddWeightForNode wt n) = wt.
Proof. intros H. unfold AddWeightForNode. rewrite H. reflexivity. Qed.




(** A tracker for one beacon of weight 5 and threshold 5, after that beacon
    connected and disconnected again. *)
Definition one_beacon : weightTracker := NewWeightTracker {[ 1%N := 5 ]} 5.
Definition flapped : weightTracker := run one_beacon [CallAdd 1%N; CallRemove 1%N].

Lemma flapped_state :
  enoughConnectedWeight flapped = true /\ weight flapped = 0 /\ startupAlpha flapped = 5.
Proof. vm_compute. done. Qed.

(** *** The connected beacon weight *)






















Lemma Remove_no_error wt n : snd (RemoveWeightForNode wt n) = None.
Proof.
  unfold RemoveWeightForNode.
  destruct (GetWeight (beacons wt) n) as [w ok]. destruct ok; reflexivity.
Qed.

Lemma Remove_weight wt n w :
  beacons wt !! n = Some w ->
  weight (fst (RemoveWeightForNode wt n)) = if weight wt <? w then 0 else weight wt - w.
Proof.
  intros Hb. unfold RemoveWeightForNode. rewrite (GetWeight_Some _ _ _ Hb).
  simpl. unfold Sub64. destruct (weight wt <? w); reflexivity.
Qed.

Lemma Remove_not_beacon wt n :
  beacons wt !! n = None -> fst (RemoveWeightForNode wt n) = wt.
Proof.
  intros Hb. unfold RemoveWeightForNode. rewrite (GetWeight_None _ _ Hb).
  reflexivity.
Qed.

Lemma Remove_well_typed wt n :
  well_typed wt -> well_typed (fst (RemoveWeightForNode wt n)).
Proof.
  intros (Ha & Hw & Hb).
  destruct (beacons wt !! n) as [w|] eqn:Hn.
  - pose proof (Hb _ _ Hn) as Hwr.
    unfold RemoveWeightForNode. rewrite (GetWeight_Some _ _ _ Hn).
    unfold Sub64, well_typed, U64.in_range in *.
    destruct (Z.ltb_spec (weight wt) w); simpl;
      (split; [lia|split; [lia|exact Hb]]).
  - rewrite (Remove_not_beacon _ _ Hn). done.
Qed.

(** C8.  [RemoveWeightForNode] never returns an error, and the tracked weight
    saturates at 0: for a beacon whose weight exceeds the tracked weight the
    tracked weight becomes 0, otherwise it is decreased by the beacon's weight;
    a node that is not a beacon leaves the tracker as it is; and the tracked
    weight stays a [uint64] (no wrap-around below 0). *)
Theorem RemoveWeightForNode_saturates wt nodeID :
  snd (RemoveWeightForNode wt nodeID) = None /\
  (forall w, beacons wt !! nodeID = Some w -> weight wt < w ->
             weight (fst (RemoveWeightForNode wt nodeID)) = 0) /\
  (forall w, beacons wt !! nodeID = Some w -> w <= weight wt ->
             weight (fst (RemoveWeightForNode wt nodeID)) = weight wt - w) /\
  (beacons wt !! nodeID = None -> fst (RemoveWeightForNode wt nodeID) = wt) /\
  (well_typed wt -> well_typed (fst (RemoveWeightForNode wt nodeID))).
Proof.
  split; [apply Remove_no_error|].
  split; [|split; [|split]].
  - intros w Hb Hlt. rewrite (Remove_weight _ _ _ Hb).
    destruct (Z.ltb_spec (weight wt) w); [reflexivity|lia].
  - intros w Hb Hle. rewrite (Remove_weight _ _ _ Hb).
    destruct (Z.ltb_spec (weight wt) w); [lia|reflexivity].
  - apply Remove_not_beacon.
  - apply Remove_well_typed.
Qed.

(** A tracker that holds weight 3 while the beacon set gives node 1 the weight
    5 (the set changed after the node connected). *)
Definition shrunk : weightTracker :=
  {| beacons := {[ 1%N := 5 ]}; startupAlpha := 4; weight := 3;
     enoughConnectedWeight := false |}.

Lemma RemoveWeightForNode_saturates_witness :
  weight (fst (RemoveWeightForNode shrunk 1%N)) = 0.
Proof.
  apply (proj1 (proj2 (RemoveWeightForNode_saturates shrunk 1%N)) 5).
  - vm_compute. reflexivity.
  - vm_compute. reflexivity.
Defined.

End TrackerFacts.

(** ** The tracked weight and the threshold *)

Module TrackerInvariant.
Import SafeMath Tracker TrackerFacts.

(** The weights of a beacon set are [uint64]s. *)
Definition weights_ok (b : gmap N Z) : Prop :=
  forall n w, b !! n = Some w -> U64.in_range w.

(** A call that changes the beacon set installs weights that are [uint64]s. *)
Definition call_ok (c : call) : Prop :=
  match c with
  | BeaconsChanged b => weights_ok b
  | _ => True
  end.

(** While the flag is unset the tracked weight is below the threshold. *)
Definition below (wt : weightTracker) : Prop :=
  weights_ok (beacons wt) /\ 0 <= weight wt /\
  (enoughConnectedWeight wt = false -> weight wt < startupAlpha wt).

Lemma below_step wt c : call_ok c -> below wt -> below (step wt c).
Proof.
  intros Hc Hbelow. pose proof Hbelow as (Hb & Hw & Hlt).
  destruct c as [n|n|b]; simpl.
  - unfold AddWeightForNode.
    destruct (enoughConnectedWeight wt) eqn:Hflag; [exact Hbelow|].
    destruct (beacons wt !! n) as [w|] eqn:Hn.
    + rewrite (GetWeight_Some _ _ _ Hn). simpl. unfold Add64.
      pose proof (Hb _ _ Hn) as Hwr. unfold U64.in_range in Hwr.
      destruct (Z.gtb_spec w (U64.MaxUint64 - weight wt)); simpl; [exact Hbelow|].
      destruct (Z.geb_spec (w + weight wt) (startupAlpha wt)); simpl.
      * split; [exact Hb|]. simpl. split; [lia|discriminate].
      * split; [exact Hb|]. simpl. split; [lia|]. intros _. lia.
    + rewrite (GetWeight_None _ _ Hn). simpl. exact Hbelow.
  - unfold RemoveWeightForNode.
    destruct (beacons wt !! n) as [w|] eqn:Hn.
    + rewrite (GetWeight_Some _ _ _ Hn). simpl. unfold Sub64.
      pose proof (Hb _ _ Hn) as Hwr. unfold U64.in_range in Hwr.
      destruct (Z.ltb_spec (weight wt) w); simpl.
      * split; [exact Hb|]. simpl. split; [lia|]. intros Hf. specialize (Hlt Hf). lia.
      * split; [exact Hb|]. simpl. split; [lia|]. intros Hf. specialize (Hlt Hf). lia.
    + rewrite (GetWeight_None _ _ Hn). simpl. exact Hbelow.
  - split; [exact Hc|]. split; [exact Hw|exact Hlt].
Qed.

Lemma below_run cs : forall wt, Forall call_ok cs -> below wt -> below (run wt cs).
Proof.
  unfold run. induction cs as [|c cs IH]; intros wt Hcs Hwt; simpl; [exact Hwt|].
  apply Forall_cons in Hcs as [Hc Hcs]. apply IH; [exact Hcs|].
  apply below_step; assumption.
Qed.

Lemma run_startupAlpha cs : forall wt, startupAlpha (run wt cs) = startupAlpha wt.
Proof.
  unfold run. induction cs as [|c cs IH]; intros wt; simpl; [reflexivity|].
  rewrite IH. destruct c as [n|n|b]; simpl.
  - apply Add_frame.
  - unfold RemoveWeightForNode. destruct (GetWeight (beacons wt) n) as [w [|]]; reflexivity.
  - reflexivity.
Qed.

(** X1.  Whatever nodes connect and disconnect after a tracker with a positive
    threshold was made: as long as [EnoughConnectedWeight] is false, the
    tracked weight is below [startupAlpha]. *)
Theorem unset_flag_below_alpha b alpha cs :
  0 < alpha -> weights_ok b -> Forall call_ok cs ->
  EnoughConnectedWeight (run (NewWeightTracker b alpha) cs) = false ->
  0 <= weight (run (NewWeightTracker b alpha) cs) < alpha.
Proof.
  intros Halpha Hb Hcs Hflag.
  destruct (below_run cs (NewWeightTracker b alpha) Hcs) as (_ & Hw & Hlt).
  { split; [exact Hb|]. simpl. split; [lia|]. intros _. exact Halpha. }
  specialize (Hlt Hflag). rewrite run_startupAlpha in Hlt. simpl in Hlt. lia.
Qed.

(** X2.  [AddWeightForNode] returns an error exactly when the flag is unset, the
    node is a beacon, and its weight added to the tracked weight exceeds the
    largest [uint64]; the tracker is then left as it is. *)
Theorem AddWeightForNode_overflow wt nodeID :
  (snd (AddWeightForNode wt nodeID) <> None <->
   enoughConnectedWeight wt = false /\
   exists w, beacons wt !! nodeID = Some w /\ U64.MaxUint64 < w + weight wt) /\
  (snd (AddWeightForNode wt nodeID) <> None -> fst (AddWeightForNode wt nodeID) = wt).
Proof.
  unfold AddWeightForNode.
  destruct (enoughConnectedWeight wt) eqn:Hflag; simpl.
  { split; [|done]. split; [done|]. intros [? _]. discriminate. }
  destruct (beacons wt !! nodeID) as [w|] eqn:Hn.
  - rewrite (GetWeight_Some _ _ _ Hn). simpl. unfold Add64.
    destruct (Z.gtb_spec w (U64.MaxUint64 - weight wt)); simpl.
    + split; [|done]. split; [|done]. intros _. split; [done|]. exists w. split; [done|lia].
    + destruct (w + weight wt >=? startupAlpha wt); simpl;
        (split; [|done]; split; [done|]; intros (_ & w' & [= <-] & Hov); lia).
  - rewrite (GetWeight_None _ _ Hn). simpl.
    split; [|done]. split; [done|]. intros (_ & w' & [=] & _).
Qed.

(** X3.  A beacon that connects and disconnects again: while the flag is unset
    (and the sum does not overflow) the tracked weight is what it was; once
    the flag is set, connecting adds nothing and disconnecting still
    subtracts the beacon's weight, down to 0. *)
Theorem connect_then_disconnect wt nodeID w :
  beacons wt !! nodeID = Some w -> 0 <= w -> 0 <= weight wt ->
  let wt' := run wt [CallAdd nodeID; CallRemove nodeID] in
  (enoughConnectedWeight wt = false -> w + weight wt <= U64.MaxUint64 ->
   weight wt' = weight wt) /\
  (enoughConnectedWeight wt = true ->
   weight wt' = if weight wt <? w then 0 else weight wt - w).
Proof.
  intros Hn Hw Hwt. cbv zeta. unfold run. simpl.
  pose proof (Add_frame wt nodeID) as [Hb _].
  assert (Hn' : beacons (fst (AddWeightForNode wt nodeID)) !! nodeID = Some w)
    by (rewrite Hb; exact Hn).
  rewrite (Remove_weight _ _ _ Hn'). split.
  - intros Hflag Hfit. unfold AddWeightForNode. rewrite Hflag, (GetWeight_Some _ _ _ Hn).
    simpl. unfold Add64.
    destruct (Z.gtb_spec w (U64.MaxUint64 - weight wt)); [lia|]. simpl.
    destruct (w + weight wt >=? startupAlpha wt); simpl;
      (destruct (Z.ltb_spec (w + weight wt) w); lia).
  - intros Hflag. rewrite (Add_keeps_flag _ _ Hflag). reflexivity.
Qed.

(** Beacons of weights 3 and 4, threshold 10. *)
Definition twoBeacons : gmap N Z := <[1%N := 3]> (<[2%N := 4]> ∅).

Lemma twoBeacons_ok : weights_ok twoBeacons.
Proof.
  intros n w. unfold twoBeacons. unfold U64.in_range, U64.MaxUint64.
  destruct (decide (n = 1%N)) as [->|H1].
  - rewrite lookup_insert_eq. intros [= <-]. lia.
  - rewrite lookup_insert_ne by done. destruct (decide (n = 2%N)) as [->|H2].
    + rewrite lookup_insert_eq. intros [= <-]. lia.
    + rewrite lookup_insert_ne by done. rewrite lookup_empty. discriminate.
Qed.

Lemma unset_flag_below_alpha_witness :
  0 <= weight (run (NewWeightTracker twoBeacons 10) [CallAdd 1%N; CallAdd 2%N; CallRemove 1%N])
    < 10.
Proof.
  apply (unset_flag_below_alpha twoBeacons 10 [CallAdd 1%N; CallAdd 2%N; CallRemove 1%N]).
  - lia.
  - exact twoBeacons_ok.
  - repeat constructor.
  - vm_compute. reflexivity.
Defined.

Lemma connect_then_disconnect_witness :
  let wt := NewWeightTracker twoBeacons 10 in
  let wt' := run wt [CallAdd 1%N; CallRemove 1%N] in
  (enoughConnectedWeight wt = false -> 3 + weight wt <= U64.MaxUint64 ->
   weight wt' = weight wt) /\
  (enoughConnectedWeight wt = true ->
   weight wt' = if weight wt <? 3 then 0 else weight wt - 3).
Proof.
  apply (connect_then_disconnect (NewWeightTracker twoBeacons 10) 1%N 3).
  - vm_compute. reflexivity.
  - lia.
  - simpl. lia.
Defined.

End TrackerInvariant.

(** ** The outbound message throttler *)

Module ThrottlingFacts.
Import SafeMath Throttling U64Facts.

Lemma sub_small a b : 0 <= b <= a -> a <= U64.MaxUint64 -> U64.sub a b = a - b.
Proof. intros. unfold U64.sub. apply wrap_small. unfold U64.in_range. lia. Qed.

Lemma add_small a b : 0 <= a -> 0 <= b -> a + b <= U64.MaxUint64 -> U64.add a b = a + b.
Proof. intros. unfold U64.add. apply wrap_small. unfold U64.in_range. lia. Qed.

Lemma sub_nonneg a b : 0 <= U64.sub a b.
Proof. unfold U64.sub. apply wrap_in_range. Qed.

Lemma Min64_1 a b : Min64 a [b] = Z.min a b.
Proof. reflexivity. Qed.

Lemma Min64_2 a b c : Min64 a [b; c] = Z.min (Z.min a b) c.
Proof. reflexivity. Qed.

(** *** Sums over usage maps *)

Lemma usedTotal_empty : usedTotal ∅ = 0.
Proof. unfold usedTotal. apply map_fold_empty. Qed.

Lemma usedTotal_insert_fresh (m : gmap N Z) k v :
  m !! k = None -> usedTotal (<[k:=v]> m) = v + usedTotal m.
Proof.
  intros Hk. unfold usedTotal.
  apply (map_fold_insert_L (fun _ v acc => v + acc)); [|exact Hk].
  intros. lia.
Qed.

Lemma usedTotal_lookup (m : gmap N Z) k x :
  m !! k = Some x -> usedTotal m = x + usedTotal (delete k m).
Proof.
  intros Hk. unfold usedTotal.
  apply (map_fold_delete_L (fun _ v acc => v + acc)); [|exact Hk].
  intros. lia.
Qed.

Lemma usedTotal_delete (m : gmap N Z) k :
  usedTotal (delete k m) = usedTotal m - used m k.
Proof.
  unfold used. destruct (m !! k) as [x|] eqn:Hk; simpl.
  - rewrite (usedTotal_lookup m k x Hk). lia.
  - rewrite delete_id by exact Hk. lia.
Qed.

Lemma usedTotal_insert (m : gmap N Z) k v :
  usedTotal (<[k:=v]> m) = usedTotal m - used m k + v.
Proof.
  rewrite <- insert_delete_eq.
  rewrite usedTotal_insert_fresh by apply lookup_delete_eq.
  rewrite usedTotal_delete. lia.
Qed.

Definition nonneg (m : gmap N Z) : Prop := forall n v, m !! n = Some v -> 0 <= v.

Lemma nonneg_delete m k : nonneg m -> nonneg (delete k m).
Proof.
  intros H n v Hn. apply lookup_delete_Some in Hn as [_ Hn]. exact (H _ _ Hn).
Qed.

Lemma usedTotal_nonneg (m : gmap N Z) : nonneg m -> 0 <= usedTotal m.
Proof.
  induction m as [|k x m Hk IH] using map_ind; intros Hm.
  - rewrite usedTotal_empty. lia.
  - rewrite usedTotal_insert_fresh by exact Hk.
    assert (0 <= x) by (apply (Hm k); apply lookup_insert_eq).
    assert (0 <= usedTotal m).
    { apply IH. intros n v Hn. apply (Hm n).
      rewrite lookup_insert_ne; [exact Hn|]. intros ->. congruence. }
    lia.
Qed.

Lemma used_le_total (m : gmap N Z) k : nonneg m -> 0 <= used m k <= usedTotal m.
Proof.
  intros Hm. pose proof (usedTotal_nonneg m Hm) as Ht.
  unfold used. destruct (m !! k) as [x|] eqn:Hk; simpl; [|lia].
  pose proof (Hm _ _ Hk).
  rewrite (usedTotal_lookup m k x Hk).
  pose proof (usedTotal_nonneg _ (nonneg_delete m k Hm)). lia.
Qed.

Lemma used_insert_eq (m : gmap N Z) k v : used (<[k:=v]> m) k = v.
Proof. unfold used. rewrite lookup_insert_eq. reflexivity. Qed.

Lemma used_insert_ne (m : gmap N Z) k k' v : k <> k' -> used (<[k:=v]> m) k' = used m k'.
Proof. intros. unfold used. rewrite lookup_insert_ne by done. reflexivity. Qed.

(** *** [giveBack] *)

Lemma giveBack_used_eq m k x :
  0 <= x <= used m k -> used m k <= U64.MaxUint64 ->
  used (giveBack m k x) k = used m k - x.
Proof.
  intros Hx Hmax. unfold giveBack. rewrite used_insert_eq.
  rewrite sub_small by lia.
  destruct (Z.eqb_spec (used m k - x) 0) as [H0|H0].
  - unfold used at 1. rewrite lookup_delete_eq. simpl. lia.
  - apply used_insert_eq.
Qed.

Lemma giveBack_used_ne m k k' x : k <> k' -> used (giveBack m k x) k' = used m k'.
Proof.
  intros Hne. unfold giveBack.
  destruct (used (<[k:=U64.sub (used m k) x]> m) k =? 0).
  - unfold used at 1. rewrite lookup_delete_ne by done.
    fold (used (<[k:=U64.sub (used m k) x]> m) k'). apply used_insert_ne, Hne.
  - apply used_insert_ne, Hne.
Qed.

Lemma giveBack_total m k x :
  0 <= x <= used m k -> used m k <= U64.MaxUint64 ->
  usedTotal (giveBack m k x) = usedTotal m - x.
Proof.
  intros Hx Hmax. unfold giveBack. rewrite used_insert_eq.
  rewrite sub_small by lia.
  destruct (Z.eqb_spec (used m k - x) 0) as [H0|H0].
  - rewrite usedTotal_delete, usedTotal_insert, used_insert_eq. lia.
  - rewrite usedTotal_insert. lia.
Qed.

Lemma giveBack_in_range m k x :
  (forall n v, m !! n = Some v -> U64.in_range v) ->
  forall n v, giveBack m k x !! n = Some v -> U64.in_range v.
Proof.
  intros Hm n v. unfold giveBack.
  destruct (used (<[k:=U64.sub (used m k) x]> m) k =? 0).
  - intros H. apply lookup_delete_Some in H as [Hne H].
    rewrite lookup_insert_ne in H by done. exact (Hm _ _ H).
  - destruct (decide (k = n)) as [->|Hne].
    + rewrite lookup_insert_eq. intros [= <-]. apply wrap_in_range.
    + rewrite lookup_insert_ne by done. apply Hm.
Qed.

(** A released entry that reaches 0 is deleted from the map. *)
Lemma giveBack_all m k :
  0 <= used m k <= U64.MaxUint64 -> giveBack m k (used m k) !! k = None.
Proof.
  intros H. unfold giveBack. rewrite used_insert_eq.
  rewrite sub_small by lia. rewrite Z.sub_diag. simpl.
  apply lookup_delete_eq.
Qed.

(** *** [Acquire] *)

Section Throttler.
Variable alloc : Z -> Z -> Z -> Z.

Lemma atLarge_bounds t msg nodeID :
  well_typed t -> sized msg ->
  0 <= atLargeBytesUsed t msg nodeID <= msgSize msg /\
  atLargeBytesUsed t msg nodeID <= remainingAtLargeBytes t.
Proof.
  intros (_ & _ & Hal & _) Hn. unfold atLargeBytesUsed. rewrite Min64_2.
  pose proof (sub_nonneg (nodeMaxAtLargeBytes t) (used (nodeToAtLargeBytesUsed t) nodeID)).
  unfold sized, U64.in_range in *. lia.
Qed.

Lemma vdrBytesAllowed_nonneg t nodeID : 0 <= vdrBytesAllowed alloc t nodeID.
Proof.
  unfold vdrBytesAllowed.
  destruct (used (nodeToVdrBytesUsed t) nodeID >=? vdrAllocationSize alloc t nodeID);
    [lia|apply sub_nonneg].
Qed.

Lemma vdr_bounds t msg nodeID :
  well_typed t -> sized msg ->
  0 <= vdrBytesUsed alloc t msg nodeID <= remainingVdrBytes t /\
  vdrBytesUsed alloc t msg nodeID <= msgSize msg - atLargeBytesUsed t msg nodeID.
Proof.
  intros Hwt Hn. pose proof (atLarge_bounds t msg nodeID Hwt Hn) as Ha.
  destruct Hwt as (_ & Hv & _).
  unfold vdrBytesUsed. rewrite Min64_2.
  pose proof (vdrBytesAllowed_nonneg t nodeID).
  unfold sized, U64.in_range in *.
  rewrite sub_small by lia. lia.
Qed.

(** A failed [Acquire] only counts the failure. *)
Lemma Acquire_false t msg nodeID t' :
  Acquire alloc t msg nodeID = (false, t') ->
  BypassThrottling msg = false /\
  t' = with_metrics t (incAcquireFailures (metrics t)).
Proof.
  unfold Acquire. destruct (BypassThrottling msg); [discriminate|].
  cbv zeta.
  destruct (negb _); [|discriminate].
  intros [= <-]. done.
Qed.

(** What a successful [Acquire] of a throttled message takes, and where from. *)
Lemma Acquire_true t msg nodeID t1 :
  well_typed t -> sized msg -> BypassThrottling msg = false ->
  Acquire alloc t msg nodeID = (true, t1) ->
  let a := atLargeBytesUsed t msg nodeID in
  let v := vdrBytesUsed alloc t msg nodeID in
  a + v = msgSize msg /\
  remainingAtLargeBytes t1 = remainingAtLargeBytes t - a /\
  remainingVdrBytes t1 = remainingVdrBytes t - v /\
  nodeToAtLargeBytesUsed t1 =
    (if a >? 0
     then <[nodeID := U64.add (used (nodeToAtLargeBytesUsed t) nodeID) a]> (nodeToAtLargeBytesUsed t)
     else nodeToAtLargeBytesUsed t) /\
  nodeToVdrBytesUsed t1 =
    (if v >? 0
     then <[nodeID := U64.add (used (nodeToVdrBytesUsed t) nodeID) v]> (nodeToVdrBytesUsed t)
     else nodeToVdrBytesUsed t) /\
  validators t1 = validators t /\ maxVdrBytes t1 = maxVdrBytes t /\
  nodeMaxAtLargeBytes t1 = nodeMaxAtLargeBytes t.
Proof.
  intros Hwt Hn Hby. unfold Acquire. rewrite Hby. cbv zeta.
  pose proof (atLarge_bounds t msg nodeID Hwt Hn) as Ha.
  pose proof (vdr_bounds t msg nodeID Hwt Hn) as Hv.
  destruct Hwt as (_ & Hrv & Hra & _).
  unfold sized, U64.in_range in *.
  rewrite (sub_small (msgSize msg)) by lia.
  rewrite (sub_small (msgSize msg - _)) by lia.
  destruct (Z.eqb_spec (msgSize msg - atLargeBytesUsed t msg nodeID
                        - vdrBytesUsed alloc t msg nodeID) 0) as [H0|H0];
    simpl; [|discriminate].
  destruct (atLargeBytesUsed t msg nodeID >? 0) eqn:Hapos;
  destruct (vdrBytesUsed alloc t msg nodeID >? 0) eqn:Hvpos;
    intros [= <-]; simpl; rewrite ?sub_small by lia;
    repeat split; try reflexivity; lia.
Qed.

Lemma well_typed_nonneg t :
  well_typed t -> nonneg (nodeToVdrBytesUsed t) /\ nonneg (nodeToAtLargeBytesUsed t).
Proof.
  intros (_ & _ & _ & _ & Hv & Ha). split; intros n v Hn.
  - apply Hv in Hn. unfold U64.in_range in Hn. lia.
  - apply Ha in Hn. unfold U64.in_range in Hn. lia.
Qed.

Lemma insert_in_range (m : gmap N Z) k x :
  (forall n v, m !! n = Some v -> U64.in_range v) -> U64.in_range x ->
  forall n v, <[k:=x]> m !! n = Some v -> U64.in_range v.
Proof.
  intros Hm Hx n v. destruct (decide (k = n)) as [->|Hne].
  - rewrite lookup_insert_eq. intros [= <-]. exact Hx.
  - rewrite lookup_insert_ne by done. apply Hm.
Qed.

(** [Acquire] keeps every quantity a [uint64]. *)
Lemma Acquire_well_typed t msg nodeID :
  well_typed t -> sized msg -> well_typed (snd (Acquire alloc t msg nodeID)).
Proof.
  intros Hwt Hn.
  destruct (Acquire alloc t msg nodeID) as [b t1] eqn:HA. simpl.
  destruct (BypassThrottling msg) eqn:Hby.
  { unfold Acquire in HA. rewrite Hby in HA. injection HA as _ <-. exact Hwt. }
  destruct b.
  - pose proof (atLarge_bounds t msg nodeID Hwt Hn) as Ha.
    pose proof (vdr_bounds t msg nodeID Hwt Hn) as Hv.
    destruct (Acquire_true t msg nodeID t1 Hwt Hn Hby HA)
      as (Hsum & HrA & HrV & HmA & HmV & _ & Hmax & Hnm).
    destruct Hwt as (H1 & H2 & H3 & H4 & H5 & H6).
    unfold well_typed. rewrite HrA, HrV, Hmax, Hnm.
    unfold U64.in_range in H2, H3.
    repeat (split; [first [assumption | unfold U64.in_range; lia]|]).
    split.
    + rewrite HmV. destruct (vdrBytesUsed alloc t msg nodeID >? 0); [|exact H5].
      apply insert_in_range; [exact H5|apply wrap_in_range].
    + rewrite HmA. destruct (atLargeBytesUsed t msg nodeID >? 0); [|exact H6].
      apply insert_in_range; [exact H6|apply wrap_in_range].
  - apply Acquire_false in HA as [_ ->]. exact Hwt.
Qed.

(** [Acquire] keeps the bookkeeping of both allocations. *)
Lemma Acquire_accounted t msg nodeID :
  well_typed t -> sized msg -> accounted t ->
  accounted (snd (Acquire alloc t msg nodeID)).
Proof.
  intros Hwt Hn [HaccV HaccA].
  destruct (Acquire alloc t msg nodeID) as [b t1] eqn:HA. simpl.
  destruct (BypassThrottling msg) eqn:Hby.
  { unfold Acquire in HA. rewrite Hby in HA. injection HA as _ <-. done. }
  destruct b; [|apply Acquire_false in HA as [_ ->]; done].
  pose proof (atLarge_bounds t msg nodeID Hwt Hn) as Ha.
  pose proof (vdr_bounds t msg nodeID Hwt Hn) as Hv.
  destruct (Acquire_true t msg nodeID t1 Hwt Hn Hby HA)
    as (Hsum & HrA & HrV & HmA & HmV & _ & Hmax & Hnm).
  destruct (well_typed_nonneg t Hwt) as [HnV HnA].
  pose proof (used_le_total _ nodeID HnV) as HuV.
  pose proof (used_le_total _ nodeID HnA) as HuA.
  destruct Hwt as (H1 & _). unfold U64.in_range in H1.
  unfold accounted. rewrite HrA, HrV, HmA, HmV, Hmax. split.
  - destruct (Z.gtb_spec (vdrBytesUsed alloc t msg nodeID) 0); [|lia].
    rewrite usedTotal_insert, add_small by lia. lia.
  - destruct (Z.gtb_spec (atLargeBytesUsed t msg nodeID) 0); [|lia].
    rewrite usedTotal_insert, add_small by lia. lia.
Qed.

(** After a successful [Acquire] the node holds what it held plus what was
    taken. *)
Lemma Acquire_used_vdr t msg nodeID t1 :
  well_typed t -> sized msg -> accounted t -> BypassThrottling msg = false ->
  Acquire alloc t msg nodeID = (true, t1) ->
  used (nodeToVdrBytesUsed t1) nodeID =
    used (nodeToVdrBytesUsed t) nodeID + vdrBytesUsed alloc t msg nodeID.
Proof.
  intros Hwt Hn [HaccV _] Hby HA.
  pose proof (vdr_bounds t msg nodeID Hwt Hn) as Hv.
  destruct (Acquire_true t msg nodeID t1 Hwt Hn Hby HA)
    as (_ & _ & _ & _ & HmV & _).
  destruct (well_typed_nonneg t Hwt) as [HnV _].
  pose proof (used_le_total _ nodeID HnV) as HuV.
  destruct Hwt as (H1 & _). unfold U64.in_range in H1.
  rewrite HmV. destruct (Z.gtb_spec (vdrBytesUsed alloc t msg nodeID) 0); [|lia].
  rewrite used_insert_eq, add_small by lia. reflexivity.
Qed.

Lemma Acquire_used_atLarge t msg nodeID t1 :
  well_typed t -> sized msg -> accounted t -> BypassThrottling msg = false ->
  Acquire alloc t msg nodeID = (true, t1) ->
  used (nodeToAtLargeBytesUsed t1) nodeID =
    used (nodeToAtLargeBytesUsed t) nodeID + atLargeBytesUsed t msg nodeID.
Proof.
  intros Hwt Hn [_ HaccA] Hby HA.
  pose proof (atLarge_bounds t msg nodeID Hwt Hn) as Ha.
  destruct (Acquire_true t msg nodeID t1 Hwt Hn Hby HA)
    as (_ & _ & _ & HmA & _).
  destruct (well_typed_nonneg t Hwt) as [_ HnA].
  pose proof (used_le_total _ nodeID HnA) as HuA.
  rewrite HmA. destruct (Z.gtb_spec (atLargeBytesUsed t msg nodeID) 0); [|lia].
  rewrite used_insert_eq, add_small by lia. reflexivity.
Qed.

End Throttler.

(** *** [Release] *)

Lemma returned_total t msg nodeID :
  well_typed t -> sized msg ->
  0 <= vdrBytesToReturn t msg nodeID <= msgSize msg /\
  vdrBytesToReturn t msg nodeID <= used (nodeToVdrBytesUsed t) nodeID /\
  vdrBytesToReturn t msg nodeID + atLargeBytesToReturn t msg nodeID = msgSize msg.
Proof.
  intros Hwt Hn. destruct (well_typed_nonneg t Hwt) as [HnV _].
  pose proof (used_le_total _ nodeID HnV) as HuV.
  unfold atLargeBytesToReturn, vdrBytesToReturn. rewrite Min64_1.
  unfold sized, U64.in_range in Hn.
  rewrite sub_small by lia. lia.
Qed.

Lemma Release_remaining t msg nodeID :
  BypassThrottling msg = false ->
  remainingVdrBytes (Release t msg nodeID) =
    U64.add (remainingVdrBytes t) (vdrBytesToReturn t msg nodeID) /\
  remainingAtLargeBytes (Release t msg nodeID) =
    U64.add (remainingAtLargeBytes t) (atLargeBytesToReturn t msg nodeID) /\
  nodeToVdrBytesUsed (Release t msg nodeID) =
    giveBack (nodeToVdrBytesUsed t) nodeID (vdrBytesToReturn t msg nodeID) /\
  nodeToAtLargeBytesUsed (Release t msg nodeID) =
    giveBack (nodeToAtLargeBytesUsed t) nodeID (atLargeBytesToReturn t msg nodeID) /\
  maxVdrBytes (Release t msg nodeID) = maxVdrBytes t /\
  nodeMaxAtLargeBytes (Release t msg nodeID) = nodeMaxAtLargeBytes t.
Proof. intros Hby. unfold Release. rewrite Hby. simpl. done. Qed.

Lemma Release_well_typed t msg nodeID :
  well_typed t -> well_typed (Release t msg nodeID).
Proof.
  intros Hwt. destruct (BypassThrottling msg) eqn:Hby.
  { unfold Release. rewrite Hby. exact Hwt. }
  destruct (Release_remaining t msg nodeID Hby) as (HrV & HrA & HmV & HmA & Hmax & Hnm).
  destruct Hwt as (H1 & H2 & H3 & H4 & H5 & H6).
  unfold well_typed. rewrite HrV, HrA, HmV, HmA, Hmax, Hnm.
  repeat (split; [first [assumption | apply wrap_in_range]|]).
  split; apply giveBack_in_range; assumption.
Qed.

(** A node that holds at least the bytes of a message has a release of that
    message outstanding. *)
Definition outstanding (t : outboundMsgThrottler) (msg : OutboundMessage) (nodeID : N) : Prop :=
  msgSize msg <= used (nodeToVdrBytesUsed t) nodeID + used (nodeToAtLargeBytesUsed t) nodeID.

(** A [Release] that is outstanding gives the message's bytes back, without
    wrap-around, and keeps the bookkeeping. *)
Lemma Release_exact t msg nodeID :
  well_typed t -> accounted t -> sized msg -> BypassThrottling msg = false ->
  outstanding t msg nodeID ->
  remainingVdrBytes (Release t msg nodeID) =
    remainingVdrBytes t + vdrBytesToReturn t msg nodeID /\
  remainingAtLargeBytes (Release t msg nodeID) =
    remainingAtLargeBytes t + atLargeBytesToReturn t msg nodeID /\
  accounted (Release t msg nodeID).
Proof.
  intros Hwt [HaccV HaccA] Hn Hby Hout.
  destruct (Release_remaining t msg nodeID Hby) as (HrV & HrA & HmV & HmA & Hmax & Hnm).
  destruct (returned_total t msg nodeID Hwt Hn) as (Hr & Hru & Hsum).
  destruct (well_typed_nonneg t Hwt) as [HnV HnA].
  pose proof (used_le_total _ nodeID HnV) as HuV.
  pose proof (used_le_total _ nodeID HnA) as HuA.
  destruct Hwt as (H1 & H2 & H3 & _). unfold U64.in_range in H1, H2, H3.
  unfold outstanding in Hout.
  assert (Hal : 0 <= atLargeBytesToReturn t msg nodeID <= used (nodeToAtLargeBytesUsed t) nodeID).
  { split; [lia|].
    unfold vdrBytesToReturn in *. rewrite Min64_1 in *. lia. }
  unfold accounted. rewrite HrV, HrA, HmV, HmA, Hmax.
  rewrite !add_small by lia.
  rewrite !giveBack_total by lia. lia.
Qed.

(** A new throttler is well typed and its books are balanced. *)
Lemma New_invariant vdrs config :
  U64.in_range (VdrAllocSize config) -> U64.in_range (AtLargeAllocSize config) ->
  U64.in_range (NodeMaxAtLargeBytes config) ->
  well_typed (NewSybilOutboundMsgThrottler vdrs config) /\
  accounted (NewSybilOutboundMsgThrottler vdrs config).
Proof.
  intros Hv Ha Hn. split.
  - unfold well_typed. simpl. repeat (split; [assumption|]).
    split; intros n v H; rewrite lookup_empty in H; discriminate.
  - unfold accounted. simpl. rewrite usedTotal_empty.
    unfold U64.in_range in *. lia.
Qed.

(** C9.  For every throttler state and every message that does not bypass
    throttling: when [Acquire] returns false, the remaining validator and
    at-large bytes and both per-node usage maps are what they were (the call
    is a function of the state: it returns at once, it never waits for
    bytes); and in a state of a throttler (every quantity a [uint64], the
    books balanced) the [Release] that follows a successful [Acquire] of a
    message gives back exactly the message's byte count, split between the
    validator and the at-large allocation, so that the sum of the remaining
    validator and at-large bytes is again what it was before the [Acquire]. *)
Theorem Acquire_Release_exact
    (alloc : Z -> Z -> Z -> Z) t msg nodeID :
  BypassThrottling msg = false ->
  (fst (Acquire alloc t msg nodeID) = false ->
   let t' := snd (Acquire alloc t msg nodeID) in
   remainingVdrBytes t' = remainingVdrBytes t /\
   remainingAtLargeBytes t' = remainingAtLargeBytes t /\
   nodeToVdrBytesUsed t' = nodeToVdrBytesUsed t /\
   nodeToAtLargeBytesUsed t' = nodeToAtLargeBytesUsed t) /\
  (well_typed t -> accounted t -> sized msg ->
   fst (Acquire alloc t msg nodeID) = true ->
   let t1 := snd (Acquire alloc t msg nodeID) in
   let t2 := Release t1 msg nodeID in
   vdrBytesToReturn t1 msg nodeID + atLargeBytesToReturn t1 msg nodeID = msgSize msg /\
   remainingVdrBytes t2 = remainingVdrBytes t1 + vdrBytesToReturn t1 msg nodeID /\
   remainingAtLargeBytes t2 = remainingAtLargeBytes t1 + atLargeBytesToReturn t1 msg nodeID /\
   remainingVdrBytes t2 + remainingAtLargeBytes t2 =
     remainingVdrBytes t + remainingAtLargeBytes t).
Proof.
  intros Hby. split.
  - destruct (Acquire alloc t msg nodeID) as [b t'] eqn:HA. simpl.
    intros ->. apply Acquire_false in HA as [_ ->]. simpl. done.
  - intros Hwt Hacc Hn.
    pose proof (Acquire_well_typed alloc t msg nodeID Hwt Hn) as Hwt1.
    pose proof (Acquire_accounted alloc t msg nodeID Hwt Hn Hacc) as Hacc1.
    destruct (Acquire alloc t msg nodeID) as [b t1] eqn:HA. simpl in *.
    intros ->.
    destruct (Acquire_true alloc t msg nodeID t1 Hwt Hn Hby HA)
      as (Hsum & HrA & HrV & _).
    pose proof (Acquire_used_vdr alloc t msg nodeID t1 Hwt Hn Hacc Hby HA) as HuV.
    pose proof (Acquire_used_atLarge alloc t msg nodeID t1 Hwt Hn Hacc Hby HA) as HuA.
    destruct (well_typed_nonneg t Hwt) as [HnV HnA].
    pose proof (used_le_total _ nodeID HnV).
    pose proof (used_le_total _ nodeID HnA).
    assert (Hout : outstanding t1 msg nodeID).
    { unfold outstanding. rewrite HuV, HuA. lia. }
    destruct (Release_exact t1 msg nodeID Hwt1 Hacc1 Hn Hby Hout) as (HV & HA' & _).
    destruct (returned_total t1 msg nodeID Hwt1 Hn) as (_ & _ & Hret).
    repeat split; try assumption. lia.
Qed.

(** The throttler of the package's test: two validators of weight 1 and
    allocations of 1024 bytes; the validator allocation computed in integers. *)
Definition testAlloc (maxVdrBytes weight totalWeight : Z) : Z :=
  maxVdrBytes * weight / totalWeight.

Definition testThrottler : outboundMsgThrottler :=
  NewSybilOutboundMsgThrottler {[ 1%N := 1; 2%N := 1 ]}
    {| VdrAllocSize := 1024; AtLargeAllocSize := 1024; NodeMaxAtLargeBytes := 1024 |}.

Definition testMsgWithSize (n : nat) : OutboundMessage :=
  {| BypassThrottling := false; Bytes := replicate n Byte.x00 |}.

Lemma Acquire_Release_exact_witness :
  let t1 := snd (Acquire testAlloc testThrottler (testMsgWithSize 1025) 1%N) in
  let t2 := Release t1 (testMsgWithSize 1025) 1%N in
  remainingVdrBytes t2 + remainingAtLargeBytes t2 =
    remainingVdrBytes testThrottler + remainingAtLargeBytes testThrottler.
Proof.
  cbv zeta.
  apply (proj2 (Acquire_Release_exact testAlloc testThrottler (testMsgWithSize 1025) 1%N
                  eq_refl)).
  - apply New_invariant; vm_compute; split; discriminate.
  - apply New_invariant; vm_compute; split; discriminate.
  - vm_compute. split; discriminate.
  - vm_compute. reflexivity.
Defined.

(** The steps of the package's test, on the model. *)
Example test_take_from_at_large :
  let '(ok, t) := Acquire testAlloc testThrottler (testMsgWithSize 1) 1%N in
  ok = true /\ remainingAtLargeBytes t = 1023 /\ remainingVdrBytes t = 1024 /\
  size (nodeToVdrBytesUsed t) = 0%nat /\ nodeToAtLargeBytesUsed t !! 1%N = Some 1 /\
  let t := Release t (testMsgWithSize 1) 1%N in
  remainingAtLargeBytes t = 1024 /\ remainingVdrBytes t = 1024 /\
  size (nodeToVdrBytesUsed t) = 0%nat /\ size (nodeToAtLargeBytesUsed t) = 0%nat.
Proof. vm_compute. done. Qed.

Example test_exhausted :
  let t := snd (Acquire testAlloc testThrottler (testMsgWithSize 1025) 1%N) in
  let t := snd (Acquire testAlloc t (testMsgWithSize 512) 2%N) in
  let t := snd (Acquire testAlloc t (testMsgWithSize 511) 1%N) in
  remainingVdrBytes t = 0 /\ remainingAtLargeBytes t = 0 /\
  fst (Acquire testAlloc t (testMsgWithSize 1) 1%N) = false /\
  fst (Acquire testAlloc t (testMsgWithSize 1) 2%N) = false /\
  fst (Acquire testAlloc t (testMsgWithSize 1) 3%N) = false.
Proof. vm_compute. done. Qed.

End ThrottlingFacts.

(** ** The limits the outbound throttler enforces *)

Module ThrottlingLimits.
Import SafeMath Throttling U64Facts ThrottlingFacts.

Section Limits.
Variable alloc : Z -> Z -> Z -> Z.

(** What a node may still take from the at-large allocation: what is left of
    its own limit, and of the allocation. *)
Definition atLargeAvailable (t : outboundMsgThrottler) (nodeID : N) : Z :=
  Z.min (U64.sub (nodeMaxAtLargeBytes t) (used (nodeToAtLargeBytesUsed t) nodeID))
        (remainingAtLargeBytes t).

(** What a node may still take from the validator allocation. *)
Definition vdrAvailable (t : outboundMsgThrottler) (nodeID : N) : Z :=
  Z.min (remainingVdrBytes t) (vdrBytesAllowed alloc t nodeID).

(** No node holds more of the at-large allocation than the per-node limit. *)
Definition limited (t : outboundMsgThrottler) : Prop :=
  forall n, used (nodeToAtLargeBytesUsed t) n <= nodeMaxAtLargeBytes t.

Lemma used_in_range (m : gmap N Z) n :
  (forall k v, m !! k = Some v -> U64.in_range v) -> U64.in_range (used m n).
Proof.
  intros Hm. unfold used. destruct (m !! n) as [v|] eqn:Hn; simpl.
  - exact (Hm _ _ Hn).
  - unfold U64.in_range, U64.MaxUint64. lia.
Qed.

Lemma taken_atLarge t msg nodeID :
  atLargeBytesUsed t msg nodeID = Z.min (msgSize msg) (atLargeAvailable t nodeID).
Proof. unfold atLargeBytesUsed, atLargeAvailable. rewrite Min64_2. lia. Qed.

Lemma taken_vdr t msg nodeID :
  well_typed t -> sized msg ->
  vdrBytesUsed alloc t msg nodeID =
    Z.min (vdrAvailable t nodeID) (msgSize msg - atLargeBytesUsed t msg nodeID).
Proof.
  intros Hwt Hn. pose proof (atLarge_bounds t msg nodeID Hwt Hn) as Ha.
  unfold vdrBytesUsed, vdrAvailable. rewrite Min64_2.
  unfold sized, U64.in_range in Hn. rewrite sub_small by lia. lia.
Qed.

Lemma Acquire_fst t msg nodeID :
  well_typed t -> sized msg -> BypassThrottling msg = false ->
  fst (Acquire alloc t msg nodeID) = true <->
  atLargeBytesUsed t msg nodeID + vdrBytesUsed alloc t msg nodeID = msgSize msg.
Proof.
  intros Hwt Hn Hby. unfold Acquire. rewrite Hby. cbv zeta.
  pose proof (atLarge_bounds t msg nodeID Hwt Hn) as Ha.
  pose proof (vdr_bounds alloc t msg nodeID Hwt Hn) as Hv.
  unfold sized, U64.in_range in Hn.
  rewrite (sub_small (msgSize msg)) by lia.
  rewrite (sub_small (msgSize msg - _)) by lia.
  destruct (Z.eqb_spec (msgSize msg - atLargeBytesUsed t msg nodeID
                        - vdrBytesUsed alloc t msg nodeID) 0) as [H0|H0]; simpl.
  - split; [lia|reflexivity].
  - split; [discriminate|lia].
Qed.

Lemma Acquire_cases t msg nodeID :
  BypassThrottling msg = false ->
  (exists t1, Acquire alloc t msg nodeID = (true, t1)) \/
  Acquire alloc t msg nodeID = (false, with_metrics t (incAcquireFailures (metrics t))).
Proof.
  intros Hby. destruct (Acquire alloc t msg nodeID) as [[|] t1] eqn:HA.
  - left. eauto.
  - right. apply Acquire_false in HA as [_ ->]. reflexivity.
Qed.

(** X4.  [Acquire] queues a throttled message exactly when it is no longer than
    what the node may take from the at-large allocation plus what it may
    take from the validator allocation. *)
Theorem Acquire_decision t msg nodeID :
  well_typed t -> sized msg -> BypassThrottling msg = false ->
  fst (Acquire alloc t msg nodeID) = true <->
  msgSize msg <= atLargeAvailable t nodeID + vdrAvailable t nodeID.
Proof.
  intros Hwt Hn Hby. rewrite (Acquire_fst t msg nodeID Hwt Hn Hby).
  rewrite (taken_vdr t msg nodeID Hwt Hn), taken_atLarge.
  assert (0 <= vdrAvailable t nodeID).
  { unfold vdrAvailable. pose proof (vdrBytesAllowed_nonneg alloc t nodeID).
    destruct Hwt as (_ & Hrv & _). unfold U64.in_range in Hrv. lia. }
  unfold sized, U64.in_range in Hn. lia.
Qed.

(** X5.  The at-large allocation is used first: when [Acquire] takes bytes from
    the validator allocation, it has taken from the at-large allocation all
    the node could get. *)
Theorem at_large_taken_first t msg nodeID t1 :
  well_typed t -> sized msg -> BypassThrottling msg = false ->
  Acquire alloc t msg nodeID = (true, t1) ->
  remainingVdrBytes t1 < remainingVdrBytes t ->
  remainingAtLargeBytes t - remainingAtLargeBytes t1 = atLargeAvailable t nodeID.
Proof.
  intros Hwt Hn Hby HA Hlt.
  destruct (Acquire_true alloc t msg nodeID t1 Hwt Hn Hby HA) as (Hsum & HrA & HrV & _).
  rewrite HrV in Hlt. rewrite HrA.
  rewrite taken_atLarge in Hsum |- *. lia.
Qed.

(** X6.  A node that is not a validator, or has weight 0, never takes from the
    validator allocation: [Acquire] leaves it as it is, and queues the
    message exactly when the at-large allocation can hold all of it. *)
Theorem non_validator_at_large_only t msg nodeID :
  well_typed t -> sized msg -> BypassThrottling msg = false ->
  validators t !! nodeID = None \/ validators t !! nodeID = Some 0 ->
  remainingVdrBytes (snd (Acquire alloc t msg nodeID)) = remainingVdrBytes t /\
  nodeToVdrBytesUsed (snd (Acquire alloc t msg nodeID)) = nodeToVdrBytesUsed t /\
  (fst (Acquire alloc t msg nodeID) = true <-> msgSize msg <= atLargeAvailable t nodeID).
Proof.
  intros Hwt Hn Hby Hnv.
  assert (Halloc : vdrAllocationSize alloc t nodeID = 0).
  { unfold vdrAllocationSize, GetWeight. destruct Hnv as [-> | ->]; reflexivity. }
  assert (Hallowed : vdrBytesAllowed alloc t nodeID = 0).
  { unfold vdrBytesAllowed. rewrite Halloc.
    pose proof (used_in_range (nodeToVdrBytesUsed t) nodeID) as Hu.
    destruct Hwt as (_ & _ & _ & _ & HV & _). specialize (Hu HV).
    unfold U64.in_range in Hu.
    destruct (Z.geb_spec (used (nodeToVdrBytesUsed t) nodeID) 0); [reflexivity|lia]. }
  pose proof (atLarge_bounds t msg nodeID Hwt Hn) as Ha.
  assert (Hv0 : vdrBytesUsed alloc t msg nodeID = 0).
  { rewrite (taken_vdr t msg nodeID Hwt Hn). unfold vdrAvailable. rewrite Hallowed.
    destruct Hwt as (_ & Hrv & _). unfold U64.in_range in Hrv. lia. }
  split; [|split].
  - destruct (Acquire_cases t msg nodeID Hby) as [[t1 HA]| ->]; [|reflexivity].
    rewrite HA. destruct (Acquire_true alloc t msg nodeID t1 Hwt Hn Hby HA) as (_ & _ & HrV & _).
    simpl. rewrite HrV, Hv0. lia.
  - destruct (Acquire_cases t msg nodeID Hby) as [[t1 HA]| ->]; [|reflexivity].
    rewrite HA.
    destruct (Acquire_true alloc t msg nodeID t1 Hwt Hn Hby HA) as (_ & _ & _ & _ & HmV & _).
    simpl. rewrite HmV, Hv0. reflexivity.
  - rewrite (Acquire_fst t msg nodeID Hwt Hn Hby), Hv0, taken_atLarge.
    unfold sized, U64.in_range in Hn. lia.
Qed.

Lemma limited_Acquire t msg nodeID :
  well_typed t -> sized msg -> limited t -> limited (snd (Acquire alloc t msg nodeID)).
Proof.
  intros Hwt Hn Hlim.
  destruct (BypassThrottling msg) eqn:Hby.
  { unfold Acquire. rewrite Hby. exact Hlim. }
  destruct (Acquire_cases t msg nodeID Hby) as [[t1 HA]| ->]; [|exact Hlim].
  rewrite HA. simpl.
  destruct (Acquire_true alloc t msg nodeID t1 Hwt Hn Hby HA)
    as (_ & _ & _ & HmA & _ & _ & _ & Hnm).
  pose proof (used_in_range (nodeToAtLargeBytesUsed t) nodeID) as Hu.
  destruct Hwt as (_ & _ & _ & Hmax & _ & HA').
  specialize (Hu HA'). unfold U64.in_range in Hu, Hmax.
  pose proof (Hlim nodeID) as HlimN.
  intros n. rewrite HmA, Hnm.
  destruct (Z.gtb_spec (atLargeBytesUsed t msg nodeID) 0) as [Hpos|_]; [|apply Hlim].
  destruct (decide (nodeID = n)) as [<-|Hne].
  - rewrite used_insert_eq. rewrite taken_atLarge in Hpos |- *.
    unfold atLargeAvailable in *. rewrite sub_small in * by lia.
    rewrite add_small by lia. lia.
  - rewrite used_insert_ne by exact Hne. apply Hlim.
Qed.

Lemma limited_Release t msg nodeID :
  well_typed t -> sized msg -> outstanding t msg nodeID -> limited t ->
  limited (Release t msg nodeID).
Proof.
  intros Hwt Hn Hout Hlim.
  destruct (BypassThrottling msg) eqn:Hby.
  { unfold Release. rewrite Hby. exact Hlim. }
  destruct (Release_remaining t msg nodeID Hby) as (_ & _ & _ & HmA & _ & Hnm).
  destruct (returned_total t msg nodeID Hwt Hn) as (Hr1 & Hr2 & Hr3).
  pose proof (used_in_range (nodeToAtLargeBytesUsed t) nodeID) as Hu.
  destruct Hwt as (_ & _ & _ & _ & _ & HA'). specialize (Hu HA').
  unfold U64.in_range in Hu. unfold outstanding in Hout.
  assert (HtoV : vdrBytesToReturn t msg nodeID
                 = Z.min (msgSize msg) (used (nodeToVdrBytesUsed t) nodeID))
    by (unfold vdrBytesToReturn; apply Min64_1).
  intros n. rewrite HmA, Hnm. destruct (decide (nodeID = n)) as [<-|Hne].
  - rewrite giveBack_used_eq by lia. pose proof (Hlim nodeID). lia.
  - rewrite giveBack_used_ne by exact Hne. apply Hlim.
Qed.

(** X7.  The per-node limit on the at-large allocation is never exceeded: it
    holds in a new throttler, and [Acquire] and a [Release] of bytes the node
    holds keep it. *)
Theorem per_node_limit_kept :
  (forall vdrs config,
     U64.in_range (NodeMaxAtLargeBytes config) ->
     limited (NewSybilOutboundMsgThrottler vdrs config)) /\
  (forall t msg nodeID,
     well_typed t -> sized msg -> limited t ->
     limited (snd (Acquire alloc t msg nodeID))) /\
  (forall t msg nodeID,
     well_typed t -> sized msg -> outstanding t msg nodeID -> limited t ->
     limited (Release t msg nodeID)).
Proof.
  split; [|split].
  - intros vdrs config Hmax n. unfold used. simpl. rewrite lookup_empty. simpl.
    unfold U64.in_range in Hmax. lia.
  - exact limited_Acquire.
  - exact limited_Release.
Qed.

(** X8.  For a node that holds no bytes, [Release] after a successful [Acquire]
    of the same message gives back the byte accounting exactly: both
    allocations and both usage maps are what they were. *)
Theorem Acquire_Release_restores t msg nodeID t1 :
  well_typed t -> sized msg ->
  nodeToVdrBytesUsed t !! nodeID = None ->
  nodeToAtLargeBytesUsed t !! nodeID = None ->
  Acquire alloc t msg nodeID = (true, t1) ->
  remainingVdrBytes (Release t1 msg nodeID) = remainingVdrBytes t /\
  remainingAtLargeBytes (Release t1 msg nodeID) = remainingAtLargeBytes t /\
  nodeToVdrBytesUsed (Release t1 msg nodeID) = nodeToVdrBytesUsed t /\
  nodeToAtLargeBytesUsed (Release t1 msg nodeID) = nodeToAtLargeBytesUsed t.
Proof.
  intros Hwt Hn HV0 HA0 HA.
  destruct (BypassThrottling msg) eqn:Hby.
  { unfold Acquire in HA. rewrite Hby in HA. injection HA as <-.
    unfold Release. rewrite Hby. done. }
  pose proof (atLarge_bounds t msg nodeID Hwt Hn) as Ha.
  pose proof (vdr_bounds alloc t msg nodeID Hwt Hn) as Hv.
  destruct (Acquire_true alloc t msg nodeID t1 Hwt Hn Hby HA)
    as (Hsum & HrA & HrV & HmA & HmV & _).
  destruct (Release_remaining t1 msg nodeID Hby) as (HRv & HRa & HRmV & HRmA & _).
  set (a := atLargeBytesUsed t msg nodeID) in *.
  set (v := vdrBytesUsed alloc t msg nodeID) in *.
  assert (HuV0 : used (nodeToVdrBytesUsed t) nodeID = 0) by (unfold used; rewrite HV0; done).
  assert (HuA0 : used (nodeToAtLargeBytesUsed t) nodeID = 0) by (unfold used; rewrite HA0; done).
  unfold sized, U64.in_range in Hn.
  assert (HuV1 : used (nodeToVdrBytesUsed t1) nodeID = v).
  { rewrite HmV. destruct (Z.gtb_spec v 0); [|lia].
    rewrite used_insert_eq, HuV0, add_small by lia. lia. }
  assert (HuA1 : used (nodeToAtLargeBytesUsed t1) nodeID = a).
  { rewrite HmA. destruct (Z.gtb_spec a 0); [|lia].
    rewrite used_insert_eq, HuA0, add_small by lia. lia. }
  assert (HtoV : vdrBytesToReturn t1 msg nodeID = v).
  { unfold vdrBytesToReturn. rewrite Min64_1, HuV1. lia. }
  assert (HtoA : atLargeBytesToReturn t1 msg nodeID = a).
  { unfold atLargeBytesToReturn. rewrite HtoV, sub_small by lia. lia. }
  destruct Hwt as (_ & Hrv & Hra & _). unfold U64.in_range in Hrv, Hra.
  assert (Hback : forall (m m1 : gmap N Z) x,
            m !! nodeID = None -> 0 <= x <= U64.MaxUint64 ->
            m1 = (if x >? 0 then <[nodeID := U64.add (used m nodeID) x]> m else m) ->
            giveBack m1 nodeID x = m).
  { intros m m1 x Hm Hx ->. unfold giveBack.
    assert (Hu0 : used m nodeID = 0) by (unfold used; rewrite Hm; done).
    destruct (Z.gtb_spec x 0).
    - rewrite !used_insert_eq, Hu0. rewrite (add_small 0 x) by lia.
      rewrite (sub_small (0 + x) x) by lia. replace (0 + x - x) with 0 by lia.
      rewrite insert_insert_eq. simpl.
      apply delete_insert_id. exact Hm.
    - rewrite Hu0, sub_small by lia. replace (0 - x) with 0 by lia.
      rewrite used_insert_eq. simpl. apply delete_insert_id. exact Hm. }
  rewrite HRv, HRa, HRmV, HRmA, HtoV, HtoA, HrV, HrA.
  rewrite !add_small by lia.
  split; [lia|]. split; [lia|]. split.
  - apply Hback; [exact HV0|lia|exact HmV].
  - apply Hback; [exact HA0|lia|exact HmA].
Qed.

End Limits.

Lemma testThrottler_well_typed : well_typed testThrottler.
Proof.
  apply New_invariant; unfold U64.in_range, U64.MaxUint64; simpl; lia.
Qed.

Lemma testMsg_sized n : (n <= 4096)%nat -> sized (testMsgWithSize n).
Proof.
  intros Hn. unfold sized, msgSize, testMsgWithSize. simpl.
  rewrite length_replicate. unfold U64.in_range, U64.MaxUint64. lia.
Qed.

Lemma Acquire_decision_witness :
  fst (Acquire testAlloc testThrottler (testMsgWithSize 1025) 1%N) = true <->
  msgSize (testMsgWithSize 1025) <=
    atLargeAvailable testThrottler 1%N + vdrAvailable testAlloc testThrottler 1%N.
Proof.
  apply (Acquire_decision testAlloc testThrottler (testMsgWithSize 1025) 1%N).
  - exact testThrottler_well_typed.
  - apply testMsg_sized. lia.
  - reflexivity.
Defined.

Lemma at_large_taken_first_witness :
  remainingAtLargeBytes testThrottler
  - remainingAtLargeBytes (snd (Acquire testAlloc testThrottler (testMsgWithSize 1025) 1%N))
  = atLargeAvailable testThrottler 1%N.
Proof.
  apply (at_large_taken_first testAlloc testThrottler (testMsgWithSize 1025) 1%N).
  - exact testThrottler_well_typed.
  - apply testMsg_sized. lia.
  - reflexivity.
  - vm_compute. reflexivity.
  - vm_compute. reflexivity.
Defined.

Lemma non_validator_at_large_only_witness :
  remainingVdrBytes (snd (Acquire testAlloc testThrottler (testMsgWithSize 1025) 3%N))
  = remainingVdrBytes testThrottler.
Proof.
  apply (non_validator_at_large_only testAlloc testThrottler (testMsgWithSize 1025) 3%N).
  - exact testThrottler_well_typed.
  - apply testMsg_sized. lia.
  - reflexivity.
  - left. vm_compute. reflexivity.
Defined.

Lemma per_node_limit_kept_witness :
  limited (snd (Acquire testAlloc testThrottler (testMsgWithSize 1025) 1%N)).
Proof.
  apply (proj1 (proj2 (per_node_limit_kept testAlloc))).
  - exact testThrottler_well_typed.
  - apply testMsg_sized. lia.
  - apply (proj1 (per_node_limit_kept testAlloc)).
    unfold U64.in_range, U64.MaxUint64. simpl. lia.
Defined.

Lemma Acquire_Release_restores_witness :
  let t1 := snd (Acquire testAlloc testThrottler (testMsgWithSize 1025) 1%N) in
  remainingVdrBytes (Release t1 (testMsgWithSize 1025) 1%N) = remainingVdrBytes testThrottler /\
  remainingAtLargeBytes (Release t1 (testMsgWithSize 1025) 1%N)
    = remainingAtLargeBytes testThrottler /\
  nodeToVdrBytesUsed (Release t1 (testMsgWithSize 1025) 1%N) = nodeToVdrBytesUsed testThrottler /\
  nodeToAtLargeBytesUsed (Release t1 (testMsgWithSize 1025) 1%N)
    = nodeToAtLargeBytesUsed testThrottler.
Proof.
  apply (Acquire_Release_restores testAlloc testThrottler (testMsgWithSize 1025) 1%N).
  - exact testThrottler_well_typed.
  - apply testMsg_sized. lia.
  - reflexivity.
  - reflexivity.
  - vm_compute. reflexivity.
Defined.

End ThrottlingLimits.

(** ** The event dispatcher *)

Module TriggersFacts.
Import Triggers.

Section Dispatcher.
Context {World : Type}.
Implicit Types (h : handler World) (entries : list (string * handler World))
  (ed : EventDispatcher World) (w : World) (cs : list call)
  (events : gmap string (handler World)) (range : rangeOrder World).

(** The lines the three dispatch loops log for a sequence of calls: one for
    each call that returned an error, in the order of the calls. *)
Definition acceptLog (ctx : ConsensusContext) (containerID : ID) (cs : list call) : list logLine :=
  omap (fun cl => LogAccept (callee cl) (ChainID ctx) containerID <$> returned cl) cs.

Definition rejectLog (ctx : ConsensusContext) (cs : list call) : list logLine :=
  omap (fun cl => LogReject (callee cl) (ChainID ctx) <$> returned cl) cs.

Definition issueLog (ctx : ConsensusContext) (cs : list call) : list logLine :=
  omap (fun cl => LogIssue (callee cl) (ChainID ctx) <$> returned cl) cs.

Lemma matching_nil ev : matching ev (@nil (string * handler World)) = [].
Proof. reflexivity. Qed.

Lemma matching_cons_yes ev id h entries :
  implements ev h = true -> matching ev ((id, h) :: entries) = id :: matching ev entries.
Proof. intros H. unfold matching. rewrite filter_cons_True by exact H. reflexivity. Qed.

Lemma matching_cons_no ev id h entries :
  implements ev h = false -> matching ev ((id, h) :: entries) = matching ev entries.
Proof.
  intros H. unfold matching. rewrite filter_cons_False; [reflexivity|].
  simpl. rewrite H. discriminate.
Qed.

Lemma implements_Some ev h :
  implements ev h = true <->
  match ev with
  | EvAccept => is_Some (asAcceptor (handlerFunc h))
  | EvReject => is_Some (asRejector (handlerFunc h))
  | EvIssue => is_Some (asIssuer (handlerFunc h))
  end.
Proof. destruct ev; simpl; apply bool_decide_eq_true. Qed.

Lemma implements_None ev h :
  implements ev h = false <->
  match ev with
  | EvAccept => asAcceptor (handlerFunc h) = None
  | EvReject => asRejector (handlerFunc h) = None
  | EvIssue => asIssuer (handlerFunc h) = None
  end.
Proof.
  destruct ev; simpl; rewrite bool_decide_eq_false, <- eq_None_not_Some; done.
Qed.

Lemma matching_app ev entries1 entries2 :
  matching ev (entries1 ++ entries2) = matching ev entries1 ++ matching ev entries2.
Proof. unfold matching. rewrite filter_app, fmap_app. reflexivity. Qed.

Lemma matching_Permutation ev entries1 entries2 :
  entries1 ≡ₚ entries2 -> matching ev entries1 ≡ₚ matching ev entries2.
Proof. intros H. unfold matching. rewrite H. reflexivity. Qed.

(** *** The loops of [Reject] and [Issue] *)

Lemma rejectRange_spec ctx cid c entries : forall ed w cs,
  let out := rejectRange ctx cid c entries ed w cs in
  result out = None /\
  chainHandlers (dispatcher out) = chainHandlers ed /\
  exists cs', calls out = cs ++ cs' /\
              callee <$> cs' = matching EvReject entries /\
              log (dispatcher out) = log ed ++ rejectLog ctx cs'.
Proof.
  induction entries as [|[id h] rest IH]; intros ed w cs; simpl.
  - repeat split. exists []. rewrite !app_nil_r. done.
  - destruct (asRejector (handlerFunc h)) as [f|] eqn:Hf.
    + assert (Himp : implements EvReject h = true)
        by (apply implements_Some; rewrite Hf; eauto).
      rewrite (matching_cons_yes _ _ _ _ Himp).
      destruct (f ctx cid c w) as [[err|] w'].
      * destruct (IH (logged ed (LogReject id (ChainID ctx) err)) w'
                     (cs ++ [mkCall id (Some err)])) as (Hr & Hh & cs' & Hc & Hm & Hl).
        repeat split; [exact Hr|exact Hh|].
        exists (mkCall id (Some err) :: cs'). rewrite Hc, Hl, fmap_cons, Hm, <- !app_assoc.
        split; [done|]. split; [done|]. simpl. rewrite <- ?app_assoc. done.
      * destruct (IH ed w' (cs ++ [mkCall id None])) as (Hr & Hh & cs' & Hc & Hm & Hl).
        repeat split; [exact Hr|exact Hh|].
        exists (mkCall id None :: cs'). rewrite Hc, Hl, fmap_cons, Hm, <- !app_assoc.
        split; [done|]. split; [done|]. simpl. rewrite <- ?app_assoc. done.
    + assert (Himp : implements EvReject h = false) by (apply implements_None; exact Hf).
      rewrite (matching_cons_no _ _ _ _ Himp). apply IH.
Qed.

Lemma issueRange_spec ctx cid c entries : forall ed w cs,
  let out := issueRange ctx cid c entries ed w cs in
  result out = None /\
  chainHandlers (dispatcher out) = chainHandlers ed /\
  exists cs', calls out = cs ++ cs' /\
              callee <$> cs' = matching EvIssue entries /\
              log (dispatcher out) = log ed ++ issueLog ctx cs'.
Proof.
  induction entries as [|[id h] rest IH]; intros ed w cs; simpl.
  - repeat split. exists []. rewrite !app_nil_r. done.
  - destruct (asIssuer (handlerFunc h)) as [f|] eqn:Hf.
    + assert (Himp : implements EvIssue h = true)
        by (apply implements_Some; rewrite Hf; eauto).
      rewrite (matching_cons_yes _ _ _ _ Himp).
      destruct (f ctx cid c w) as [[err|] w'].
      * destruct (IH (logged ed (LogIssue id (ChainID ctx) err)) w'
                     (cs ++ [mkCall id (Some err)])) as (Hr & Hh & cs' & Hc & Hm & Hl).
        repeat split; [exact Hr|exact Hh|].
        exists (mkCall id (Some err) :: cs'). rewrite Hc, Hl, fmap_cons, Hm, <- !app_assoc.
        split; [done|]. split; [done|]. simpl. rewrite <- ?app_assoc. done.
      * destruct (IH ed w' (cs ++ [mkCall id None])) as (Hr & Hh & cs' & Hc & Hm & Hl).
        repeat split; [exact Hr|exact Hh|].
        exists (mkCall id None :: cs'). rewrite Hc, Hl, fmap_cons, Hm, <- !app_assoc.
        split; [done|]. split; [done|]. simpl. rewrite <- ?app_assoc. done.
    + assert (Himp : implements EvIssue h = false) by (apply implements_None; exact Hf).
      rewrite (matching_cons_no _ _ _ _ Himp). apply IH.
Qed.

(** *** The loop of [Accept] *)

(** A call that ends the dispatch: its handler dies on error, and it
    returned one. *)
Definition fatal entries (cl : call) : Prop :=
  exists h, (callee cl, h) ∈ entries /\ dieOnError h = true /\ is_Some (returned cl).

Lemma fatal_tail id h0 rest cl :
  id ∉ rest.*1 ->
  (exists h, (callee cl, h) ∈ rest) ->
  fatal ((id, h0) :: rest) cl -> fatal rest cl.
Proof.
  intros Hid [h' Hin] (h & Hh & Hdie & Hret).
  apply elem_of_cons in Hh as [Heq|Hh].
  - injection Heq as Hc _. exfalso. apply Hid. rewrite <- Hc.
    apply (list_elem_of_fmap_2 fst _ _ Hin).
  - exists h. done.
Qed.

Lemma acceptRange_spec ctx cid c entries :
  NoDup entries.*1 -> forall ed w cs,
  let out := acceptRange ctx cid c entries ed w cs in
  chainHandlers (dispatcher out) = chainHandlers ed /\
  exists cs',
    calls out = cs ++ cs' /\
    log (dispatcher out) = log ed ++ acceptLog ctx cid cs' /\
    (exists rest, matching EvAccept entries = (callee <$> cs') ++ rest /\
                  (result out = None -> rest = [])) /\
    (forall cl, cl ∈ cs' ->
       exists h, (callee cl, h) ∈ entries /\ is_Some (asAcceptor (handlerFunc h))) /\
    (result out <> None <-> exists cl, cl ∈ cs' /\ fatal entries cl) /\
    (forall e, result out = Some e ->
       exists pre cl err, cs' = pre ++ [cl] /\ returned cl = Some err /\
                          e = AcceptErrored (callee cl) (ChainID ctx) cid err).
Proof.
  induction entries as [|[id h] rest IH]; intros Hnd ed w cs; simpl.
  - split; [done|]. exists []. rewrite !app_nil_r.
    repeat split; try done.
    + exists []. done.
    + intros cl Hcl. apply elem_of_nil in Hcl. done.
    + intros (cl & Hcl & _). apply elem_of_nil in Hcl. done.
  - simpl in Hnd. apply NoDup_cons in Hnd as [Hid Hnd].
    specialize (IH Hnd).
    destruct (asAcceptor (handlerFunc h)) as [f|] eqn:Hf.
    + assert (Himp : implements EvAccept h = true)
        by (apply implements_Some; rewrite Hf; eauto).
      rewrite (matching_cons_yes _ _ _ _ Himp).
      destruct (f ctx cid c w) as [[err|] w'].
      * destruct (dieOnError h) eqn:Hdie.
        -- simpl. split; [done|]. exists [mkCall id (Some err)].
           repeat split; try done.
           ++ exists (matching EvAccept rest). done.
           ++ intros cl Hcl. apply list_elem_of_singleton in Hcl as ->.
              exists h. split; [left|rewrite Hf; eauto].
           ++ intros _. exists (mkCall id (Some err)). split; [left|].
              exists h. split; [left|]. simpl. eauto.
           ++ intros e [= <-]. exists [], (mkCall id (Some err)), err. done.
        -- destruct (IH (logged ed (LogAccept id (ChainID ctx) cid err)) w'
                        (cs ++ [mkCall id (Some err)]))
             as (Hh & cs' & Hc & Hl & (rs & Hm & Hrs) & Hin & Hiff & Hlast).
           split; [exact Hh|]. exists (mkCall id (Some err) :: cs').
           rewrite Hc, Hl. simpl. rewrite <- !app_assoc.
           repeat split; try done.
           ++ exists rs. rewrite Hm. done.
           ++ intros cl Hcl. apply elem_of_cons in Hcl as [->|Hcl].
              ** exists h. split; [left|rewrite Hf; eauto].
              ** destruct (Hin cl Hcl) as (h' & Hh' & Ha'). exists h'. split; [right|]; done.
           ++ intros Hres. apply Hiff in Hres as (cl & Hcl & h' & Hh' & Hd' & Hr').
              exists cl. split; [right; done|]. exists h'. split; [right|]; done.
           ++ intros (cl & Hcl & Hfat). apply Hiff.
              apply elem_of_cons in Hcl as [->|Hcl].
              ** exfalso. destruct Hfat as (h' & Hh' & Hd' & _). simpl in Hh'.
                 apply elem_of_cons in Hh' as [[= <-]|Hh']; [congruence|].
                 apply Hid. apply (list_elem_of_fmap_2 fst _ _ Hh').
              ** exists cl. split; [done|].
                 destruct (Hin cl Hcl) as (h' & Hh' & _).
                 apply (fatal_tail id h rest cl Hid); eauto.
           ++ intros e He. destruct (Hlast e He) as (pre & cl & err' & -> & Hr & ->).
              exists (mkCall id (Some err) :: pre), cl, err'. done.
      * destruct (IH ed w' (cs ++ [mkCall id None]))
          as (Hh & cs' & Hc & Hl & (rs & Hm & Hrs) & Hin & Hiff & Hlast).
        split; [exact Hh|]. exists (mkCall id None :: cs').
        rewrite Hc, Hl. simpl. rewrite <- !app_assoc.
        repeat split; try done.
        -- exists rs. rewrite Hm. done.
        -- intros cl Hcl. apply elem_of_cons in Hcl as [->|Hcl].
           ++ exists h. split; [left|rewrite Hf; eauto].
           ++ destruct (Hin cl Hcl) as (h' & Hh' & Ha'). exists h'. split; [right|]; done.
        -- intros Hres. apply Hiff in Hres as (cl & Hcl & h' & Hh' & Hd' & Hr').
           exists cl. split; [right; done|]. exists h'. split; [right|]; done.
        -- intros (cl & Hcl & Hfat). apply Hiff.
           apply elem_of_cons in Hcl as [->|Hcl].
           ++ exfalso. destruct Hfat as (h' & _ & _ & Hr'). simpl in Hr'.
              destruct Hr' as [? [=]].
           ++ exists cl. split; [done|].
              destruct (Hin cl Hcl) as (h' & Hh' & _).
              apply (fatal_tail id h rest cl Hid); eauto.
        -- intros e He. destruct (Hlast e He) as (pre & cl & err' & -> & Hr & ->).
           exists (mkCall id None :: pre), cl, err'. done.
    + assert (Himp : implements EvAccept h = false) by (apply implements_None; exact Hf).
      rewrite (matching_cons_no _ _ _ _ Himp).
      destruct (IH ed w cs) as (Hh & cs' & Hc & Hl & Hpre & Hin & Hiff & Hlast).
      split; [exact Hh|]. exists cs'.
      repeat split; try done.
      * intros cl Hcl. destruct (Hin cl Hcl) as (h' & Hh' & Ha').
        exists h'. split; [right|]; done.
      * intros Hres. apply Hiff in Hres as (cl & Hcl & h' & Hh' & Hd' & Hr').
        exists cl. split; [done|]. exists h'. split; [right|]; done.
      * intros (cl & Hcl & Hfat). apply Hiff. exists cl. split; [done|].
        destruct (Hin cl Hcl) as (h' & Hh' & _).
        apply (fatal_tail id h rest cl Hid); eauto.
Qed.

(** *** Ranging over the handlers of a chain *)

Lemma range_NoDup range events : range_ok range -> NoDup (range events).*1.
Proof. intros H. rewrite (H events). apply NoDup_fst_map_to_list. Qed.

Lemma range_elem range events id h :
  range_ok range -> (id, h) ∈ range events <-> events !! id = Some h.
Proof. intros H. rewrite (H events). apply elem_of_map_to_list. Qed.

Lemma matching_NoDup ev entries : NoDup entries.*1 -> NoDup (matching ev entries).
Proof.
  intros H. unfold matching. apply (sublist_NoDup _ _ H).
  apply fmap_sublist, sublist_filter.
Qed.

Lemma matching_elem ev entries id :
  id ∈ matching ev entries <-> exists h, (id, h) ∈ entries /\ implements ev h = true.
Proof.
  unfold matching. rewrite list_elem_of_fmap. split.
  - intros ([id' h] & -> & Hin). apply list_elem_of_filter in Hin as [Hp Hin].
    exists h. done.
  - intros (h & Hin & Hp). exists (id, h). split; [done|].
    apply list_elem_of_filter. done.
Qed.

Lemma fatal_registered range events cl :
  range_ok range ->
  fatal (range events) cl <->
  exists h, events !! callee cl = Some h /\ dieOnError h = true /\ is_Some (returned cl).
Proof.
  intros Hok. unfold fatal. split; intros (h & Hh & Hrest); exists h;
    (split; [apply (range_elem range events _ _ Hok); exact Hh|exact Hrest]).
Qed.

(** C4.  For every order in which the runtime ranges over the handlers of a
    chain: [Accept] returns an error if and only if one of the calls it made
    was to a handler of the chain that was registered with [dieOnError], that
    implements [Acceptor], and whose [Accept] returned an error; the error it
    returns wraps that of the last call it made.  Every handler error is
    logged, in [Accept], [Reject] and [Issue]; when no die-on-error handler
    fails, [Accept] returns nil after calling every acceptor of the chain, so
    an error of a handler registered without [dieOnError] is only logged;
    [Reject] and [Issue] return nil whatever the handlers return. *)
Theorem dispatcher_errors range ed ctx cid c w :
  range_ok range ->
  (result (Accept range ed ctx cid c w) <> None <->
   exists events cl h,
     chainHandlers ed !! ChainID ctx = Some events /\
     cl ∈ calls (Accept range ed ctx cid c w) /\
     events !! callee cl = Some h /\ dieOnError h = true /\
     is_Some (asAcceptor (handlerFunc h)) /\ is_Some (returned cl)) /\
  (forall e, result (Accept range ed ctx cid c w) = Some e ->
     exists pre cl err,
       calls (Accept range ed ctx cid c w) = pre ++ [cl] /\ returned cl = Some err /\
       e = AcceptErrored (callee cl) (ChainID ctx) cid err) /\
  (result (Accept range ed ctx cid c w) = None ->
     forall events, chainHandlers ed !! ChainID ctx = Some events ->
       callee <$> calls (Accept range ed ctx cid c w) = matching EvAccept (range events)) /\
  log (dispatcher (Accept range ed ctx cid c w)) =
    log ed ++ acceptLog ctx cid (calls (Accept range ed ctx cid c w)) /\
  result (Reject range ed ctx cid c w) = None /\
  log (dispatcher (Reject range ed ctx cid c w)) =
    log ed ++ rejectLog ctx (calls (Reject range ed ctx cid c w)) /\
  result (Issue range ed ctx cid c w) = None /\
  log (dispatcher (Issue range ed ctx cid c w)) =
    log ed ++ issueLog ctx (calls (Issue range ed ctx cid c w)).
Proof.
  intros Hok. unfold Accept, Reject, Issue.
  destruct (chainHandlers ed !! ChainID ctx) as [events|] eqn:Hev; simpl.
  - destruct (acceptRange_spec ctx cid c (range events) (range_NoDup _ _ Hok) ed w [])
      as (_ & cs' & Hc & Hl & (rs & Hm & Hrs) & Hin & Hiff & Hlast).
    destruct (rejectRange_spec ctx cid c (range events) ed w [])
      as (HrR & _ & csR & HcR & _ & HlR).
    destruct (issueRange_spec ctx cid c (range events) ed w [])
      as (HrI & _ & csI & HcI & _ & HlI).
    simpl in Hc, HcR, HcI. rewrite Hc, HcR, HcI.
    repeat split; try assumption.
    + intros Hres. apply Hiff in Hres as (cl & Hcl & Hfat).
      pose proof Hfat as Hfat'.
      apply (fatal_registered _ _ _ Hok) in Hfat as (h & Hh & Hd & Hr).
      destruct (Hin cl Hcl) as (h' & Hh' & Ha').
      apply (range_elem _ _ _ _ Hok) in Hh'.
      assert (h' = h) as -> by congruence.
      exists events, cl, h. done.
    + intros (events' & cl & h & [= <-] & Hcl & Hh & Hd & _ & Hr).
      apply Hiff. exists cl. split; [exact Hcl|].
      apply (fatal_registered _ _ _ Hok). exists h. done.
    + intros Hnone events' [= <-]. rewrite Hm, (Hrs Hnone), app_nil_r. reflexivity.
  - repeat split; try done; try (rewrite app_nil_r; done).
    intros (events & cl & h & [=] & _).
Qed.

(** C3, as amended.  For every chain with handlers, every event and every
    order in which the runtime ranges over the handlers of the chain, the
    dispatcher calls handlers of the chain that implement the interface of
    the event, in the order of that range and each at most once: the callees
    are an initial segment of the matching handlers in range order, and all of
    them for [Reject] and [Issue], and for [Accept] when it returns nil; the
    matching handlers in range order are a permutation without repetition of
    the chain's handlers that implement the interface. *)
Theorem dispatch_calls_in_range_order range ed ctx cid c w ev events :
  range_ok range ->
  chainHandlers ed !! ChainID ctx = Some events ->
  let out := dispatch ev range ed ctx cid c w in
  (exists rest,
     matching ev (range events) = (callee <$> calls out) ++ rest /\
     (result out = None -> rest = []) /\
     (ev <> EvAccept -> rest = [])) /\
  matching ev (range events) ≡ₚ matching ev (map_to_list events) /\
  NoDup (matching ev (range events)) /\
  (forall id, id ∈ matching ev (range events) <->
              exists h, events !! id = Some h /\ implements ev h = true).
Proof.
  intros Hok Hev. cbv zeta. split; [|split; [|split]].
  - destruct ev; simpl; unfold Accept, Reject, Issue; rewrite Hev.
    + destruct (acceptRange_spec ctx cid c (range events) (range_NoDup _ _ Hok) ed w [])
        as (_ & cs' & Hc & _ & (rs & Hm & Hrs) & _).
      simpl in Hc. rewrite Hc. exists rs. done.
    + destruct (rejectRange_spec ctx cid c (range events) ed w [])
        as (_ & _ & cs' & Hc & Hm & _).
      simpl in Hc. rewrite Hc, Hm. exists []. rewrite app_nil_r. done.
    + destruct (issueRange_spec ctx cid c (range events) ed w [])
        as (_ & _ & cs' & Hc & Hm & _).
      simpl in Hc. rewrite Hc, Hm. exists []. rewrite app_nil_r. done.
  - apply matching_Permutation, Hok.
  - apply matching_NoDup, range_NoDup, Hok.
  - intros id. rewrite matching_elem. split; intros (h & Hh & Hp); exists h;
      (split; [apply (range_elem range events _ _ Hok); exact Hh|exact Hp]).
Qed.

End Dispatcher.

(** *** Two handlers on one chain *)

Definition okMethod : method unit := fun _ _ _ w => (None, w).
Definition failMethod (msg : string) : method unit :=
  fun _ _ _ w => (Some (HandlerError msg), w).

Definition acceptorOnly (m : method unit) : handlerValue unit :=
  {| asAcceptor := Some m; asRejector := None; asIssuer := None |}.

Definition indexerThenAuditor : list (registration unit) :=
  [ mkReg "indexer" (acceptorOnly okMethod) false;
    mkReg "auditor" (acceptorOnly okMethod) false ].

Definition auditorThenIndexer : list (registration unit) :=
  [ mkReg "auditor" (acceptorOnly okMethod) false;
    mkReg "indexer" (acceptorOnly okMethod) false ].

Lemma map_to_list_range_ok : range_ok (World:=unit) map_to_list.
Proof. intros events. reflexivity. Qed.

(** The dispatcher keeps no trace of the order of registration. *)
Lemma registration_order_forgotten :
  registerAll 7%N indexerThenAuditor = registerAll 7%N auditorThenIndexer.
Proof. vm_compute. reflexivity. Qed.

(** C3, as stated, fails: with the auditor registered before the indexer,
    and the handlers ranged over in the order of [map_to_list], [Accept]
    calls the indexer first. *)
Lemma dispatch_not_in_registration_order :
  range_ok (World:=unit) map_to_list /\
  callee <$> calls (Accept map_to_list (registerAll 7%N auditorThenIndexer)
                      (mkCtx 7%N) 1%N [] tt)
    <> registeredFor EvAccept auditorThenIndexer.
Proof.
  split; [exact map_to_list_range_ok|].
  vm_compute. discriminate.
Qed.

Definition auditorAndIndexer : gmap string (handler unit) :=
  <["indexer" := mkHandler (acceptorOnly okMethod) false]>
    (<["auditor" := mkHandler (acceptorOnly okMethod) false]> ∅).

Lemma dispatch_calls_in_range_order_witness :
  NoDup (matching EvAccept (map_to_list auditorAndIndexer)).
Proof.
  refine (proj1 (proj2 (proj2
    (dispatch_calls_in_range_order map_to_list (registerAll 7%N auditorThenIndexer)
       (mkCtx 7%N) 1%N [] tt EvAccept auditorAndIndexer map_to_list_range_ok _)))).
  vm_compute. reflexivity.
Defined.

(** A chain whose first handler fails without [dieOnError] and whose second
    fails with it. *)
Definition flakyThenFatal : EventDispatcher unit :=
  registerAll 7%N
    [ mkReg "a-flaky" (acceptorOnly (failMethod "disk full")) false;
      mkReg "b-fatal" (acceptorOnly (failMethod "corrupt")) true ].

Lemma dispatcher_errors_witness :
  result (Accept map_to_list flakyThenFatal (mkCtx 7%N) 1%N [] tt) <> None.
Proof.
  apply (proj1 (dispatcher_errors map_to_list flakyThenFatal (mkCtx 7%N) 1%N [] tt
                  map_to_list_range_ok)).
  eexists _, (mkCall "b-fatal" (Some (HandlerError "corrupt"))), _.
  split; [vm_compute; reflexivity|].
  split; [vm_compute; apply list_elem_of_In; right; left; reflexivity|].
  split; [vm_compute; reflexivity|].
  split; [reflexivity|]. split; eexists; reflexivity.
Defined.

End TriggersFacts.

(** ** The registry of the event dispatcher *)

Module RegistryFacts.
Import Triggers TriggersFacts.

Section Registry.
Context {World : Type}.
Implicit Types (ed : EventDispatcher World) (h : handler World) (range : rangeOrder World)
  (events : gmap string (handler World)).

(** The handler registered on a chain under an identifier. *)
Definition registered ed (chainID : ID) (identifier : string) : option (handler World) :=
  chainHandlers ed !! chainID ≫= (.!! identifier).

(** No chain is left with an empty map of handlers. *)
Definition tidy ed : Prop :=
  forall chainID events, chainHandlers ed !! chainID = Some events -> events <> ∅.

Lemma registered_insert (m : gmap N (gmap string (handler World))) lg lg' c id h c' id' :
  registered {| log := lg';
                chainHandlers := <[c := <[id := h]> (default ∅ (m !! c))]> m |} c' id' =
  if decide (c' = c /\ id' = id) then Some h
  else registered {| log := lg; chainHandlers := m |} c' id'.
Proof.
  unfold registered. simpl. destruct (decide (c' = c)) as [->|Hc].
  - rewrite lookup_insert_eq. simpl. destruct (decide (id' = id)) as [->|Hid].
    + rewrite lookup_insert_eq, decide_True by done. reflexivity.
    + rewrite lookup_insert_ne, decide_False by (try intros [_ ?]; congruence).
      destruct (m !! c); reflexivity.
  - rewrite lookup_insert_ne, decide_False by (try intros [? _]; congruence). reflexivity.
Qed.

Lemma RegisterChain_spec ed c id hf die :
  match registered ed c id with
  | Some _ => RegisterChain ed c id hf die = (ed, Some (AlreadyExists id c))
  | None =>
      RegisterChain ed c id hf die =
        ({| log := log ed;
            chainHandlers :=
              <[c := <[id := mkHandler hf die]> (default ∅ (chainHandlers ed !! c))]>
                (chainHandlers ed) |}, None)
  end.
Proof.
  unfold RegisterChain, registered.
  destruct (chainHandlers ed !! c) as [events|] eqn:Hc; simpl.
  - destruct (events !! id); reflexivity.
  - rewrite lookup_empty. simpl. rewrite insert_insert_eq. reflexivity.
Qed.

Lemma only_entry events id h id' :
  size events = 1%nat -> events !! id = Some h -> id' <> id -> events !! id' = None.
Proof.
  intros Hsize Hid Hne.
  assert (Hdel : delete id events = ∅).
  { apply map_size_empty_inv. pose proof (map_size_delete_Some id events (mk_is_Some _ _ Hid)). lia. }
  rewrite <- (lookup_delete_ne events id id') by congruence.
  rewrite Hdel. apply lookup_empty.
Qed.

Lemma DeregisterChain_spec ed c id :
  match chainHandlers ed !! c with
  | None => DeregisterChain ed c id = (ed, Some (NoHandlers c))
  | Some events =>
      match events !! id with
      | None => DeregisterChain ed c id = (ed, Some (DoesNotExist id c))
      | Some _ =>
          exists ed', DeregisterChain ed c id = (ed', None) /\ log ed' = log ed /\
            (forall c' id', registered ed' c' id' =
               if decide (c' = c /\ id' = id) then None else registered ed c' id') /\
            (forall c', c' <> c -> chainHandlers ed' !! c' = chainHandlers ed !! c') /\
            chainHandlers ed' !! c =
              (if Nat.eqb (size events) 1 then None else Some (delete id events))
      end
  end.
Proof.
  unfold DeregisterChain.
  destruct (chainHandlers ed !! c) as [events|] eqn:Hc; [|reflexivity].
  destruct (events !! id) as [h|] eqn:Hid; [|reflexivity].
  destruct (Nat.eqb_spec (size events) 1) as [Hsize|Hsize].
  - eexists. split; [reflexivity|]. split; [reflexivity|]. simpl.
    split; [|split; [intros c' Hc'; apply lookup_delete_ne; congruence
                    |apply lookup_delete_eq]].
    intros c' id'. unfold registered. simpl. destruct (decide (c' = c)) as [->|Hne].
    + rewrite lookup_delete_eq, Hc. simpl. case_decide as Hd; [reflexivity|].
      symmetry. apply (only_entry events id h id' Hsize Hid). intros ->. apply Hd. done.
    + rewrite lookup_delete_ne, decide_False by (try intros [? _]; congruence). reflexivity.
  - eexists. split; [reflexivity|]. split; [reflexivity|]. simpl.
    split; [|split; [intros c' Hc'; apply lookup_insert_ne; congruence
                    |apply lookup_insert_eq]].
    intros c' id'. unfold registered. simpl. destruct (decide (c' = c)) as [->|Hne].
    + rewrite lookup_insert_eq, Hc. simpl. destruct (decide (id' = id)) as [->|Hne'].
      * rewrite lookup_delete_eq, decide_True by done. reflexivity.
      * rewrite lookup_delete_ne, decide_False by (try intros [_ ?]; congruence). reflexivity.
    + rewrite lookup_insert_ne, decide_False by (try intros [? _]; congruence). reflexivity.
Qed.

(** The handlers a dispatch calls are registered on the chain of the
    context and implement the interface of the event. *)
Lemma dispatch_callees range ed ctx cid c w ev cl :
  range_ok range ->
  cl ∈ calls (dispatch ev range ed ctx cid c w) ->
  exists h, registered ed (ChainID ctx) (callee cl) = Some h /\ implements ev h = true.
Proof.
  intros Hok. unfold registered.
  destruct ev; simpl; unfold Accept, Reject, Issue;
    destruct (chainHandlers ed !! ChainID ctx) as [events|] eqn:Hev; simpl;
    try (intros H; apply elem_of_nil in H; destruct H).
  - destruct (acceptRange_spec ctx cid c (range events) (range_NoDup _ _ Hok) ed w [])
      as (_ & cs' & Hc & _ & _ & Hin & _).
    simpl in Hc. rewrite Hc. intros Hcl. destruct (Hin cl Hcl) as (h & Hh & Ha).
    exists h. split; [apply (range_elem range events _ _ Hok); exact Hh|].
    apply (implements_Some EvAccept). exact Ha.
  - destruct (rejectRange_spec ctx cid c (range events) ed w [])
      as (_ & _ & cs' & Hc & Hm & _).
    simpl in Hc. rewrite Hc. intros Hcl.
    assert (Hid : callee cl ∈ matching EvReject (range events))
      by (rewrite <- Hm; apply list_elem_of_fmap_2; exact Hcl).
    apply matching_elem in Hid as (h & Hh & Hi).
    exists h. split; [apply (range_elem range events _ _ Hok); exact Hh|exact Hi].
  - destruct (issueRange_spec ctx cid c (range events) ed w [])
      as (_ & _ & cs' & Hc & Hm & _).
    simpl in Hc. rewrite Hc. intros Hcl.
    assert (Hid : callee cl ∈ matching EvIssue (range events))
      by (rewrite <- Hm; apply list_elem_of_fmap_2; exact Hcl).
    apply matching_elem in Hid as (h & Hh & Hi).
    exists h. split; [apply (range_elem range events _ _ Hok); exact Hh|exact Hi].
Qed.

(** A dispatch that runs to its end calls every handler of the chain that
    implements the interface, and none twice. *)
Lemma dispatch_callees_complete range ed ctx cid c w ev id h :
  range_ok range ->
  registered ed (ChainID ctx) id = Some h -> implements ev h = true ->
  let out := dispatch ev range ed ctx cid c w in
  NoDup (callee <$> calls out) /\
  (ev <> EvAccept \/ result out = None -> id ∈ callee <$> calls out).
Proof.
  intros Hok Hreg Himp. unfold registered in Hreg.
  destruct (chainHandlers ed !! ChainID ctx) as [events|] eqn:Hev; [|discriminate].
  simpl in Hreg.
  assert (Hin : id ∈ matching ev (range events)).
  { apply matching_elem. exists h. split; [|exact Himp].
    apply (range_elem range events _ _ Hok). exact Hreg. }
  pose proof (matching_NoDup ev _ (range_NoDup range events Hok)) as Hnd.
  destruct ev; simpl; unfold Accept, Reject, Issue; rewrite Hev.
  - destruct (acceptRange_spec ctx cid c (range events) (range_NoDup _ _ Hok) ed w [])
      as (_ & cs' & Hc & _ & (rs & Hm & Hrs) & _).
    simpl in Hc. rewrite Hc. rewrite Hm in Hnd, Hin. split.
    + apply NoDup_app in Hnd as [Hnd _]. exact Hnd.
    + intros [Hne|Hnone]; [congruence|]. rewrite (Hrs Hnone), app_nil_r in Hin. exact Hin.
  - destruct (rejectRange_spec ctx cid c (range events) ed w [])
      as (_ & _ & cs' & Hc & Hm & _).
    simpl in Hc. rewrite Hc, Hm. split; [exact Hnd|intros _; exact Hin].
  - destruct (issueRange_spec ctx cid c (range events) ed w [])
      as (_ & _ & cs' & Hc & Hm & _).
    simpl in Hc. rewrite Hc, Hm. split; [exact Hnd|intros _; exact Hin].
Qed.

(** X9.  [RegisterChain] fails exactly when the identifier is taken on the chain,
    and then leaves the dispatcher as it is; otherwise the handler is
    registered under the identifier, every other registration is what it
    was, and nothing is logged. *)
Theorem RegisterChain_registers ed chainID identifier hf die :
  let ed' := fst (RegisterChain ed chainID identifier hf die) in
  let err := snd (RegisterChain ed chainID identifier hf die) in
  match registered ed chainID identifier with
  | Some _ => err = Some (AlreadyExists identifier chainID) /\ ed' = ed
  | None =>
      err = None /\ log ed' = log ed /\
      registered ed' chainID identifier = Some (mkHandler hf die) /\
      (forall c' id', ~ (c' = chainID /\ id' = identifier) ->
                      registered ed' c' id' = registered ed c' id') /\
      snd (RegisterChain ed' chainID identifier hf die)
        = Some (AlreadyExists identifier chainID)
  end.
Proof.
  cbv zeta. pose proof (RegisterChain_spec ed chainID identifier hf die) as H.
  destruct (registered ed chainID identifier) as [h0|] eqn:Hreg.
  - rewrite H. done.
  - rewrite H. simpl. split; [done|]. split; [done|].
    assert (Hnew : forall c' id',
      registered {| log := log ed;
                    chainHandlers :=
                      <[chainID := <[identifier := mkHandler hf die]>
                                     (default ∅ (chainHandlers ed !! chainID))]>
                        (chainHandlers ed) |} c' id' =
      if decide (c' = chainID /\ id' = identifier) then Some (mkHandler hf die)
      else registered ed c' id').
    { intros c' id'. rewrite (registered_insert _ (log ed)). destruct ed; reflexivity. }
    split; [rewrite Hnew, decide_True by done; reflexivity|].
    split; [intros c' id' Hne; rewrite Hnew, decide_False by exact Hne; reflexivity|].
    match goal with |- snd (RegisterChain ?e _ _ _ _) = _ =>
      pose proof (RegisterChain_spec e chainID identifier hf die) as H2 end.
    rewrite Hnew, decide_True in H2 by done. rewrite H2. reflexivity.
Qed.

(** X10.  [DeregisterChain] fails, leaving the dispatcher as it is, when the chain
    has no handlers or the identifier is not registered on it; otherwise the
    identifier is free again, every other registration is what it was, and
    the chain is dropped from the dispatcher with its last handler. *)
Theorem DeregisterChain_deregisters ed chainID identifier :
  let ed' := fst (DeregisterChain ed chainID identifier) in
  let err := snd (DeregisterChain ed chainID identifier) in
  match chainHandlers ed !! chainID with
  | None => err = Some (NoHandlers chainID) /\ ed' = ed
  | Some events =>
      match events !! identifier with
      | None => err = Some (DoesNotExist identifier chainID) /\ ed' = ed
      | Some _ =>
          err = None /\ log ed' = log ed /\
          registered ed' chainID identifier = None /\
          (forall c' id', ~ (c' = chainID /\ id' = identifier) ->
                          registered ed' c' id' = registered ed c' id') /\
          (size events = 1%nat -> chainHandlers ed' !! chainID = None)
      end
  end.
Proof.
  cbv zeta. pose proof (DeregisterChain_spec ed chainID identifier) as H.
  destruct (chainHandlers ed !! chainID) as [events|]; [|rewrite H; done].
  destruct (events !! identifier) as [h|]; [|rewrite H; done].
  destruct H as (ed' & -> & Hlog & Hreg & _ & Hc). simpl.
  split; [done|]. split; [exact Hlog|].
  split; [rewrite Hreg, decide_True by done; reflexivity|].
  split; [intros c' id' Hne; rewrite Hreg, decide_False by exact Hne; reflexivity|].
  intros Hsize. rewrite Hc, Hsize. reflexivity.
Qed.

Lemma tidy_New : tidy (@New World).
Proof. intros c events H. simpl in H. rewrite lookup_empty in H. discriminate. Qed.

(** X11.  No operation of the registry leaves a chain with an empty map of
    handlers: a chain has an entry exactly while a handler is registered on
    it. *)
Theorem registry_stays_tidy :
  tidy (@New World) /\
  (forall ed chainID identifier hf die,
     tidy ed -> tidy (fst (RegisterChain ed chainID identifier hf die))) /\
  (forall ed chainID identifier,
     tidy ed -> tidy (fst (DeregisterChain ed chainID identifier))).
Proof.
  split; [|split].
  - exact tidy_New.
  - intros ed c id hf die Htidy.
    pose proof (RegisterChain_spec ed c id hf die) as H.
    destruct (registered ed c id); rewrite H; [exact Htidy|].
    intros c' events. simpl. destruct (decide (c' = c)) as [->|Hne].
    + rewrite lookup_insert_eq. intros [= <-]. apply insert_non_empty.
    + rewrite lookup_insert_ne by congruence. apply Htidy.
  - intros ed c id Htidy.
    pose proof (DeregisterChain_spec ed c id) as H.
    destruct (chainHandlers ed !! c) as [events|] eqn:Hc; [|rewrite H; exact Htidy].
    destruct (events !! id) as [h|] eqn:Hid; [|rewrite H; exact Htidy].
    destruct H as (ed' & -> & _ & _ & Hother & Hthis).
    intros c' events'. simpl. destruct (decide (c' = c)) as [->|Hne].
    + intros Hev. pose proof (eq_trans (eq_sym Hev) Hthis) as E.
      destruct (Nat.eqb_spec (size events) 1) as [Hs|Hs]; [discriminate|].
      injection E as ->. apply map_size_non_empty_iff.
      pose proof (map_size_delete_Some id events (mk_is_Some _ _ Hid)).
      assert (size events <> 0%nat)
        by (apply map_size_non_empty_iff; intros ->; rewrite lookup_empty in Hid; discriminate).
      lia.
    + intros Hev. apply (Htidy c'). exact (eq_trans (eq_sym (Hother c' Hne)) Hev).
Qed.

(** X12.  Registering a handler and deregistering it again gives back the
    dispatcher, when no chain had an empty map of handlers. *)
Theorem Register_Deregister_roundtrip ed chainID identifier hf die :
  tidy ed ->
  snd (RegisterChain ed chainID identifier hf die) = None ->
  DeregisterChain (fst (RegisterChain ed chainID identifier hf die)) chainID identifier
    = (ed, None).
Proof.
  intros Htidy Hok.
  pose proof (RegisterChain_spec ed chainID identifier hf die) as H.
  unfold registered in H.
  destruct (chainHandlers ed !! chainID) as [events|] eqn:Hc; simpl in H.
  - destruct (events !! identifier) as [h0|] eqn:Hid; [rewrite H in Hok; discriminate|].
    rewrite H. unfold DeregisterChain. simpl.
    rewrite lookup_insert_eq, lookup_insert_eq.
    assert (Hsize : size (<[identifier := mkHandler hf die]> events) <> 1%nat).
    { rewrite (map_size_insert_None identifier _ events Hid).
      assert (size events <> 0%nat)
        by (apply map_size_non_empty_iff; exact (Htidy _ _ Hc)).
      lia. }
    apply Nat.eqb_neq in Hsize. rewrite Hsize.
    rewrite insert_insert_eq, (delete_insert_id events identifier) by exact Hid.
    rewrite (insert_id _ _ _ Hc). destruct ed; reflexivity.
  - rewrite H. unfold DeregisterChain. simpl.
    rewrite lookup_insert_eq, lookup_insert_eq.
    replace (size (<[identifier := mkHandler hf die]> (∅ : gmap string (handler World))))
      with 1%nat
      by (rewrite map_size_insert_None by apply lookup_empty; rewrite map_size_empty; done).
    simpl. rewrite (delete_insert_id _ chainID) by exact Hc. destruct ed; reflexivity.
Qed.

(** X13.  A handler that was deregistered is not called any more. *)
Theorem deregistered_never_called range ed chainID identifier ev ctx cid c w cl :
  range_ok range ->
  snd (DeregisterChain ed chainID identifier) = None ->
  ChainID ctx = chainID ->
  cl ∈ calls (dispatch ev range (fst (DeregisterChain ed chainID identifier)) ctx cid c w) ->
  callee cl <> identifier.
Proof.
  intros Hok Hnone Hctx Hcl Heq.
  apply (dispatch_callees range _ ctx cid c w ev cl Hok) in Hcl as (h & Hreg & _).
  pose proof (DeregisterChain_spec ed chainID identifier) as H.
  destruct (chainHandlers ed !! chainID) as [events|]; [|rewrite H in Hnone; discriminate].
  destruct (events !! identifier) as [h0|]; [|rewrite H in Hnone; discriminate].
  destruct H as (ed' & H & _ & Hr & _). rewrite H in Hreg. simpl in Hreg.
  rewrite Hr, decide_True in Hreg by done. discriminate.
Qed.

(** X14.  A handler that was registered is called: once by every [Reject] or
    [Issue] on its chain when it implements the interface, and once by every
    [Accept] that returns nil. *)
Theorem registered_is_called range ed chainID identifier hf die ev ctx cid c w :
  range_ok range ->
  snd (RegisterChain ed chainID identifier hf die) = None ->
  ChainID ctx = chainID ->
  implements ev (mkHandler hf die) = true ->
  let out := dispatch ev range (fst (RegisterChain ed chainID identifier hf die)) ctx cid c w in
  NoDup (callee <$> calls out) /\
  (ev <> EvAccept \/ result out = None -> identifier ∈ callee <$> calls out).
Proof.
  intros Hok Hnone Hctx Himp.
  apply (dispatch_callees_complete range _ ctx cid c w ev identifier (mkHandler hf die) Hok);
    [|exact Himp].
  pose proof (RegisterChain_spec ed chainID identifier hf die) as H.
  destruct (registered ed chainID identifier); [rewrite H in Hnone; discriminate|].
  rewrite H, Hctx. simpl. rewrite (registered_insert _ (log ed)), decide_True by done.
  reflexivity.
Qed.

(** X15.  A dispatch calls handlers of the chain of its context only, and each for
    the interface it implements; on a chain without handlers it does
    nothing. *)
Theorem dispatch_own_chain_only range ed ctx cid c w ev :
  range_ok range ->
  let out := dispatch ev range ed ctx cid c w in
  (forall cl, cl ∈ calls out ->
     exists h, registered ed (ChainID ctx) (callee cl) = Some h /\ implements ev h = true) /\
  (chainHandlers ed !! ChainID ctx = None ->
     calls out = [] /\ result out = None /\ dispatcher out = ed /\ world out = w) /\
  chainHandlers (dispatcher out) = chainHandlers ed.
Proof.
  intros Hok. cbv zeta. split; [|split].
  - intros cl Hcl. exact (dispatch_callees range ed ctx cid c w ev cl Hok Hcl).
  - intros Hnone. destruct ev; simpl; unfold Accept, Reject, Issue; rewrite Hnone; done.
  - destruct ev; simpl; unfold Accept, Reject, Issue;
      destruct (chainHandlers ed !! ChainID ctx) as [events|]; try reflexivity.
    + exact (proj1 (acceptRange_spec ctx cid c (range events) (range_NoDup _ _ Hok) ed w [])).
    + exact (proj1 (proj2 (rejectRange_spec ctx cid c (range events) ed w []))).
    + exact (proj1 (proj2 (issueRange_spec ctx cid c (range events) ed w []))).
Qed.

End Registry.

(** *** An indexer and an auditor on chain 7 *)

Definition indexerOnly : EventDispatcher unit :=
  fst (RegisterChain New 7%N "indexer" (acceptorOnly okMethod) false).

Definition indexerAndAuditor : EventDispatcher unit :=
  fst (RegisterChain indexerOnly 7%N "auditor" (acceptorOnly okMethod) false).

Lemma Register_Deregister_roundtrip_witness :
  DeregisterChain indexerOnly 7%N "indexer" = (New, None).
Proof.
  apply (Register_Deregister_roundtrip New 7%N "indexer" (acceptorOnly okMethod) false).
  - exact tidy_New.
  - reflexivity.
Defined.

Lemma deregistered_never_called_witness :
  callee (mkCall "indexer" None) <> "auditor".
Proof.
  apply (deregistered_never_called map_to_list indexerAndAuditor 7%N "auditor"
           EvAccept (mkCtx 7%N) 1%N [] tt (mkCall "indexer" None)).
  - exact map_to_list_range_ok.
  - vm_compute. reflexivity.
  - reflexivity.
  - vm_compute. apply list_elem_of_In. left. reflexivity.
Defined.

Lemma registered_is_called_witness :
  let out := dispatch EvAccept map_to_list indexerOnly (mkCtx 7%N) 1%N [] tt in
  NoDup (callee <$> calls out) /\
  (EvAccept <> EvAccept \/ result out = None -> "indexer" ∈ callee <$> calls out).
Proof.
  apply (registered_is_called map_to_list New 7%N "indexer" (acceptorOnly okMethod) false
           EvAccept (mkCtx 7%N) 1%N [] tt).
  - exact map_to_list_range_ok.
  - reflexivity.
  - reflexivity.
  - reflexivity.
Defined.

Lemma dispatch_own_chain_only_witness :
  chainHandlers (dispatcher (dispatch EvReject map_to_list indexerAndAuditor (mkCtx 8%N) 1%N [] tt))
  = chainHandlers indexerAndAuditor.
Proof.
  apply (dispatch_own_chain_only map_to_list indexerAndAuditor (mkCtx 8%N) 1%N [] tt EvReject).
  exact map_to_list_range_ok.
Defined.

End RegistryFacts.

(** ** Unique vertices *)

Module AvalancheStateFacts.
Import AvalancheState.

(** *** What the heap and cache operations leave alone *)

(** Everything of a serializer but the heap and the content of the cache. *)
Definition store (s : Serializer) :=
  (versionDB s, edge s, XChainMigrationTime s, ParseTx s,
   dbStatus (state s), dbVertex (state s), dbEdge (state s), cacheSize (state s)).

Lemma store_setHandle l hv s : store (setHandle l hv s) = store s.
Proof. reflexivity. Qed.

Lemma store_setCell c cs s : store (setCell c cs s) = store s.
Proof. reflexivity. Qed.

Lemma store_setCache cache s : store (setCache cache s) = store s.
Proof. reflexivity. Qed.

Lemma store_allocCell cs s : store (allocCell cs s).2 = store s.
Proof. reflexivity. Qed.

Lemma store_allocHandle hv s : store (allocHandle hv s).2 = store s.
Proof. reflexivity. Qed.

Lemma store_Evict l s : store (Evict l s) = store s.
Proof. unfold Evict. repeat case_match; reflexivity. Qed.

Lemma store_makeRoom s : store (makeRoom s) = store s.
Proof.
  unfold makeRoom. repeat case_match; try reflexivity.
  rewrite store_Evict. reflexivity.
Qed.

Lemma store_UniqueVertex l s : store (UniqueVertex l s).2 = store s.
Proof.
  unfold UniqueVertex. repeat case_match; simpl; try reflexivity.
  rewrite store_setCache. apply store_makeRoom.
Qed.

Lemma store_evictKey key s : store (evictKey key s) = store s.
Proof. unfold evictKey. case_match; [|reflexivity]. rewrite store_Evict. reflexivity. Qed.

Lemma store_refreshFromCache l c i s : store (refreshFromCache l c i s) = store s.
Proof.
  unfold refreshFromCache.
  pose proof (store_UniqueVertex l s) as HU.
  destruct (UniqueVertex l s) as [l' s1]. simpl in HU.
  repeat case_match; rewrite ?store_setCell, ?store_setHandle; exact HU.
Qed.

Lemma store_shallowRefresh l s : store (shallowRefresh l s) = store s.
Proof.
  unfold shallowRefresh.
  destruct (handles (heap s) !! l) as [hv|]; [|reflexivity].
  destruct (v hv) as [c|].
  - destruct (cells (heap s) !! c) as [cs|]; [|reflexivity].
    destruct (latest cs); [reflexivity|]. apply store_refreshFromCache.
  - simpl. rewrite lookup_insert_eq. simpl. rewrite store_refreshFromCache. reflexivity.
Qed.

Lemma store_refresh l s : store (refresh l s) = store s.
Proof.
  unfold refresh. repeat case_match; rewrite ?store_setCell; apply store_shallowRefresh.
Qed.

Lemma store_Status l s : store (Status_ l s).2 = store s.
Proof. unfold Status_. repeat case_match; apply store_refresh. Qed.

Lemma store_newHandles ids : forall s, store (newHandles ids s).2 = store s.
Proof.
  induction ids as [|i ids IH]; intros s; simpl; [reflexivity|].
  specialize (IH (allocHandle {| id := i; v := None; time := None |} s).2).
  simpl in IH. destruct (newHandles ids _) as [ls s1]. exact IH.
Qed.

Lemma store_Parents l s : store (Parents l s).2 = store s.
Proof.
  unfold Parents.
  pose proof (store_refresh l s) as HR. destruct (deref l (refresh l s)) as [[[hv c] cs]|]; [|exact HR].
  destruct (vtx cs) as [sv|]; [|exact HR].
  case_bool_decide; [|exact HR].
  pose proof (store_newHandles (svParentIDs sv) (refresh l s)) as HN.
  destruct (newHandles _ _) as [ps s1]. simpl in HN.
  case_match; simpl; rewrite ?store_setCell; congruence.
Qed.

Lemma store_Txs l s : store (Txs l s).2 = store s.
Proof.
  unfold Txs.
  pose proof (store_refresh l s) as HR. destruct (deref l (refresh l s)) as [[[hv c] cs]|]; [|exact HR].
  destruct (vtx cs) as [sv|]; [|exact HR].
  case_bool_decide; [|exact HR].
  destruct (parseInto _ _ _) as [[| |] ts]; simpl; rewrite store_setCell; exact HR.
Qed.

Lemma store_getUniqueVertex i s : store (getUniqueVertex i s).2 = store s.
Proof.
  unfold getUniqueVertex. simpl.
  set (s0 := setHeap _ s).
  pose proof (store_Status (nextHandle (heap s)) s0) as HS.
  destruct (Status_ _ s0) as [[st| |] s1]; simpl in *; try exact HS.
  case_decide; exact HS.
Qed.

Lemma store_checkEdges ids : forall s, store (checkEdges ids s).2 = store s.
Proof.
  induction ids as [|i ids IH]; intros s; simpl; [reflexivity|].
  pose proof (store_getUniqueVertex i s) as HG.
  destruct (getUniqueVertex i s) as [[l| |] s1]; simpl in *; try exact HG.
  repeat case_match; simpl; try exact HG.
  rewrite IH. exact HG.
Qed.

(** Reading the components of the store. *)
Lemma store_eq s s' :
  store s' = store s ->
  versionDB s' = versionDB s /\ edge s' = edge s /\
  XChainMigrationTime s' = XChainMigrationTime s /\ ParseTx s' = ParseTx s /\
  dbStatus (state s') = dbStatus (state s) /\ dbVertex (state s') = dbVertex (state s) /\
  dbEdge (state s') = dbEdge (state s) /\ cacheSize (state s') = cacheSize (state s).
Proof. unfold store. intros [= -> -> -> -> -> -> -> ->]. done. Qed.

(** *** The view of the persistent store *)

(** The authoritative status of a vertex: its status record. *)
Definition statusOf (s : Serializer) (i : ID) : Status := state_Status s i.

(** The vertex a refreshed handle holds: the stored vertex of a fetched
    vertex. *)
Definition vertexOf (s : Serializer) (i : ID) : option StatelessVertex :=
  if Fetched (statusOf s i) then state_Vertex s i else None.

Lemma statusOf_store s s' : store s' = store s -> statusOf s' = statusOf s.
Proof.
  intros H. apply store_eq in H as (_ & _ & _ & _ & H & _).
  unfold statusOf, state_Status. rewrite H. reflexivity.
Qed.

Lemma vertexOf_store s s' : store s' = store s -> vertexOf s' = vertexOf s.
Proof.
  intros H. unfold vertexOf. rewrite (statusOf_store _ _ H).
  apply store_eq in H as (_ & _ & _ & _ & _ & H & _).
  unfold state_Vertex. rewrite H. reflexivity.
Qed.

(** [parseAll]: the transactions of a vertex, parsed in order. *)
Fixpoint parseAll (parse : list Byte.byte -> result Tx) (txBytes : list (list Byte.byte))
  : result (list Tx) :=
  match txBytes with
  | [] => Ok []
  | b :: rest =>
      match parse b with
      | Ok tx =>
          match parseAll parse rest with
          | Ok ts => Ok (tx :: ts)
          | Err e => Err e
          | Panic => Panic
          end
      | Err e => Err e
      | Panic => Panic
      end
  end.

(** *** The invariant of the unique-vertex cache *)

(** Handle [l], of vertex [i], points to the state [c]. *)
Definition points (s : Serializer) (l : ptr) (i : ID) (c : ptr) : Prop :=
  exists hv, handles (heap s) !! l = Some hv /\ id hv = i /\ v hv = Some c.

(** Handle [p] is a handle of vertex [j]. *)
Definition handleOf (s : Serializer) (p : ptr) (j : ID) : Prop :=
  exists hv, handles (heap s) !! p = Some hv /\ id hv = j.

Record coherent (s : Serializer) : Prop := mkCoherent {
  coh_alloc_h : forall l hv, handles (heap s) !! l = Some hv -> (l < nextHandle (heap s))%positive;
  coh_alloc_c : forall c cs, cells (heap s) !! c = Some cs -> (c < nextCell (heap s))%positive;
  coh_ptr : forall l i c, points s l i c -> is_Some (cells (heap s) !! c);
  coh_share : forall l1 l2 i1 i2 c, points s l1 i1 c -> points s l2 i2 c -> i1 = i2;
  coh_cache_nodup : NoDup (uniqueVtx (state s)).*1;
  coh_cache : forall i l, (i, l) ∈ uniqueVtx (state s) ->
    exists c cs, points s l i c /\ cells (heap s) !! c = Some cs /\ latest cs = true;
  coh_latest : forall l i c cs,
    points s l i c -> cells (heap s) !! c = Some cs -> latest cs = true ->
    status cs = statusOf s i /\
    exists l', (i, l') ∈ uniqueVtx (state s) /\ points s l' i c;
  coh_vtx : forall l i c cs sv,
    points s l i c -> cells (heap s) !! c = Some cs -> vtx cs = Some sv ->
    vertexOf s i = Some sv;
  coh_parents : forall l i c cs,
    points s l i c -> cells (heap s) !! c = Some cs -> parents cs <> [] ->
    exists sv, vertexOf s i = Some sv /\ Forall2 (handleOf s) (parents cs) (svParentIDs sv);
  coh_txs : forall l i c cs,
    points s l i c -> cells (heap s) !! c = Some cs -> txs cs <> [] ->
    exists sv ts, vertexOf s i = Some sv /\
                  parseAll (ParseTx s) (svTxs sv) = Ok ts /\ txs cs = Some <$> ts
}.

(** From one state to a later one: handles stay, and stay handles of the
    same vertex. *)
Definition extends (s s' : Serializer) : Prop :=
  forall p j, handleOf s p j -> handleOf s' p j.

Lemma extends_refl s : extends s s.
Proof. intros p j H. exact H. Qed.

Lemma extends_trans s1 s2 s3 : extends s1 s2 -> extends s2 s3 -> extends s1 s3.
Proof. intros H1 H2 p j H. apply H2, H1, H. Qed.

Lemma points_handleOf s l i c : points s l i c -> handleOf s l i.
Proof. intros (hv & H & Hi & _). exists hv. done. Qed.

Lemma Forall2_handleOf_extends s s' ps js :
  extends s s' -> Forall2 (handleOf s) ps js -> Forall2 (handleOf s') ps js.
Proof. intros He H. eapply Forall2_impl; [exact H|]. intros p j. apply He. Qed.

Lemma points_deref s l i c cs :
  points s l i c -> cells (heap s) !! c = Some cs ->
  exists hv, deref l s = Some (hv, c, cs) /\ id hv = i.
Proof.
  intros (hv & Hh & Hi & Hv) Hc. exists hv. split; [|exact Hi].
  unfold deref. rewrite Hh. simpl. rewrite Hv. simpl. rewrite Hc. reflexivity.
Qed.

Lemma deref_points s l hv c cs :
  deref l s = Some (hv, c, cs) ->
  handles (heap s) !! l = Some hv /\ v hv = Some c /\ cells (heap s) !! c = Some cs /\
  points s l (id hv) c.
Proof.
  unfold deref. intros H.
  destruct (handles (heap s) !! l) as [hv'|] eqn:Hh; [|discriminate]. simpl in H.
  destruct (v hv') as [c'|] eqn:Hv; [|discriminate]. simpl in H.
  destruct (cells (heap s) !! c') as [cs'|] eqn:Hc; [|discriminate]. simpl in H.
  injection H as -> -> ->. repeat split; try done. exists hv. done.
Qed.

Lemma deref_setCell s l hv c cs cs' :
  deref l s = Some (hv, c, cs) -> deref l (setCell c cs' s) = Some (hv, c, cs').
Proof.
  intros H. apply deref_points in H as (Hh & Hv & Hc & _).
  unfold deref. simpl. rewrite Hh. simpl. rewrite Hv. simpl.
  rewrite lookup_insert_eq. reflexivity.
Qed.

Lemma deref_intro s l hv c cs :
  handles (heap s) !! l = Some hv -> v hv = Some c -> cells (heap s) !! c = Some cs ->
  deref l s = Some (hv, c, cs).
Proof.
  intros Hh Hv Hc. unfold deref. rewrite Hh. simpl. rewrite Hv. simpl. rewrite Hc.
  reflexivity.
Qed.

(** *** Updates that keep the invariant *)

Lemma points_setCell s c cs l i c' : points (setCell c cs s) l i c' <-> points s l i c'.
Proof. reflexivity. Qed.

Lemma handleOf_setCell s c cs p j : handleOf (setCell c cs s) p j <-> handleOf s p j.
Proof. reflexivity. Qed.

Lemma points_setCache s cache l i c : points (setCache cache s) l i c <-> points s l i c.
Proof. reflexivity. Qed.

Lemma cells_setCell s c cs c' :
  cells (heap (setCell c cs s)) !! c' = if decide (c = c') then Some cs else cells (heap s) !! c'.
Proof. simpl. apply lookup_insert. Qed.

(** Writing fields of a state other than [latest] and [status]. *)
Lemma coherent_setCell s c cs cs' :
  coherent s ->
  cells (heap s) !! c = Some cs ->
  latest cs' = latest cs ->
  status cs' = status cs ->
  (forall sv, vtx cs' = Some sv ->
     vtx cs = Some sv \/ forall l i, points s l i c -> vertexOf s i = Some sv) ->
  (parents cs' = parents cs \/ parents cs' = [] \/
   forall l i, points s l i c ->
     exists sv, vertexOf s i = Some sv /\ Forall2 (handleOf s) (parents cs') (svParentIDs sv)) ->
  (txs cs' = txs cs \/ txs cs' = [] \/
   forall l i, points s l i c ->
     exists sv ts, vertexOf s i = Some sv /\
                   parseAll (ParseTx s) (svTxs sv) = Ok ts /\ txs cs' = Some <$> ts) ->
  coherent (setCell c cs' s).
Proof.
  intros [Hah Hac Hptr Hsh Hnd Hca Hla Hvt Hpa Htx] Hc Hlat Hst Hv Hp Ht.
  constructor.
  - exact Hah.
  - intros c' cs0. rewrite cells_setCell. case_decide as Hcc.
    + subst c'. intros _. exact (Hac _ _ Hc).
    + apply Hac.
  - intros l i c' Hpt. rewrite cells_setCell. case_decide; [eauto|]. exact (Hptr _ _ _ Hpt).
  - exact Hsh.
  - exact Hnd.
  - intros i l Hin. destruct (Hca i l Hin) as (c' & cs0 & Hpt & Hc' & Hl).
    exists c'. destruct (decide (c = c')) as [<-|Hne].
    + exists cs'. rewrite cells_setCell, decide_True by done.
      repeat split; try done. rewrite Hlat. congruence.
    + exists cs0. rewrite cells_setCell, decide_False by done. done.
  - intros l i c' cs0 Hpt. rewrite cells_setCell. case_decide as Hcc.
    + subst c'. intros [= <-] Hl. rewrite Hst. apply (Hla l i c cs Hpt Hc). congruence.
    + exact (Hla l i c' cs0 Hpt).
  - intros l i c' cs0 sv Hpt. rewrite cells_setCell. case_decide as Hcc.
    + subst c'. intros [= <-] Hsv. destruct (Hv sv Hsv) as [Hold|Hnew].
      * exact (Hvt l i c cs sv Hpt Hc Hold).
      * exact (Hnew l i Hpt).
    + exact (Hvt l i c' cs0 sv Hpt).
  - intros l i c' cs0 Hpt. rewrite cells_setCell. case_decide as Hcc.
    + subst c'. intros [= <-] Hne. destruct Hp as [Hp|[Hp|Hp]].
      * rewrite Hp in *. exact (Hpa l i c cs Hpt Hc Hne).
      * congruence.
      * exact (Hp l i Hpt).
    + exact (Hpa l i c' cs0 Hpt).
  - intros l i c' cs0 Hpt. rewrite cells_setCell. case_decide as Hcc.
    + subst c'. intros [= <-] Hne. destruct Ht as [Ht|[Ht|Ht]].
      * rewrite Ht in *. exact (Htx l i c cs Hpt Hc Hne).
      * congruence.
      * exact (Ht l i Hpt).
    + exact (Htx l i c' cs0 Hpt).
Qed.

(** The state of a handle that is not in the cache loses [latest] and its
    parents: what [Evict] does, once the cache has dropped the entry. *)
Lemma coherent_unlatest s c cs :
  coherent s ->
  cells (heap s) !! c = Some cs ->
  (forall i l, (i, l) ∈ uniqueVtx (state s) -> ~ points s l i c) ->
  coherent (setCell c (withParents [] (withLatest false cs)) s).
Proof.
  intros [Hah Hac Hptr Hsh Hnd Hca Hla Hvt Hpa Htx] Hc Hnot.
  constructor.
  - exact Hah.
  - intros c' cs0. rewrite cells_setCell. case_decide as Hcc.
    + subst c'. intros _. exact (Hac _ _ Hc).
    + apply Hac.
  - intros l i c' Hpt. rewrite cells_setCell. case_decide; [eauto|]. exact (Hptr _ _ _ Hpt).
  - exact Hsh.
  - exact Hnd.
  - intros i l Hin. destruct (Hca i l Hin) as (c' & cs0 & Hpt & Hc' & Hl).
    exists c', cs0. rewrite cells_setCell.
    destruct (decide (c = c')) as [<-|Hne]; [|done].
    exfalso. exact (Hnot i l Hin Hpt).
  - intros l i c' cs0 Hpt. rewrite cells_setCell. case_decide as Hcc.
    + subst c'. intros [= <-]. simpl. discriminate.
    + exact (Hla l i c' cs0 Hpt).
  - intros l i c' cs0 sv Hpt. rewrite cells_setCell. case_decide as Hcc.
    + subst c'. intros [= <-] Hsv. exact (Hvt l i c cs sv Hpt Hc Hsv).
    + exact (Hvt l i c' cs0 sv Hpt).
  - intros l i c' cs0 Hpt. rewrite cells_setCell. case_decide as Hcc.
    + subst c'. intros [= <-]. simpl. done.
    + exact (Hpa l i c' cs0 Hpt).
  - intros l i c' cs0 Hpt. rewrite cells_setCell. case_decide as Hcc.
    + subst c'. intros [= <-] Hne. exact (Htx l i c cs Hpt Hc Hne).
    + exact (Htx l i c' cs0 Hpt).
Qed.

(** The cache only matters as a set of entries. *)
Lemma coherent_setCache s cache :
  coherent s ->
  NoDup cache.*1 ->
  (forall e, e ∈ cache -> e ∈ uniqueVtx (state s)) ->
  (forall l i c cs, points s l i c -> cells (heap s) !! c = Some cs -> latest cs = true ->
     exists l', (i, l') ∈ cache /\ points s l' i c) ->
  coherent (setCache cache s).
Proof.
  intros [Hah Hac Hptr Hsh Hnd Hca Hla Hvt Hpa Htx] Hnd' Hsub Hwit.
  constructor; try assumption.
  - intros i l Hin. apply Hca, Hsub, Hin.
  - intros l i c cs Hpt Hc Hl. split.
    + exact (proj1 (Hla l i c cs Hpt Hc Hl)).
    + exact (Hwit l i c cs Hpt Hc Hl).
Qed.

(** A new handle without state. *)
Lemma coherent_allocHandle s i t :
  coherent s ->
  let l := nextHandle (heap s) in
  let s' := (allocHandle {| id := i; v := None; time := t |} s).2 in
  coherent s' /\ extends s s' /\ handleOf s' l i /\
  handles (heap s) !! l = None /\
  handles (heap s') !! l = Some {| id := i; v := None; time := t |} /\
  (forall l' i' c, points s' l' i' c <-> points s l' i' c).
Proof.
  intros Hcoh. cbv zeta.
  assert (Hfresh : handles (heap s) !! nextHandle (heap s) = None).
  { destruct (handles (heap s) !! nextHandle (heap s)) as [hv|] eqn:H; [|done].
    apply (coh_alloc_h s Hcoh) in H. lia. }
  assert (Hpts : forall l' i' c,
             points (allocHandle {| id := i; v := None; time := t |} s).2 l' i' c
             <-> points s l' i' c).
  { intros l' i' c. unfold points. simpl. split; intros (hv & Hh & Hi & Hv).
    - rewrite lookup_insert in Hh. case_decide as Hl.
      + injection Hh as <-. discriminate.
      + exists hv. done.
    - exists hv. rewrite lookup_insert_ne; [done|]. intros <-. congruence. }
  assert (Hext : extends s (allocHandle {| id := i; v := None; time := t |} s).2).
  { intros p j (hv & Hh & Hj). exists hv. simpl.
    rewrite lookup_insert_ne; [done|]. intros <-. congruence. }
  split; [|split; [exact Hext|split; [|split; [exact Hfresh|split; [|exact Hpts]]]]].
  - destruct Hcoh as [Hah Hac Hptr Hsh Hnd Hca Hla Hvt Hpa Htx]. constructor.
    + intros l hv. simpl. rewrite lookup_insert. case_decide as Hl.
      * subst l. intros _. lia.
      * intros H. apply Hah in H. lia.
    + exact Hac.
    + intros l i' c Hp. apply Hpts in Hp. exact (Hptr _ _ _ Hp).
    + intros l1 l2 i1 i2 c H1 H2. apply Hpts in H1, H2. exact (Hsh _ _ _ _ _ H1 H2).
    + exact Hnd.
    + intros i' l Hin. destruct (Hca i' l Hin) as (c & cs & Hp & Hc & Hl).
      exists c, cs. split; [apply Hpts; exact Hp|done].
    + intros l i' c cs Hp Hc Hl. apply Hpts in Hp.
      destruct (Hla l i' c cs Hp Hc Hl) as (Hs & l' & Hin & Hp').
      split; [exact Hs|]. exists l'. split; [exact Hin|apply Hpts; exact Hp'].
    + intros l i' c cs sv Hp. apply Hpts in Hp. exact (Hvt l i' c cs sv Hp).
    + intros l i' c cs Hp Hc Hne. apply Hpts in Hp.
      destruct (Hpa l i' c cs Hp Hc Hne) as (sv & Hv & HF).
      exists sv. split; [exact Hv|]. exact (Forall2_handleOf_extends _ _ _ _ Hext HF).
    + intros l i' c cs Hp. apply Hpts in Hp. exact (Htx l i' c cs Hp).
  - eexists. simpl. rewrite lookup_insert_eq. done.
  - simpl. rewrite lookup_insert_eq. done.
Qed.

(** A handle without state gets the zero state: [vtx.v = &vertexState{}]. *)
Lemma coherent_newCell s l hv :
  coherent s ->
  handles (heap s) !! l = Some hv -> v hv = None ->
  let c := nextCell (heap s) in
  let s' := setHandle l {| id := id hv; v := Some c; time := time hv |}
              (allocCell zeroVertexState s).2 in
  coherent s' /\ extends s s' /\
  deref l s' = Some ({| id := id hv; v := Some c; time := time hv |}, c, zeroVertexState) /\
  (forall l' i c', points s' l' i c' <-> (l' = l /\ i = id hv /\ c' = c) \/ points s l' i c') /\
  (forall c' cs, cells (heap s) !! c' = Some cs -> cells (heap s') !! c' = Some cs).
Proof.
  intros Hcoh Hh Hv. cbv zeta.
  set (c := nextCell (heap s)).
  set (s' := setHandle l _ _).
  assert (Hfresh : cells (heap s) !! c = None).
  { destruct (cells (heap s) !! c) as [cs|] eqn:H; [|done].
    apply (coh_alloc_c s Hcoh) in H. unfold c in H. lia. }
  assert (Hnp : forall i c', ~ points s l i c').
  { intros i c' (hv' & Hh' & _ & Hv'). congruence. }
  assert (Hpts : forall l' i c',
             points s' l' i c' <-> (l' = l /\ i = id hv /\ c' = c) \/ points s l' i c').
  { intros l' i c'. unfold points, s'. simpl. split.
    - intros (hv' & Hh' & Hi & Hv'). rewrite lookup_insert in Hh'. case_decide as Hl.
      + injection Hh' as <-. simpl in *. injection Hv' as <-. left. done.
      + right. exists hv'. done.
    - intros [(-> & -> & ->)|(hv' & Hh' & Hi & Hv')].
      + eexists. rewrite lookup_insert_eq. done.
      + exists hv'. rewrite lookup_insert_ne; [done|]. intros <-. congruence. }
  assert (Hcells : forall c' cs, cells (heap s) !! c' = Some cs ->
                                 cells (heap s') !! c' = Some cs).
  { intros c' cs H. unfold s'. simpl. rewrite lookup_insert_ne; [done|]. intros <-.
    fold c in H. congruence. }
  assert (Hcells' : forall c' cs, cells (heap s') !! c' = Some cs ->
                                  (c' = c /\ cs = zeroVertexState) \/
                                  (c' <> c /\ cells (heap s) !! c' = Some cs)).
  { intros c' cs. unfold s'. simpl. rewrite lookup_insert. case_decide as Hc.
    - intros [= <-]. left. done.
    - intros H. right. done. }
  assert (Hext : extends s s').
  { intros p j (hv' & Hh' & Hj). unfold handleOf, s'. simpl.
    destruct (decide (l = p)) as [<-|Hne].
    - eexists. rewrite lookup_insert_eq. split; [done|]. simpl. congruence.
    - exists hv'. rewrite lookup_insert_ne by done. done. }
  assert (Hold : forall l' i c' cs, points s' l' i c' -> cells (heap s') !! c' = Some cs ->
                   (l' = l /\ i = id hv /\ c' = c /\ cs = zeroVertexState) \/
                   (points s l' i c' /\ cells (heap s) !! c' = Some cs)).
  { intros l' i c' cs Hp Hc. apply Hpts in Hp as [(-> & -> & ->)|Hp].
    - apply Hcells' in Hc as [[_ ->]|[Hne _]]; [left; done|done].
    - right. split; [exact Hp|].
      apply Hcells' in Hc as [[-> ->]|[_ Hc]]; [|exact Hc].
      destruct (coh_ptr s Hcoh _ _ _ Hp) as [cs' Hcs']. congruence. }
  split; [|split; [exact Hext|split; [|split; [exact Hpts|exact Hcells]]]].
  - destruct Hcoh as [Hah Hac Hptr Hsh Hnd Hca Hla Hvt Hpa Htx]. constructor.
    + intros l' hv'. unfold s'. simpl. rewrite lookup_insert. case_decide as Hl.
      * subst l'. intros _. exact (Hah _ _ Hh).
      * apply Hah.
    + intros c' cs Hc. apply Hcells' in Hc as [[-> _]|[_ Hc]].
      * unfold s', c. simpl. lia.
      * apply Hac in Hc. unfold s'. simpl. lia.
    + intros l' i c' Hp. apply Hpts in Hp as [(-> & -> & ->)|Hp].
      * unfold s'. simpl. rewrite lookup_insert_eq. eauto.
      * destruct (Hptr _ _ _ Hp) as [cs Hcs]. exists cs. apply Hcells, Hcs.
    + intros l1 l2 i1 i2 c' H1 H2.
      apply Hpts in H1 as [(_ & E1 & C1)|H1]; apply Hpts in H2 as [(_ & E2 & C2)|H2].
      * congruence.
      * subst c'. destruct (Hptr _ _ _ H2) as [cs Hcs]. congruence.
      * subst c'. destruct (Hptr _ _ _ H1) as [cs Hcs]. congruence.
      * exact (Hsh _ _ _ _ _ H1 H2).
    + exact Hnd.
    + intros i l' Hin. destruct (Hca i l' Hin) as (c' & cs & Hp & Hc & Hl).
      exists c', cs. repeat split; [apply Hpts; right; exact Hp|apply Hcells, Hc|exact Hl].
    + intros l' i c' cs Hp Hc Hl.
      destruct (Hold l' i c' cs Hp Hc) as [(_ & _ & _ & ->)|[Hp' Hc']]; [discriminate|].
      destruct (Hla l' i c' cs Hp' Hc' Hl) as (Hs & l'' & Hin & Hp'').
      split; [exact Hs|]. exists l''. split; [exact Hin|apply Hpts; right; exact Hp''].
    + intros l' i c' cs sv Hp Hc Hsv.
      destruct (Hold l' i c' cs Hp Hc) as [(_ & _ & _ & ->)|[Hp' Hc']]; [discriminate|].
      exact (Hvt l' i c' cs sv Hp' Hc' Hsv).
    + intros l' i c' cs Hp Hc Hne.
      destruct (Hold l' i c' cs Hp Hc) as [(_ & _ & _ & ->)|[Hp' Hc']]; [done|].
      destruct (Hpa l' i c' cs Hp' Hc' Hne) as (sv & Hv' & HF).
      exists sv. split; [exact Hv'|]. exact (Forall2_handleOf_extends _ _ _ _ Hext HF).
    + intros l' i c' cs Hp Hc Hne.
      destruct (Hold l' i c' cs Hp Hc) as [(_ & _ & _ & ->)|[Hp' Hc']]; [done|].
      exact (Htx l' i c' cs Hp' Hc' Hne).
  - unfold deref, s'. simpl. rewrite lookup_insert_eq. simpl.
    rewrite lookup_insert_eq. reflexivity.
Qed.

Lemma NoDup_fst_inj {A B} (l : list (A * B)) k a b :
  NoDup l.*1 -> (k, a) ∈ l -> (k, b) ∈ l -> a = b.
Proof.
  induction l as [|[k' x] l IH]; simpl; intros Hnd Ha Hb.
  - apply elem_of_nil in Ha. done.
  - apply NoDup_cons in Hnd as [Hk Hnd].
    apply elem_of_cons in Ha as [Ha|Ha]; apply elem_of_cons in Hb as [Hb|Hb].
    + congruence.
    + exfalso. apply Hk. injection Ha as -> _. apply (list_elem_of_fmap_2 fst _ _ Hb).
    + exfalso. apply Hk. injection Hb as -> _. apply (list_elem_of_fmap_2 fst _ _ Ha).
    + exact (IH Hnd Ha Hb).
Qed.

Lemma points_fun s l i1 i2 c1 c2 : points s l i1 c1 -> points s l i2 c2 -> i1 = i2 /\ c1 = c2.
Proof. intros (hv1 & H1 & <- & V1) (hv2 & H2 & <- & V2). split; congruence. Qed.

Lemma elem_of_cacheRemove key (cache : list (ID * ptr)) e :
  e ∈ cacheRemove key cache <-> e.1 <> key /\ e ∈ cache.
Proof. unfold cacheRemove. rewrite list_elem_of_filter. reflexivity. Qed.

Lemma NoDup_cacheRemove key (cache : list (ID * ptr)) :
  NoDup cache.*1 -> NoDup (cacheRemove key cache).*1.
Proof.
  intros H. apply (sublist_NoDup _ _ H). apply fmap_sublist, sublist_filter.
Qed.

Lemma cacheFind_Some key (cache : list (ID * ptr)) l :
  cacheFind key cache = Some l -> (key, l) ∈ cache.
Proof.
  unfold cacheFind. destruct (find _ cache) as [[k l']|] eqn:Hf; [|discriminate].
  simpl. intros [= <-]. apply find_some in Hf as [Hin Hk].
  apply bool_decide_eq_true in Hk. simpl in Hk. subst k.
  apply list_elem_of_In. exact Hin.
Qed.

Lemma cacheFind_None key (cache : list (ID * ptr)) :
  cacheFind key cache = None -> key ∉ cache.*1.
Proof.
  unfold cacheFind. destruct (find _ cache) as [[k l']|] eqn:Hf; [discriminate|].
  intros _ Hin. apply list_elem_of_fmap in Hin as ([k l] & -> & Hin).
  apply list_elem_of_In in Hin.
  pose proof (find_none _ _ Hf _ Hin) as Hk. simpl in Hk.
  apply bool_decide_eq_false in Hk. done.
Qed.

(** The cache drops an entry and tells its handle. *)
Lemma coherent_evictEntry s key l c cs :
  coherent s ->
  (key, l) ∈ uniqueVtx (state s) ->
  points s l key c -> cells (heap s) !! c = Some cs ->
  coherent (setCell c (withParents [] (withLatest false cs))
              (setCache (cacheRemove key (uniqueVtx (state s))) s)).
Proof.
  intros Hcoh Hin Hpt Hc.
  pose proof Hcoh as [Hah Hac Hptr Hsh Hnd Hca Hla Hvt Hpa Htx].
  constructor.
  - exact Hah.
  - intros c' cs0. rewrite cells_setCell. case_decide as Hcc.
    + subst c'. intros _. exact (Hac _ _ Hc).
    + apply Hac.
  - intros l0 i c' Hp. rewrite cells_setCell. case_decide; [eauto|]. exact (Hptr _ _ _ Hp).
  - exact Hsh.
  - simpl. apply NoDup_cacheRemove, Hnd.
  - intros i l0 Hin0. simpl in Hin0. apply elem_of_cacheRemove in Hin0 as [Hne Hin0].
    simpl in Hne. destruct (Hca i l0 Hin0) as (c0 & cs0 & Hp0 & Hc0 & Hl0).
    exists c0, cs0. rewrite cells_setCell. rewrite decide_False; [done|].
    intros <-. apply Hne. exact (Hsh _ _ _ _ _ Hp0 Hpt).
  - intros l0 i c' cs0 Hp. rewrite cells_setCell. case_decide as Hcc.
    + subst c'. intros [= <-]. simpl. discriminate.
    + intros Hc0 Hl0. destruct (Hla l0 i c' cs0 Hp Hc0 Hl0) as (Hs & l'' & Hin'' & Hp'').
      split; [exact Hs|]. exists l''. split; [|exact Hp''].
      simpl. apply elem_of_cacheRemove. split; [|exact Hin'']. simpl. intros ->.
      pose proof (NoDup_fst_inj _ _ _ _ Hnd Hin Hin'') as <-.
      destruct (points_fun _ _ _ _ _ _ Hpt Hp'') as [_ E]. congruence.
  - intros l0 i c' cs0 sv Hp. rewrite cells_setCell. case_decide as Hcc.
    + subst c'. intros [= <-] Hsv. exact (Hvt l0 i c cs sv Hp Hc Hsv).
    + exact (Hvt l0 i c' cs0 sv Hp).
  - intros l0 i c' cs0 Hp. rewrite cells_setCell. case_decide as Hcc.
    + subst c'. intros [= <-]. simpl. done.
    + exact (Hpa l0 i c' cs0 Hp).
  - intros l0 i c' cs0 Hp. rewrite cells_setCell. case_decide as Hcc.
    + subst c'. intros [= <-] Hne. exact (Htx l0 i c cs Hp Hc Hne).
    + exact (Htx l0 i c' cs0 Hp).
Qed.

(** A handle whose vertex is not in the cache enters the cache, and its state
    becomes the latest, with the status of the store. *)
Lemma coherent_insert_latest s key l c cs :
  coherent s ->
  points s l key c -> cells (heap s) !! c = Some cs ->
  latest cs = false ->
  key ∉ (uniqueVtx (state s)).*1 ->
  coherent (setCell c (withLatest true (withStatus (statusOf s key) cs))
              (setCache (uniqueVtx (state s) ++ [(key, l)]) s)).
Proof.
  intros Hcoh Hpt Hc Hlat Hkey.
  pose proof Hcoh as [Hah Hac Hptr Hsh Hnd Hca Hla Hvt Hpa Htx].
  constructor.
  - exact Hah.
  - intros c' cs0. rewrite cells_setCell. case_decide as Hcc.
    + subst c'. intros _. exact (Hac _ _ Hc).
    + apply Hac.
  - intros l0 i c' Hp. rewrite cells_setCell. case_decide; [eauto|]. exact (Hptr _ _ _ Hp).
  - exact Hsh.
  - simpl. rewrite fmap_app. apply NoDup_app. split; [exact Hnd|]. split.
    + intros k Hk Hk'. simpl in Hk'. apply list_elem_of_singleton in Hk'. subst k. done.
    + simpl. apply NoDup_singleton.
  - intros i l0 Hin0. simpl in Hin0. apply elem_of_app in Hin0 as [Hin0|Hin0].
    + destruct (Hca i l0 Hin0) as (c0 & cs0 & Hp0 & Hc0 & Hl0).
      exists c0, cs0. rewrite cells_setCell. rewrite decide_False; [done|].
      intros <-. congruence.
    + apply list_elem_of_singleton in Hin0. injection Hin0 as -> ->.
      exists c. eexists. rewrite cells_setCell, decide_True by done.
      split; [exact Hpt|]. split; reflexivity.
  - intros l0 i c' cs0 Hp. rewrite cells_setCell. case_decide as Hcc.
    + subst c'. intros [= <-] _. simpl.
      pose proof (Hsh _ _ _ _ _ Hp Hpt) as ->.
      split; [reflexivity|]. exists l. split; [|exact Hpt].
      simpl. apply elem_of_app. right. apply list_elem_of_singleton. done.
    + intros Hc0 Hl0. destruct (Hla l0 i c' cs0 Hp Hc0 Hl0) as (Hs & l'' & Hin'' & Hp'').
      split; [exact Hs|]. exists l''. split; [|exact Hp''].
      simpl. apply elem_of_app. left. exact Hin''.
  - intros l0 i c' cs0 sv Hp. rewrite cells_setCell. case_decide as Hcc.
    + subst c'. intros [= <-] Hsv. exact (Hvt l0 i c cs sv Hp Hc Hsv).
    + exact (Hvt l0 i c' cs0 sv Hp).
  - intros l0 i c' cs0 Hp. rewrite cells_setCell. case_decide as Hcc.
    + subst c'. intros [= <-] Hne. exact (Hpa l0 i c cs Hp Hc Hne).
    + exact (Hpa l0 i c' cs0 Hp).
  - intros l0 i c' cs0 Hp. rewrite cells_setCell. case_decide as Hcc.
    + subst c'. intros [= <-] Hne. exact (Htx l0 i c cs Hp Hc Hne).
    + exact (Htx l0 i c' cs0 Hp).
Qed.

(** [*vtx = *latest]: a handle that is not in the cache becomes a copy of the
    canonical handle of its vertex. *)
Lemma coherent_copy s l hv l' lv :
  coherent s ->
  handles (heap s) !! l = Some hv ->
  (forall i, (i, l) ∉ uniqueVtx (state s)) ->
  (id hv, l') ∈ uniqueVtx (state s) ->
  handles (heap s) !! l' = Some lv ->
  coherent (setHandle l lv s) /\ extends s (setHandle l lv s) /\
  exists c cs, deref l (setHandle l lv s) = Some (lv, c, cs) /\ id lv = id hv /\
               latest cs = true /\ cells (heap s) !! c = Some cs.
Proof.
  intros Hcoh Hh Hnot Hin Hl'.
  pose proof Hcoh as [Hah Hac Hptr Hsh Hnd Hca Hla Hvt Hpa Htx].
  destruct (Hca _ _ Hin) as (c' & cs' & Hp' & Hc' & Hlat').
  assert (Hlv : id lv = id hv /\ v lv = Some c').
  { destruct Hp' as (lv' & Hlv' & Hi & Hv). split; congruence. }
  destruct Hlv as [Hid Hv].
  assert (Hpts : forall l0 i c,
             points (setHandle l lv s) l0 i c <->
             (l0 = l /\ i = id hv /\ c = c') \/ (l0 <> l /\ points s l0 i c)).
  { intros l0 i c. unfold points. simpl. split.
    - intros (hv0 & Hh0 & Hi0 & Hv0). rewrite lookup_insert in Hh0. case_decide as Hll.
      + injection Hh0 as <-. left. split; [done|]. split; congruence.
      + right. split; [done|]. exists hv0. done.
    - intros [(-> & -> & ->)|(Hne & hv0 & Hh0 & Hi0 & Hv0)].
      + exists lv. rewrite lookup_insert_eq. done.
      + exists hv0. rewrite lookup_insert_ne by done. done. }
  assert (Hcached : forall i l0 c, (i, l0) ∈ uniqueVtx (state s) -> points s l0 i c ->
                                   points (setHandle l lv s) l0 i c).
  { intros i l0 c Hin0 Hp0. apply Hpts. right. split; [|exact Hp0].
    intros ->. exact (Hnot _ Hin0). }
  assert (Hback : forall l0 i c, points (setHandle l lv s) l0 i c ->
                                 exists l1, points s l1 i c).
  { intros l0 i c Hp. apply Hpts in Hp as [(-> & -> & ->)|[_ Hp]]; eauto. }
  assert (Hext : extends s (setHandle l lv s)).
  { intros p j (hv0 & Hh0 & Hj). unfold handleOf. simpl.
    destruct (decide (l = p)) as [<-|Hne].
    - exists lv. rewrite lookup_insert_eq. split; [done|]. congruence.
    - exists hv0. rewrite lookup_insert_ne by done. done. }
  split; [|split; [exact Hext|]].
  - constructor.
    + intros l0 hv0. simpl. rewrite lookup_insert. case_decide as Hll.
      * subst l0. intros _. exact (Hah _ _ Hh).
      * apply Hah.
    + exact Hac.
    + intros l0 i c Hp. destruct (Hback _ _ _ Hp) as [l1 Hp1]. exact (Hptr _ _ _ Hp1).
    + intros l1 l2 i1 i2 c H1 H2.
      apply Hpts in H1 as [(_ & -> & ->)|[_ H1]]; apply Hpts in H2 as [(_ & E2 & C2)|[_ H2]].
      * congruence.
      * exact (Hsh _ _ _ _ _ Hp' H2).
      * subst. exact (Hsh _ _ _ _ _ H1 Hp').
      * exact (Hsh _ _ _ _ _ H1 H2).
    + exact Hnd.
    + intros i l0 Hin0. destruct (Hca i l0 Hin0) as (c & cs & Hp & Hc & Hl).
      exists c, cs. split; [exact (Hcached _ _ _ Hin0 Hp)|done].
    + intros l0 i c cs Hp Hc Hl. destruct (Hback _ _ _ Hp) as [l1 Hp1].
      destruct (Hla l1 i c cs Hp1 Hc Hl) as (Hs & l'' & Hin'' & Hp'').
      split; [exact Hs|]. exists l''. split; [exact Hin''|exact (Hcached _ _ _ Hin'' Hp'')].
    + intros l0 i c cs sv Hp Hc Hsv. destruct (Hback _ _ _ Hp) as [l1 Hp1].
      exact (Hvt l1 i c cs sv Hp1 Hc Hsv).
    + intros l0 i c cs Hp Hc Hne. destruct (Hback _ _ _ Hp) as [l1 Hp1].
      destruct (Hpa l1 i c cs Hp1 Hc Hne) as (sv & Hv' & HF).
      exists sv. split; [exact Hv'|]. exact (Forall2_handleOf_extends _ _ _ _ Hext HF).
    + intros l0 i c cs Hp Hc Hne. destruct (Hback _ _ _ Hp) as [l1 Hp1].
      exact (Htx l1 i c cs Hp1 Hc Hne).
  - exists c', cs'. split; [|done].
    unfold deref. simpl. rewrite lookup_insert_eq. simpl. rewrite Hv. simpl.
    rewrite Hc'. reflexivity.
Qed.

(** *** [shallowRefresh] *)

Lemma cacheRemove_fresh key (cache : list (ID * ptr)) :
  key ∉ cache.*1 -> cacheRemove key cache = cache.
Proof.
  induction cache as [|[k l] cache IH]; intros Hk; [reflexivity|].
  unfold cacheRemove. rewrite filter_cons_True.
  - f_equal. apply IH. intros Hin. apply Hk. simpl. right. exact Hin.
  - simpl. intros ->. apply Hk. simpl. left.
Qed.

Lemma cacheRemove_head k l (rest : list (ID * ptr)) :
  NoDup ((k, l) :: rest).*1 -> cacheRemove k ((k, l) :: rest) = rest.
Proof.
  simpl. intros Hnd. apply NoDup_cons in Hnd as [Hk _].
  unfold cacheRemove. rewrite filter_cons_False by (simpl; intros H; apply H; reflexivity).
  apply cacheRemove_fresh, Hk.
Qed.

Lemma makeRoom_spec s :
  coherent s ->
  coherent (makeRoom s) /\
  handles (heap (makeRoom s)) = handles (heap s) /\
  (forall e, e ∈ uniqueVtx (state (makeRoom s)) -> e ∈ uniqueVtx (state s)) /\
  (forall c cs, cells (heap s) !! c = Some cs -> latest cs = false ->
                cells (heap (makeRoom s)) !! c = Some cs).
Proof.
  intros Hcoh. unfold makeRoom.
  destruct (Nat.max 1 (cacheSize (state s)) <=? length (uniqueVtx (state s)))%nat; [|done].
  destruct (uniqueVtx (state s)) as [|[k0 l0] rest] eqn:Hcache.
  { split; [exact Hcoh|]. split; [reflexivity|]. split; [|done].
    intros e He. rewrite Hcache in He. exact He. }
  assert (Hin : (k0, l0) ∈ uniqueVtx (state s)) by (rewrite Hcache; left).
  destruct (coh_cache s Hcoh _ _ Hin) as (c0 & cs0 & Hp0 & Hc0 & Hl0).
  pose proof Hp0 as (hv0 & Hh0 & Hi0 & Hv0).
  unfold Evict. simpl. rewrite Hh0, Hv0, Hc0.
  pose proof (coherent_evictEntry s k0 l0 c0 cs0 Hcoh Hin Hp0 Hc0) as Hev.
  rewrite Hcache, cacheRemove_head in Hev
    by (rewrite <- Hcache; exact (coh_cache_nodup s Hcoh)).
  split; [exact Hev|]. split; [reflexivity|]. split.
  - intros e He. simpl in He. right. exact He.
  - intros c cs Hc Hl. rewrite cells_setCell. rewrite decide_False; [exact Hc|].
    intros <-. congruence.
Qed.

Lemma refreshFromCache_spec s l hv c cs :
  coherent s ->
  deref l s = Some (hv, c, cs) ->
  latest cs = false ->
  let s' := refreshFromCache l c (id hv) s in
  coherent s' /\ extends s s' /\
  exists hv' c' cs', deref l s' = Some (hv', c', cs') /\ id hv' = id hv /\ latest cs' = true.
Proof.
  intros Hcoh Hd Hlat. cbv zeta.
  apply deref_points in Hd as (Hh & Hv & Hc & Hpt).
  assert (Hnot : forall i, (i, l) ∉ uniqueVtx (state s)).
  { intros i Hin. destruct (coh_cache s Hcoh _ _ Hin) as (c0 & cs0 & Hp0 & Hc0 & Hl0).
    destruct (points_fun _ _ _ _ _ _ Hpt Hp0) as [_ <-]. congruence. }
  unfold refreshFromCache, UniqueVertex. rewrite Hh.
  destruct (cacheFind (id hv) (uniqueVtx (state s))) as [l'|] eqn:Hfind.
  - (* the vertex is in the cache *)
    apply cacheFind_Some in Hfind.
    set (cache' := cacheRemove (id hv) (uniqueVtx (state s)) ++ [(id hv, l')]).
    assert (Hcoh1 : coherent (setCache cache' s)).
    { apply coherent_setCache; [exact Hcoh| | |].
      - unfold cache'. rewrite fmap_app. apply NoDup_app. split; [|split].
        + apply NoDup_cacheRemove, (coh_cache_nodup s Hcoh).
        + intros k Hk Hk'. simpl in Hk'. apply list_elem_of_singleton in Hk'. subst k.
          apply list_elem_of_fmap in Hk as ([k0 l0] & Hk0 & Hin0). simpl in Hk0. subst k0.
          apply elem_of_cacheRemove in Hin0 as [Hne _]. done.
        + simpl. apply NoDup_singleton.
      - intros e He. unfold cache' in He. apply elem_of_app in He as [He|He].
        + apply elem_of_cacheRemove in He as [_ He]. exact He.
        + apply list_elem_of_singleton in He. subst e. exact Hfind.
      - intros l0 i c0 cs0 Hp0 Hc0 Hl0.
        destruct (coh_latest s Hcoh l0 i c0 cs0 Hp0 Hc0 Hl0) as (_ & l'' & Hin'' & Hp'').
        exists l''. split; [|exact Hp'']. unfold cache'. apply elem_of_app.
        destruct (decide (i = id hv)) as [->|Hne].
        + right. apply list_elem_of_singleton.
          rewrite (NoDup_fst_inj _ _ _ _ (coh_cache_nodup s Hcoh) Hin'' Hfind). done.
        + left. apply elem_of_cacheRemove. done. }
    assert (Hne : l' <> l) by (intros ->; exact (Hnot _ Hfind)).
    rewrite bool_decide_eq_false_2 by exact Hne.
    destruct (coh_cache s Hcoh _ _ Hfind) as (c' & cs' & Hp' & Hc' & Hl').
    pose proof Hp' as (lv & Hlv & Hilv & Hvlv).
    change (handles (heap (setCache cache' s)) !! l') with (handles (heap s) !! l').
    rewrite Hlv.
    assert (Hnot1 : forall i, (i, l) ∉ uniqueVtx (state (setCache cache' s))).
    { intros i Hin. simpl in Hin. unfold cache' in Hin. apply elem_of_app in Hin as [Hin|Hin].
      - apply elem_of_cacheRemove in Hin as [_ Hin]. exact (Hnot _ Hin).
      - apply list_elem_of_singleton in Hin. injection Hin as _ E. congruence. }
    assert (Hin1 : (id hv, l') ∈ uniqueVtx (state (setCache cache' s))).
    { simpl. unfold cache'. apply elem_of_app. right. apply list_elem_of_singleton. done. }
    destruct (coherent_copy (setCache cache' s) l hv l' lv Hcoh1 Hh Hnot1 Hin1 Hlv)
      as (Hcoh2 & Hext2 & c2 & cs2 & Hd2 & Hid2 & Hl2 & Hc2).
    set (s2 := setHandle l lv (setCache cache' s)) in *.
    pose proof (deref_points _ _ _ _ _ Hd2) as (Hh2 & Hv2 & Hcs2 & Hpt2).
    rewrite Hh2, Hv2, Hcs2.
    change (cells (heap (setCache cache' s)) !! c) with (cells (heap s) !! c).
    rewrite Hc. simpl.
    destruct (vtx cs2) as [sv2|] eqn:Hvtx2.
    + split; [exact Hcoh2|]. split; [exact Hext2|]. exists lv, c2, cs2. done.
    + split; [|split].
      * apply (coherent_setCell s2 c2 cs2); try done.
        -- simpl. intros sv Hsv. right. intros l0 i Hp0.
           pose proof (coh_share s2 Hcoh2 _ _ _ _ _ Hp0 Hpt2) as ->.
           rewrite Hid2.
           exact (coh_vtx s Hcoh l (id hv) c cs sv Hpt Hc Hsv).
        -- left. reflexivity.
        -- left. reflexivity.
      * exact Hext2.
      * exists lv, c2, (withVtx (vtx cs) cs2). split; [|done].
        apply deref_setCell with (cs := cs2). exact Hd2.
  - (* the vertex is not in the cache *)
    apply cacheFind_None in Hfind.
    destruct (makeRoom_spec s Hcoh) as (Hcoh1 & Hh1 & Hsub1 & Hcells1).
    set (s1 := makeRoom s) in *.
    rewrite bool_decide_eq_true_2 by reflexivity.
    assert (Hpt1 : points s1 l (id hv) c).
    { exists hv. rewrite Hh1. done. }
    pose proof (Hcells1 c cs Hc Hlat) as Hc1.
    assert (Hkey1 : id hv ∉ (uniqueVtx (state s1)).*1).
    { intros Hin. apply Hfind. apply list_elem_of_fmap in Hin as (e & -> & He).
      apply list_elem_of_fmap_2, Hsub1, He. }
    pose proof (coherent_insert_latest s1 (id hv) l c cs Hcoh1 Hpt1 Hc1 Hlat Hkey1) as Hcoh2.
    change (cells (heap (setCache (uniqueVtx (state s1) ++ [(id hv, l)]) s1)) !! c)
      with (cells (heap s1) !! c).
    rewrite Hc1. simpl.
    set (cs2 := withLatest true (withStatus _ cs)) in *.
    set (s2 := setCell c cs2 _) in *.
    assert (Hh2 : handles (heap s2) !! l = Some hv) by (unfold s2; simpl; rewrite Hh1; done).
    assert (Hc2 : cells (heap s2) !! c = Some cs2) by (unfold s2; simpl; apply lookup_insert_eq).
    assert (Hext : extends s s2).
    { intros p j (hv0 & Hh0 & Hj). exists hv0. unfold s2. simpl. rewrite Hh1. done. }
    rewrite Hh1, Hh, Hv, lookup_insert_eq.
    destruct (vtx cs2) as [sv2|] eqn:Hvtx2.
    + split; [exact Hcoh2|]. split; [exact Hext|]. exists hv, c, cs2. split; [|done].
      apply deref_intro; done.
    + split; [|split].
      * apply (coherent_setCell s2 c cs2); try done.
        -- simpl. intros sv Hsv. simpl in Hvtx2. congruence.
        -- left. reflexivity.
        -- left. reflexivity.
      * intros p j Hp. apply handleOf_setCell, Hext, Hp.
      * exists hv, c, (withVtx (vtx cs) cs2). split; [|done].
        apply deref_setCell with (cs := cs2). apply deref_intro; done.
Qed.

Lemma shallowRefresh_spec s l hv :
  coherent s ->
  handles (heap s) !! l = Some hv ->
  let s' := shallowRefresh l s in
  coherent s' /\ extends s s' /\
  exists hv' c cs, deref l s' = Some (hv', c, cs) /\ id hv' = id hv /\ latest cs = true.
Proof.
  intros Hcoh Hh. cbv zeta. unfold shallowRefresh. rewrite Hh.
  destruct (v hv) as [c|] eqn:Hv.
  - assert (Hpt : points s l (id hv) c) by (exists hv; done).
    destruct (coh_ptr s Hcoh _ _ _ Hpt) as [cs Hc]. rewrite Hc.
    destruct (latest cs) eqn:Hlat.
    + split; [exact Hcoh|]. split; [apply extends_refl|].
      exists hv, c, cs. split; [|done].
      unfold deref. rewrite Hh. simpl. rewrite Hv. simpl. rewrite Hc. reflexivity.
    + apply (refreshFromCache_spec s l hv c cs); try done.
      apply deref_intro; done.
  - destruct (coherent_newCell s l hv Hcoh Hh Hv) as (Hcoh0 & Hext0 & Hd0 & _ & _).
    simpl. rewrite lookup_insert_eq.
    set (s0 := setHandle l _ _) in *.
    destruct (refreshFromCache_spec s0 l _ _ _ Hcoh0 Hd0 eq_refl)
      as (Hcoh1 & Hext1 & hv' & c' & cs' & Hd1 & Hid1 & Hl1).
    simpl in *. split; [exact Hcoh1|]. split; [exact (extends_trans _ _ _ Hext0 Hext1)|].
    exists hv', c', cs'. done.
Qed.

(** *** [refresh] and [Status] *)

Lemma vertexOf_fetched s i : Fetched (statusOf s i) = true -> vertexOf s i = state_Vertex s i.
Proof. intros H. unfold vertexOf. rewrite H. reflexivity. Qed.

Lemma vertexOf_unfetched s i : Fetched (statusOf s i) = false -> vertexOf s i = None.
Proof. intros H. unfold vertexOf. rewrite H. reflexivity. Qed.

(** A refreshed handle holds the status and the vertex of the store. *)
Lemma refresh_spec s l hv :
  coherent s ->
  handles (heap s) !! l = Some hv ->
  let s' := refresh l s in
  coherent s' /\ extends s s' /\
  exists hv' c cs,
    deref l s' = Some (hv', c, cs) /\ id hv' = id hv /\
    latest cs = true /\
    status cs = statusOf s (id hv) /\ vtx cs = vertexOf s (id hv).
Proof.
  intros Hcoh Hh. cbv zeta. unfold refresh.
  destruct (shallowRefresh_spec s l hv Hcoh Hh)
    as (Hcoh1 & Hext1 & hv' & c & cs & Hd1 & Hid & Hlat).
  pose proof (store_shallowRefresh l s) as Hst.
  set (s1 := shallowRefresh l s) in *.
  rewrite Hd1.
  pose proof (deref_points _ _ _ _ _ Hd1) as (Hh1 & Hv1 & Hc1 & Hpt1).
  destruct (coh_latest s1 Hcoh1 l _ c cs Hpt1 Hc1 Hlat) as [Hstat _].
  rewrite Hid, (statusOf_store _ _ Hst) in Hstat.
  destruct (vtx cs) as [sv|] eqn:Hvtx.
  - split; [exact Hcoh1|]. split; [exact Hext1|].
    exists hv', c, cs. repeat split; try done.
    pose proof (coh_vtx s1 Hcoh1 l _ c cs sv Hpt1 Hc1 Hvtx) as Hvo.
    rewrite Hid, (vertexOf_store _ _ Hst) in Hvo. congruence.
  - destruct (Fetched (status cs)) eqn:Hf.
    + assert (Hvo : vertexOf s (id hv) = state_Vertex s1 (id hv')).
      { rewrite vertexOf_fetched by congruence. rewrite Hid.
        unfold state_Vertex. apply store_eq in Hst as (_ & _ & _ & _ & _ & -> & _). done. }
      split; [|split].
      * apply (coherent_setCell s1 c cs); try done.
        -- simpl. intros sv Hsv. right. intros l0 i Hp0.
           pose proof (coh_share s1 Hcoh1 _ _ _ _ _ Hp0 Hpt1) as ->.
           rewrite Hid, (vertexOf_store _ _ Hst), Hvo. exact Hsv.
        -- left. reflexivity.
        -- left. reflexivity.
      * intros p j Hp. apply handleOf_setCell, Hext1, Hp.
      * exists hv', c, (withVtx (state_Vertex s1 (id hv')) cs).
        split; [apply deref_setCell with (cs := cs); exact Hd1|].
        repeat split; try done; simpl; congruence.
    + split; [exact Hcoh1|]. split; [exact Hext1|].
      exists hv', c, cs. repeat split; try done.
      rewrite vertexOf_unfetched by congruence. exact Hvtx.
Qed.

(** [Status] on any handle returns the status of the store. *)
Lemma Status_spec s l hv :
  coherent s ->
  handles (heap s) !! l = Some hv ->
  exists s', Status_ l s = (Ok (statusOf s (id hv)), s') /\
             coherent s' /\ extends s s' /\ store s' = store s /\
             exists hv' c cs, deref l s' = Some (hv', c, cs) /\ id hv' = id hv /\
                              latest cs = true /\ vtx cs = vertexOf s (id hv).
Proof.
  intros Hcoh Hh.
  destruct (refresh_spec s l hv Hcoh Hh)
    as (Hcoh1 & Hext1 & hv' & c & cs & Hd1 & Hid & Hlat & Hstat & Hvtx).
  exists (refresh l s). unfold Status_. rewrite Hd1, Hstat.
  split; [reflexivity|]. split; [exact Hcoh1|]. split; [exact Hext1|].
  split; [apply store_refresh|]. exists hv', c, cs. done.
Qed.

(** *** [Parents] *)

Lemma newHandles_spec ids : forall s,
  coherent s ->
  let '(ps, s') := newHandles ids s in
  coherent s' /\ extends s s' /\ Forall2 (handleOf s') ps ids /\
  cells (heap s') = cells (heap s) /\
  (forall l i c, points s' l i c <-> points s l i c).
Proof.
  induction ids as [|i ids IH]; intros s Hcoh; simpl.
  - split; [exact Hcoh|]. split; [apply extends_refl|]. split; [constructor|]. done.
  - destruct (coherent_allocHandle s i None Hcoh) as (Hcoh1 & Hext1 & Hof1 & _ & _ & Hpts1).
    simpl in *. set (s1 := setHeap _ s) in *.
    specialize (IH s1 Hcoh1). destruct (newHandles ids s1) as [ps s2].
    destruct IH as (Hcoh2 & Hext2 & HF & Hcells & Hpts2).
    split; [exact Hcoh2|]. split; [exact (extends_trans _ _ _ Hext1 Hext2)|].
    split; [constructor; [apply Hext2, Hof1|exact HF]|].
    split; [rewrite Hcells; reflexivity|].
    intros l i' c. rewrite Hpts2. apply Hpts1.
Qed.

Lemma Parents_spec s l hv :
  coherent s ->
  handles (heap s) !! l = Some hv ->
  exists s', coherent s' /\ extends s s' /\ store s' = store s /\
    match vertexOf s (id hv) with
    | None => Parents l s = (Err (errFailedParents (statusOf s (id hv))), s')
    | Some sv =>
        exists ps, Parents l s = (Ok ps, s') /\ Forall2 (handleOf s') ps (svParentIDs sv) /\
                   exists hv' c cs, deref l s' = Some (hv', c, cs) /\ id hv' = id hv
    end.
Proof.
  intros Hcoh Hh.
  destruct (refresh_spec s l hv Hcoh Hh)
    as (Hcoh1 & Hext1 & hv' & c & cs & Hd1 & Hid & Hlat & Hstat & Hvtx).
  pose proof (store_refresh l s) as Hst.
  pose proof (store_Parents l s) as HstP.
  unfold Parents in *. set (s1 := refresh l s) in *. rewrite Hd1 in *.
  pose proof (deref_points _ _ _ _ _ Hd1) as (Hh1 & Hv1 & Hc1 & Hpt1).
  rewrite Hvtx in *.
  destruct (vertexOf s (id hv)) as [sv|] eqn:Hvo.
  - case_bool_decide as Hlen.
    + pose proof (newHandles_spec (svParentIDs sv) s1 Hcoh1) as HN.
      pose proof (store_newHandles (svParentIDs sv) s1) as HstN.
      destruct (newHandles (svParentIDs sv) s1) as [ps s2]. simpl in HstN.
      destruct HN as (Hcoh2 & Hext2 & HF & Hcells & Hpts).
      rewrite Hcells, Hc1 in *.
      exists (setCell c (withParents ps cs) s2).
      split; [|split; [|split; [exact HstP|]]].
      * apply (coherent_setCell s2 c cs); try done.
        -- rewrite Hcells. exact Hc1.
        -- simpl. intros sv0 Hsv0. left. exact Hsv0.
        -- right. right. simpl. intros l0 i Hp0. apply Hpts in Hp0.
           pose proof (coh_share s1 Hcoh1 _ _ _ _ _ Hp0 Hpt1) as ->.
           exists sv. split; [|exact HF].
           rewrite Hid, (vertexOf_store s s2); [exact Hvo|].
           rewrite HstN. exact Hst.
        -- left. reflexivity.
      * intros p j Hp. apply handleOf_setCell, Hext2, Hext1, Hp.
      * exists ps. split; [reflexivity|]. split.
        -- eapply Forall2_impl; [exact HF|]. intros p j Hp. apply handleOf_setCell, Hp.
        -- destruct (proj2 (Hpts l (id hv') c) Hpt1) as (hv2 & Hh2 & Hi2 & Hv2).
           exists hv2, c, (withParents ps cs). split; [|congruence].
           apply deref_setCell with (cs := cs). apply deref_intro; try done.
           rewrite Hcells. exact Hc1.
    + exists s1. split; [exact Hcoh1|]. split; [exact Hext1|]. split; [exact Hst|].
      exists (parents cs). split; [reflexivity|]. split; [|exists hv', c, cs; done].
      destruct (parents cs) as [|p ps] eqn:Hps.
      * destruct (svParentIDs sv); [constructor|]. simpl in Hlen. discriminate.
      * destruct (coh_parents s1 Hcoh1 l _ c cs Hpt1 Hc1) as (sv' & Hvo' & HF).
        { rewrite Hps. done. }
        rewrite Hid, (vertexOf_store _ _ Hst), Hvo in Hvo'. injection Hvo' as <-.
        rewrite <- Hps. exact HF.
  - exists s1. rewrite Hstat. done.
Qed.

(** *** [Txs] *)

Lemma parseInto_parseAll parse bs : forall done,
  match parseAll parse bs with
  | Ok ts => parseInto parse bs done = (Ok tt, done ++ (Some <$> ts))
  | Err e => exists ts', parseInto parse bs done = (Err e, ts')
  | Panic => exists ts', parseInto parse bs done = (Panic, ts')
  end.
Proof.
  induction bs as [|b bs IH]; intros done; simpl.
  - rewrite app_nil_r. reflexivity.
  - destruct (parse b) as [tx| |]; [|eauto..].
    specialize (IH (done ++ [Some tx])).
    destruct (parseAll parse bs) as [ts| |]; [|exact IH..].
    rewrite IH, fmap_cons, <- app_assoc. reflexivity.
Qed.

Lemma parseAll_length parse bs ts : parseAll parse bs = Ok ts -> length ts = length bs.
Proof.
  revert ts. induction bs as [|b bs IH]; intros ts; simpl.
  - intros [= <-]. reflexivity.
  - destruct (parse b) as [tx| |]; [|discriminate..].
    destruct (parseAll parse bs) as [ts'| |]; [|discriminate..].
    intros [= <-]. simpl. f_equal. apply IH. reflexivity.
Qed.

Lemma Txs_spec s l hv :
  coherent s ->
  handles (heap s) !! l = Some hv ->
  exists s', store s' = store s /\
    match vertexOf s (id hv) with
    | None => Txs l s = (Err (errFailedTxs (statusOf s (id hv))), s') /\
              coherent s' /\ extends s s'
    | Some sv =>
        match parseAll (ParseTx s) (svTxs sv) with
        | Ok ts => Txs l s = (Ok (Some <$> ts), s') /\ coherent s' /\ extends s s'
        | Err e => Txs l s = (Err e, s')
        | Panic => Txs l s = (Panic, s')
        end
    end.
Proof.
  intros Hcoh Hh.
  destruct (refresh_spec s l hv Hcoh Hh)
    as (Hcoh1 & Hext1 & hv' & c & cs & Hd1 & Hid & Hlat & Hstat & Hvtx).
  pose proof (store_refresh l s) as Hst.
  pose proof (store_Txs l s) as HstT.
  unfold Txs in *. set (s1 := refresh l s) in *. rewrite Hd1 in *.
  pose proof (deref_points _ _ _ _ _ Hd1) as (Hh1 & Hv1 & Hc1 & Hpt1).
  assert (HP : ParseTx s1 = ParseTx s) by (apply store_eq in Hst; tauto).
  rewrite Hvtx in *.
  destruct (vertexOf s (id hv)) as [sv|] eqn:Hvo.
  - rewrite HP in *. case_bool_decide as Hlen.
    + pose proof (parseInto_parseAll (ParseTx s) (svTxs sv) []) as HPI.
      destruct (parseAll (ParseTx s) (svTxs sv)) as [ts|e|] eqn:HPA.
      * rewrite HPI in *. simpl in *.
        exists (setCell c (withTxs (Some <$> ts) cs) s1).
        split; [exact HstT|]. split; [reflexivity|]. split.
        -- apply (coherent_setCell s1 c cs); try done.
           ++ simpl. intros sv0 Hsv0. left. exact Hsv0.
           ++ left. reflexivity.
           ++ right. right. simpl. intros l0 i Hp0.
              pose proof (coh_share s1 Hcoh1 _ _ _ _ _ Hp0 Hpt1) as ->.
              exists sv, ts. rewrite Hid, (vertexOf_store _ _ Hst), HP. done.
        -- intros p j Hp. apply handleOf_setCell, Hext1, Hp.
      * destruct HPI as [ts' HPI]. rewrite HPI in *. simpl in *.
        eexists. split; [exact HstT|reflexivity].
      * destruct HPI as [ts' HPI]. rewrite HPI in *. simpl in *.
        eexists. split; [exact HstT|reflexivity].
    + assert (Hcached : exists ts, parseAll (ParseTx s) (svTxs sv) = Ok ts /\
                                   txs cs = Some <$> ts).
      { destruct (txs cs) as [|t ts0] eqn:Hts.
        - exists []. destruct (svTxs sv); [done|]. simpl in Hlen. discriminate.
        - destruct (coh_txs s1 Hcoh1 l _ c cs Hpt1 Hc1) as (sv' & ts & Hvo' & HPA & Htx).
          { rewrite Hts. done. }
          rewrite Hid, (vertexOf_store _ _ Hst), Hvo in Hvo'. injection Hvo' as <-.
          exists ts. rewrite <- HP, <- Hts. done. }
      destruct Hcached as (ts & HPA & Htx). rewrite HPA, Htx.
      exists s1. done.
  - exists s1. rewrite Hstat. done.
Qed.

(** *** [getUniqueVertex] *)

Lemma getUniqueVertex_spec s i :
  coherent s ->
  exists s', coherent s' /\ extends s s' /\ store s' = store s /\
    if decide (statusOf s i = Unknown)
    then getUniqueVertex i s = (Err errUnknownVertex, s')
    else exists l hv c cs,
           getUniqueVertex i s = (Ok l, s') /\
           deref l s' = Some (hv, c, cs) /\ id hv = i /\ vtx cs = vertexOf s i.
Proof.
  intros Hcoh.
  destruct (coherent_allocHandle s i None Hcoh) as (Hcoh0 & Hext0 & _ & _ & Hh0 & _).
  unfold getUniqueVertex. simpl in *. set (s0 := setHeap _ s) in *.
  destruct (Status_spec s0 _ _ Hcoh0 Hh0)
    as (s1 & HS & Hcoh1 & Hext1 & Hst1 & hv & c & cs & Hd & Hid & _ & Hvtx).
  simpl in *. rewrite HS.
  assert (Hst0 : store s0 = store s) by reflexivity.
  rewrite (statusOf_store _ _ Hst0) .
  rewrite (vertexOf_store _ _ Hst0) in Hvtx.
  exists s1. split; [exact Hcoh1|]. split; [exact (extends_trans _ _ _ Hext0 Hext1)|].
  split; [congruence|].
  destruct (decide (statusOf s i = Unknown)); [reflexivity|].
  exists (nextHandle (heap s)), hv, c, cs. done.
Qed.

(** *** Evictions *)

Lemma evictKey_spec s k :
  coherent s ->
  coherent (evictKey k s) /\
  handles (heap (evictKey k s)) = handles (heap s) /\
  (forall c cs, cells (heap s) !! c = Some cs ->
     exists cs', cells (heap (evictKey k s)) !! c = Some cs' /\
                 (latest cs = false -> latest cs' = false)) /\
  (forall l c cs', points s l k c -> cells (heap (evictKey k s)) !! c = Some cs' ->
                   latest cs' = false).
Proof.
  intros Hcoh. unfold evictKey.
  destruct (cacheFind k (uniqueVtx (state s))) as [l0|] eqn:Hfind.
  - apply cacheFind_Some in Hfind.
    destruct (coh_cache s Hcoh _ _ Hfind) as (c0 & cs0 & Hp0 & Hc0 & Hl0).
    pose proof Hp0 as (hv0 & Hh0 & Hi0 & Hv0).
    unfold Evict. simpl. rewrite Hh0, Hv0, Hc0.
    split; [exact (coherent_evictEntry s k l0 c0 cs0 Hcoh Hfind Hp0 Hc0)|].
    split; [reflexivity|]. split.
    + intros c cs Hc. rewrite cells_setCell. case_decide as Hcc.
      * eexists. split; [reflexivity|]. done.
      * exists cs. done.
    + intros l c cs' Hp. rewrite cells_setCell. case_decide as Hcc.
      * intros [= <-]. reflexivity.
      * intros Hc. destruct (latest cs') eqn:Hl; [|reflexivity]. exfalso.
        destruct (coh_latest s Hcoh l k c cs' Hp Hc Hl) as (_ & l'' & Hin'' & Hp'').
        pose proof (NoDup_fst_inj _ _ _ _ (coh_cache_nodup s Hcoh) Hfind Hin'') as <-.
        destruct (points_fun _ _ _ _ _ _ Hp0 Hp'') as [_ E]. congruence.
  - apply cacheFind_None in Hfind.
    split; [exact Hcoh|]. split; [reflexivity|]. split.
    + intros c cs Hc. exists cs. done.
    + intros l c cs' Hp Hc. destruct (latest cs') eqn:Hl; [|reflexivity]. exfalso.
      destruct (coh_latest s Hcoh l k c cs' Hp Hc Hl) as (_ & l'' & Hin'' & _).
      apply Hfind. apply (list_elem_of_fmap_2 fst _ _ Hin'').
Qed.

(** A sequence of evictions decided by the cache. *)
Definition evictions (keys : list ID) (s : Serializer) : Serializer :=
  foldl (fun s k => evictKey k s) s keys.

Lemma evictions_spec keys : forall s,
  coherent s ->
  coherent (evictions keys s) /\
  handles (heap (evictions keys s)) = handles (heap s) /\
  store (evictions keys s) = store s /\
  (forall c cs, cells (heap s) !! c = Some cs ->
     exists cs', cells (heap (evictions keys s)) !! c = Some cs' /\
                 (latest cs = false -> latest cs' = false)).
Proof.
  induction keys as [|k keys IH]; intros s Hcoh; simpl.
  - split; [exact Hcoh|]. split; [reflexivity|]. split; [reflexivity|]. eauto.
  - destruct (evictKey_spec s k Hcoh) as (Hcoh1 & Hh1 & Hcells1 & _).
    destruct (IH _ Hcoh1) as (Hcoh2 & Hh2 & Hst2 & Hcells2).
    split; [exact Hcoh2|]. split; [congruence|].
    split; [rewrite Hst2; apply store_evictKey|].
    intros c cs Hc. destruct (Hcells1 c cs Hc) as (cs1 & Hc1 & Hl1).
    destruct (Hcells2 c cs1 Hc1) as (cs2 & Hc2 & Hl2).
    exists cs2. split; [exact Hc2|]. auto.
Qed.

(** Once the cache has evicted a vertex, every handle of the vertex is stale:
    its state, if it has one, is not the latest. *)
Lemma evicted_stale s keys l hv c cs :
  coherent s ->
  let s1 := evictions (id hv :: keys) s in
  deref l s1 = Some (hv, c, cs) -> latest cs = false.
Proof.
  intros Hcoh. cbv zeta. simpl. intros Hd.
  destruct (evictKey_spec s (id hv) Hcoh) as (Hcoh1 & Hh1 & Hcells1 & Hstale1).
  destruct (evictions_spec keys _ Hcoh1) as (_ & Hh2 & _ & Hcells2).
  apply deref_points in Hd as (Hh & Hv & Hc & _).
  assert (Hp : points s l (id hv) c).
  { exists hv. rewrite <- Hh1, <- Hh2. done. }
  destruct (coh_ptr s Hcoh _ _ _ Hp) as [cs0 Hc0].
  destruct (Hcells1 c cs0 Hc0) as (cs1 & Hc1 & _).
  pose proof (Hstale1 l c cs1 Hp Hc1) as Hl1.
  destruct (Hcells2 c cs1 Hc1) as (cs2 & Hc2 & Hl2).
  assert (cs2 = cs) as <- by congruence.
  auto.
Qed.

(** C6.  In a coherent serializer, after any sequence of cache evictions,
    [Status] on any handle returns the status the persistent state records
    for the handle's vertex; the handle then points to the latest state of
    the vertex, which it shares with the canonical handle in the cache and
    whose status is that of the persistent state; and [Status] on any other
    handle of the same vertex returns the same status.  When the vertex of
    the handle is among the evicted ones, the handle was stale (its state not
    the latest) before the call. *)
Theorem Status_after_evictions s keys l hv :
  coherent s ->
  handles (heap s) !! l = Some hv ->
  let s1 := evictions keys s in
  (id hv ∈ keys -> forall hv1 c cs, deref l s1 = Some (hv1, c, cs) -> latest cs = false) /\
  exists s2 hv2 c2 cs2,
    Status_ l s1 = (Ok (state_Status s (id hv)), s2) /\
    coherent s2 /\
    deref l s2 = Some (hv2, c2, cs2) /\ id hv2 = id hv /\
    latest cs2 = true /\ status cs2 = state_Status s2 (id hv) /\
    (exists l', (id hv, l') ∈ uniqueVtx (state s2) /\ points s2 l' (id hv) c2) /\
    forall l' hv', handles (heap s2) !! l' = Some hv' -> id hv' = id hv ->
      exists s3, Status_ l' s2 = (Ok (state_Status s (id hv)), s3).
Proof.
  intros Hcoh Hh. cbv zeta.
  destruct (evictions_spec keys s Hcoh) as (Hcoh1 & Hh1 & Hst1 & Hcells1).
  split.
  - intros Hin hv1 c cs Hd.
    assert (hv1 = hv) as ->.
    { pose proof (deref_points _ _ _ _ _ Hd) as (Hd' & _). rewrite Hh1 in Hd'. congruence. }
    apply list_elem_of_split in Hin as (k1 & k2 & ->).
    destruct (evictions_spec k1 s Hcoh) as (Hcoh' & _).
    unfold evictions in Hd. rewrite foldl_app in Hd.
    exact (evicted_stale (evictions k1 s) k2 l hv c cs Hcoh' Hd).
  - assert (Hh1' : handles (heap (evictions keys s)) !! l = Some hv) by (rewrite Hh1; done).
    destruct (Status_spec _ l hv Hcoh1 Hh1')
      as (s2 & HS & Hcoh2 & Hext2 & Hst2 & hv2 & c2 & cs2 & Hd2 & Hid2 & Hl2 & _).
    rewrite (statusOf_store _ _ Hst1) in HS.
    pose proof (deref_points _ _ _ _ _ Hd2) as (Hh2 & Hv2 & Hc2 & Hpt2).
    destruct (coh_latest s2 Hcoh2 l _ c2 cs2 Hpt2 Hc2 Hl2) as [Hstat Hwit].
    rewrite Hid2 in Hstat, Hwit.
    exists s2, hv2, c2, cs2.
    split; [exact HS|]. split; [exact Hcoh2|]. split; [exact Hd2|]. split; [exact Hid2|].
    split; [exact Hl2|]. split; [exact Hstat|]. split; [exact Hwit|].
    intros l' hv' Hh' Hid'.
    destruct (Status_spec s2 l' hv' Hcoh2 Hh') as (s3 & HS3 & _).
    exists s3. rewrite HS3, Hid'. f_equal. f_equal.
    rewrite (statusOf_store _ _ Hst2), (statusOf_store _ _ Hst1). reflexivity.
Qed.

(** *** [setStatus] *)

(** The status record of a vertex is staged. *)
Definition stageStatus (i : ID) (st : Status) (s : Serializer) : Serializer :=
  setState {| uniqueVtx := uniqueVtx (state s); cacheSize := cacheSize (state s);
              dbStatus := <[i := st]> (dbStatus (state s));
              dbVertex := dbVertex (state s); dbEdge := dbEdge (state s) |} s.

(** An operation is logged and takes its outcome from the fault script. *)
Definition logged (op : dbOp) (s : Serializer) : Serializer :=
  setVersionDB {| disk := disk (versionDB s); dbLog := dbLog (versionDB s) ++ [op];
                  faults := tail (faults (versionDB s)) |} s.

(** The outcome the fault script holds for the next operation. *)
Definition nextFault (s : Serializer) : option error :=
  match faults (versionDB s) with
  | Some e :: _ => Some e
  | _ => None
  end.

Lemma dbIssue_eq op s : dbIssue op s = (nextFault s, logged op s).
Proof. reflexivity. Qed.

Lemma state_SetStatus_eq i st s :
  state_SetStatus i st s =
  match nextFault s with
  | Some e => (Some e, logged (OpSetStatus i st) s)
  | None => (None, stageStatus i st (logged (OpSetStatus i st) s))
  end.
Proof. unfold state_SetStatus. rewrite dbIssue_eq. destruct (nextFault s); reflexivity. Qed.

Lemma statusOf_stageStatus i st s j :
  statusOf (stageStatus i st s) j = if decide (i = j) then st else statusOf s j.
Proof.
  unfold statusOf, state_Status. simpl. rewrite lookup_insert.
  case_decide; reflexivity.
Qed.

Lemma vertexOf_stageStatus i st s j sv :
  Fetched st = true -> vertexOf s j = Some sv -> vertexOf (stageStatus i st s) j = Some sv.
Proof.
  intros Hf. unfold vertexOf. rewrite statusOf_stageStatus.
  case_decide as Hij.
  - subst j. rewrite Hf. destruct (Fetched (statusOf s i)); [|discriminate]. done.
  - done.
Qed.

(** Staging a (fetched) status for a vertex whose latest state already holds
    it keeps the invariant. *)
Lemma coherent_stageStatus s l hv c cs st op :
  coherent s ->
  deref l s = Some (hv, c, cs) -> latest cs = true ->
  Fetched st = true ->
  coherent (stageStatus (id hv) st (logged op (setCell c (withStatus st cs) s))).
Proof.
  intros Hcoh Hd Hlat Hf.
  pose proof (deref_points _ _ _ _ _ Hd) as (Hh & Hv & Hc & Hpt).
  pose proof Hcoh as [Hah Hac Hptr Hsh Hnd Hca Hla Hvt Hpa Htx].
  set (s' := stageStatus _ _ _).
  assert (Hcells : forall c', cells (heap s') !! c' =
                     if decide (c = c') then Some (withStatus st cs) else cells (heap s) !! c').
  { intros c'. unfold s'. simpl. apply lookup_insert. }
  assert (Hmono : forall j sv, vertexOf s j = Some sv -> vertexOf s' j = Some sv).
  { intros j sv H. unfold s'. apply vertexOf_stageStatus; [exact Hf|exact H]. }
  constructor.
  - exact Hah.
  - intros c' cs0. rewrite Hcells. case_decide as Hcc.
    + subst c'. intros _. exact (Hac _ _ Hc).
    + apply Hac.
  - intros l0 i c' Hp. rewrite Hcells. case_decide; [eauto|]. exact (Hptr _ _ _ Hp).
  - exact Hsh.
  - exact Hnd.
  - intros i l0 Hin. destruct (Hca i l0 Hin) as (c' & cs0 & Hp & Hc' & Hl).
    exists c'. destruct (decide (c = c')) as [<-|Hne].
    + exists (withStatus st cs). rewrite Hcells, decide_True by done.
      split; [exact Hp|]. split; [reflexivity|]. exact Hlat.
    + exists cs0. rewrite Hcells, decide_False by done. done.
  - intros l0 i c' cs0 Hp. rewrite Hcells. case_decide as Hcc.
    + subst c'. intros [= <-] _. simpl.
      pose proof (Hsh _ _ _ _ _ Hp Hpt) as ->.
      split.
      * unfold s'. rewrite statusOf_stageStatus, decide_True by done. reflexivity.
      * exact (proj2 (Hla l _ c cs Hpt Hc Hlat)).
    + intros Hc0 Hl0. destruct (Hla l0 i c' cs0 Hp Hc0 Hl0) as (Hs & l'' & Hin'' & Hp'').
      split; [|eauto].
      unfold s'. rewrite statusOf_stageStatus. case_decide as Hi; [|exact Hs].
      subst i. exfalso.
      destruct (Hla l _ c cs Hpt Hc Hlat) as (_ & l3 & Hin3 & Hp3).
      pose proof (NoDup_fst_inj _ _ _ _ Hnd Hin'' Hin3) as ->.
      destruct (points_fun _ _ _ _ _ _ Hp'' Hp3) as [_ E]. congruence.
  - intros l0 i c' cs0 sv Hp. rewrite Hcells. case_decide as Hcc.
    + subst c'. intros [= <-] Hsv. apply Hmono. exact (Hvt l0 i c cs sv Hp Hc Hsv).
    + intros Hc0 Hsv. apply Hmono. exact (Hvt l0 i c' cs0 sv Hp Hc0 Hsv).
  - intros l0 i c' cs0 Hp. rewrite Hcells. case_decide as Hcc.
    + subst c'. intros [= <-] Hne. destruct (Hpa l0 i c cs Hp Hc Hne) as (sv & Hv' & HF).
      exists sv. split; [apply Hmono; exact Hv'|exact HF].
    + intros Hc0 Hne. destruct (Hpa l0 i c' cs0 Hp Hc0 Hne) as (sv & Hv' & HF).
      exists sv. split; [apply Hmono; exact Hv'|exact HF].
  - intros l0 i c' cs0 Hp. rewrite Hcells. case_decide as Hcc.
    + subst c'. intros [= <-] Hne. destruct (Htx l0 i c cs Hp Hc Hne) as (sv & ts & Hv' & HP).
      exists sv, ts. split; [apply Hmono; exact Hv'|exact HP].
    + intros Hc0 Hne. destruct (Htx l0 i c' cs0 Hp Hc0 Hne) as (sv & ts & Hv' & HP).
      exists sv, ts. split; [apply Hmono; exact Hv'|exact HP].
Qed.

Lemma setStatus_spec s l hv st :
  coherent s ->
  handles (heap s) !! l = Some hv ->
  Fetched st = true ->
  exists s1 hv1 c cs,
    coherent s1 /\ extends s s1 /\ store s1 = store s /\
    deref l s1 = Some (hv1, c, cs) /\ id hv1 = id hv /\ latest cs = true /\
    if decide (statusOf s (id hv) = st)
    then setStatus l st s = (Ok tt, s1)
    else
      match nextFault s with
      | Some e =>
          setStatus l st s =
            (Err e, logged (OpSetStatus (id hv) st) (setCell c (withStatus st cs) s1))
      | None =>
          setStatus l st s =
            (Ok tt, stageStatus (id hv) st
                      (logged (OpSetStatus (id hv) st) (setCell c (withStatus st cs) s1))) /\
          coherent (stageStatus (id hv) st
                      (logged (OpSetStatus (id hv) st) (setCell c (withStatus st cs) s1)))
      end.
Proof.
  intros Hcoh Hh Hf.
  destruct (shallowRefresh_spec s l hv Hcoh Hh)
    as (Hcoh1 & Hext1 & hv1 & c & cs & Hd1 & Hid & Hlat).
  pose proof (store_shallowRefresh l s) as Hst.
  set (s1 := shallowRefresh l s) in *.
  pose proof (deref_points _ _ _ _ _ Hd1) as (Hh1 & Hv1 & Hc1 & Hpt1).
  destruct (coh_latest s1 Hcoh1 l _ c cs Hpt1 Hc1 Hlat) as [Hstat _].
  rewrite Hid, (statusOf_store _ _ Hst) in Hstat.
  exists s1, hv1, c, cs.
  split; [exact Hcoh1|]. split; [exact Hext1|]. split; [exact Hst|].
  split; [exact Hd1|]. split; [exact Hid|]. split; [exact Hlat|].
  unfold setStatus. fold s1. rewrite Hd1, Hstat.
  destruct (decide (statusOf s (id hv) = st)) as [Heq|Hne]; [reflexivity|].
  rewrite state_SetStatus_eq.
  assert (Hnf : nextFault (setCell c (withStatus st cs) s1) = nextFault s).
  { unfold nextFault. simpl. apply store_eq in Hst as (-> & _). reflexivity. }
  rewrite Hnf, Hid. destruct (nextFault s) as [e|]; [reflexivity|].
  split; [reflexivity|].
  rewrite <- Hid. apply (coherent_stageStatus s1 l hv1 c cs st); done.
Qed.

(** *** [Accept] *)

(** The invariant is about the heap, the cache and the status and vertex
    records: the frontier and the database may change under it. *)
Lemma coherent_frame s s' :
  heap s' = heap s -> uniqueVtx (state s') = uniqueVtx (state s) ->
  dbStatus (state s') = dbStatus (state s) -> dbVertex (state s') = dbVertex (state s) ->
  ParseTx s' = ParseTx s ->
  coherent s -> coherent s'.
Proof.
  destruct s as [hp [cache sz dbs dbv dbe] db e t parse].
  destruct s' as [hp' [cache' sz' dbs' dbv' dbe'] db' e' t' parse'].
  simpl. intros -> -> -> -> -> [Hah Hac Hptr Hsh Hnd Hca Hla Hvt Hpa Htx].
  constructor.
  - exact Hah.
  - exact Hac.
  - exact Hptr.
  - exact Hsh.
  - exact Hnd.
  - exact Hca.
  - exact Hla.
  - exact Hvt.
  - exact Hpa.
  - exact Htx.
Qed.

Lemma setEdgeSet_same s : setEdgeSet (edge s) s = s.
Proof. destruct s. reflexivity. Qed.

(** The loop of [Accept] over the parents removes their identifiers from
    the frontier. *)
Lemma remove_parents ps ids : forall s,
  Forall2 (handleOf s) ps ids ->
  foldl (fun s p => setEdgeSet (edge s ∖ {[ idOf s p ]}) s) s ps =
  setEdgeSet (edge s ∖ list_to_set ids) s.
Proof.
  revert ids. induction ps as [|p ps IH]; intros ids s HF.
  - apply Forall2_nil_inv_l in HF as ->. simpl.
    rewrite difference_empty_L. symmetry. apply setEdgeSet_same.
  - apply Forall2_cons_inv_l in HF as (i & ids' & (hv & Hh & Hid) & HF & ->).
    simpl. rewrite (IH ids') by exact HF.
    unfold idOf. rewrite Hh, Hid. unfold setEdgeSet. simpl. f_equal.
    apply difference_difference_l_L.
Qed.

(** Operations issued in order, up to the first that fails: the failed
    operation with its error, if any, and the database afterwards. *)
Fixpoint issueAll (ops : list dbOp) (db : Database) : option (dbOp * error) * Database :=
  match ops with
  | [] => (None, db)
  | op :: ops =>
      match issue op db with
      | (Some e, db) => (Some (op, e), db)
      | (None, db) => issueAll ops db
      end
  end.

Lemma issueAll_cons op ops s :
  issueAll (op :: ops) (versionDB s) =
  match nextFault s with
  | Some e => (Some (op, e), versionDB (logged op s))
  | None => issueAll ops (versionDB (logged op s))
  end.
Proof. unfold nextFault. simpl. destruct (faults (versionDB s)) as [|[e|] fs]; reflexivity. Qed.

(** What [issueAll] does to the database: a prefix of the operations is
    logged, ending with the first one due to fail, and nothing becomes
    durable. *)
Lemma issueAll_spec ops : forall db,
  exists n, (n <= length ops)%nat /\
    dbLog (issueAll ops db).2 = dbLog db ++ take n ops /\
    faults (issueAll ops db).2 = drop n (faults db) /\
    disk (issueAll ops db).2 = disk db /\
    match (issueAll ops db).1 with
    | None =>
        n = length ops /\
        forall j e', (j < n)%nat -> faults db !! j <> Some (Some e')
    | Some (op, e) =>
        exists k, n = S k /\ ops !! k = Some op /\ faults db !! k = Some (Some e) /\
                  forall j e', (j < k)%nat -> faults db !! j <> Some (Some e')
    end.
Proof.
  induction ops as [|op ops IH]; intros db.
  - exists 0%nat. simpl. rewrite app_nil_r, drop_0.
    do 4 (split; [done|]). split; [done|]. intros; lia.
  - simpl. destruct (faults db) as [|[e|] fs] eqn:Hf.
    + destruct (IH {| disk := disk db; dbLog := dbLog db ++ [op]; faults := [] |})
        as (n & Hn & Hlog & Hfs & Hdisk & Hr).
      exists (S n). simpl in *. split; [lia|]. rewrite Hlog, Hfs, Hdisk, <- app_assoc.
      split; [reflexivity|]. split; [rewrite drop_nil; reflexivity|]. split; [reflexivity|].
      destruct (issueAll ops _).1 as [[op' e']|].
      * destruct Hr as (k & -> & Hop & Hk & _). rewrite lookup_nil in Hk. discriminate.
      * split; [lia|]. intros j e' _. rewrite lookup_nil. discriminate.
    + exists 1%nat. simpl. split; [lia|]. rewrite take_0, drop_0.
      split; [reflexivity|]. split; [reflexivity|]. split; [reflexivity|].
      exists 0%nat. do 3 (split; [done|]). intros; lia.
    + destruct (IH {| disk := disk db; dbLog := dbLog db ++ [op]; faults := fs |})
        as (n & Hn & Hlog & Hfs & Hdisk & Hr).
      exists (S n). simpl in *. split; [lia|]. rewrite Hlog, Hfs, Hdisk, <- app_assoc.
      split; [reflexivity|]. split; [reflexivity|]. split; [reflexivity|].
      destruct (issueAll ops _).1 as [[op' e']|].
      * destruct Hr as (k & -> & Hop & Hk & Hbefore). exists (S k).
        do 3 (split; [done|]). intros [|j] e0 Hj; simpl; [discriminate|].
        apply Hbefore. lia.
      * destruct Hr as [-> Hbefore]. split; [reflexivity|].
        intros [|j] e0 Hj; simpl; [discriminate|]. apply Hbefore. lia.
Qed.

(** The frontier record is staged. *)
Definition stageEdge (fr : list ID) (s : Serializer) : Serializer :=
  setState {| uniqueVtx := uniqueVtx (state s); cacheSize := cacheSize (state s);
              dbStatus := dbStatus (state s); dbVertex := dbVertex (state s);
              dbEdge := fr |} s.

(** The staged records, as a disk image. *)
Definition image (s : Serializer) : diskImage :=
  {| diskStatus := dbStatus (state s); diskVertex := dbVertex (state s);
     diskEdge := dbEdge (state s) |}.

Definition committed (s : Serializer) : Serializer :=
  setVersionDB {| disk := image s; dbLog := dbLog (versionDB s);
                  faults := faults (versionDB s) |} s.

Lemma state_SetEdge_eq fr s :
  state_SetEdge fr s =
  match nextFault s with
  | Some e => (Some e, logged (OpSetEdge fr) s)
  | None => (None, stageEdge fr (logged (OpSetEdge fr) s))
  end.
Proof. unfold state_SetEdge. rewrite dbIssue_eq. destruct (nextFault s); reflexivity. Qed.

Lemma Commit_eq s :
  Commit s =
  match nextFault s with
  | Some e => (Some e, logged OpCommit s)
  | None => (None, committed (logged OpCommit s))
  end.
Proof. unfold Commit. rewrite dbIssue_eq. destruct (nextFault s); reflexivity. Qed.

(** The frontier once vertex [i] is accepted: [i] comes in, its parents go
    out. *)
Definition newFrontier (s : Serializer) (i : ID) (sv : StatelessVertex) : gset N :=
  ({[ i ]} ∪ edge s) ∖ list_to_set (svParentIDs sv).

Lemma nextFault_versionDB s s' : versionDB s' = versionDB s -> nextFault s' = nextFault s.
Proof. unfold nextFault. intros ->. reflexivity. Qed.

Lemma logged_versionDB op s s' :
  versionDB s' = versionDB s -> versionDB (logged op s') = versionDB (logged op s).
Proof. unfold logged. simpl. intros ->. reflexivity. Qed.

Lemma acceptFrontier_spec s l hv sv :
  coherent s ->
  handles (heap s) !! l = Some hv ->
  vertexOf s (id hv) = Some sv ->
  exists r s', acceptFrontier l s = (r, s') /\
    edge s' = newFrontier s (id hv) sv /\
    dbStatus (state s') = dbStatus (state s) /\
    dbVertex (state s') = dbVertex (state s) /\
    match issueAll [OpSetEdge (elements (newFrontier s (id hv) sv)); OpCommit] (versionDB s) with
    | (Some (op, e), db) =>
        r = Err (match op with OpSetEdge _ => errSetEdge (id hv) e | _ => e end) /\
        versionDB s' = db
    | (None, db) =>
        r = Ok tt /\ dbEdge (state s') = elements (newFrontier s (id hv) sv) /\
        versionDB s' = {| disk := image s'; dbLog := dbLog db; faults := faults db |}
    end.
Proof.
  intros Hcoh Hh Hsv. unfold acceptFrontier.
  assert (Hidl : idOf s l = id hv) by (unfold idOf; rewrite Hh; reflexivity).
  rewrite Hidl. set (s0 := setEdgeSet ({[id hv]} ∪ edge s) s).
  assert (Hcoh0 : coherent s0) by (apply (coherent_frame s); done).
  destruct (Parents_spec s0 l hv Hcoh0 Hh) as (s1 & Hcoh1 & Hext1 & Hst1 & HP).
  change (vertexOf s0 (id hv)) with (vertexOf s (id hv)) in HP. rewrite Hsv in HP.
  destruct HP as (ps & -> & HF & hv1 & c & cs & Hd1 & Hid1).
  rewrite (remove_parents ps _ s1 HF).
  apply store_eq in Hst1 as (Hdb & Hedge & _ & _ & Hdbs & Hdbv & Hdbe & _).
  simpl in Hdb, Hedge, Hdbs, Hdbv, Hdbe.
  rewrite Hedge. fold (newFrontier s (id hv) sv). set (F := newFrontier s (id hv) sv).
  set (s2 := setEdgeSet F s1).
  assert (Hdb2 : versionDB s2 = versionDB s) by exact Hdb.
  change (Edge s2) with (elements F).
  rewrite state_SetEdge_eq, issueAll_cons, (nextFault_versionDB s s2 Hdb2).
  pose proof (deref_points _ _ _ _ _ Hd1) as (Hh1 & Hv1 & Hc1 & Hpt1).
  destruct (nextFault s) as [e|].
  - eexists _, _. split; [reflexivity|]. split; [reflexivity|].
    split; [exact Hdbs|]. split; [exact Hdbv|].
    split; [|apply logged_versionDB; exact Hdb2].
    unfold idOf. simpl. rewrite Hh1, Hid1. reflexivity.
  - set (s3 := stageEdge (elements F) (logged (OpSetEdge (elements F)) s2)).
    unfold clearParents. change (deref l s3) with (deref l s1). rewrite Hd1.
    set (s4 := setCell c (withParents [] cs) s3).
    assert (Hdb4 : versionDB s4 = versionDB (logged (OpSetEdge (elements F)) s))
      by (apply logged_versionDB; exact Hdb2).
    rewrite Commit_eq, issueAll_cons, (nextFault_versionDB _ s4 Hdb4).
    destruct (nextFault (logged (OpSetEdge (elements F)) s)) as [e|].
    + eexists _, _. split; [reflexivity|]. split; [reflexivity|].
      split; [exact Hdbs|]. split; [exact Hdbv|]. split; [reflexivity|].
      apply logged_versionDB; exact Hdb4.
    + eexists _, _. split; [reflexivity|]. split; [reflexivity|].
      split; [exact Hdbs|]. split; [exact Hdbv|]. split; [reflexivity|].
      split; [reflexivity|]. simpl. unfold image, committed. simpl.
      rewrite Hdb. reflexivity.
Qed.

(** The database operations of [Accept] on vertex [i]: the status record
    (unless the vertex is accepted already), the frontier record, and one
    commit. *)
Definition acceptOps (s : Serializer) (i : ID) (sv : StatelessVertex) : list dbOp :=
  (if decide (statusOf s i = Accepted) then [] else [OpSetStatus i Accepted]) ++
  [OpSetEdge (elements (newFrontier s i sv)); OpCommit].

(** The error [Accept] returns when a database operation fails. *)
Definition acceptError (i : ID) (op : dbOp) (e : error) : error :=
  match op with
  | OpSetEdge _ => errSetEdge i e
  | _ => e
  end.

Lemma Accept_run s l hv sv :
  coherent s ->
  handles (heap s) !! l = Some hv ->
  state_Vertex s (id hv) = Some sv ->
  exists r s', Accept l s = (r, s') /\
    match issueAll (acceptOps s (id hv) sv) (versionDB s) with
    | (Some (op, e), db) => r = Err (acceptError (id hv) op e) /\ versionDB s' = db
    | (None, db) =>
        r = Ok tt /\ statusOf s' (id hv) = Accepted /\
        edge s' = newFrontier s (id hv) sv /\
        dbEdge (state s') = elements (newFrontier s (id hv) sv) /\
        versionDB s' = {| disk := image s'; dbLog := dbLog db; faults := faults db |}
    end.
Proof.
  intros Hcoh Hh Hsv.
  destruct (setStatus_spec s l hv Accepted Hcoh Hh eq_refl)
    as (s1 & hv1 & c & cs & Hcoh1 & Hext1 & Hst1 & Hd1 & Hid1 & Hlat1 & Hset).
  pose proof (deref_points _ _ _ _ _ Hd1) as (Hh1 & Hv1 & Hc1 & Hpt1).
  pose proof (statusOf_store _ _ Hst1) as Hstat1.
  pose proof (store_eq _ _ Hst1) as (Hdb & Hedge & _ & _ & Hdbs & Hdbv & _).
  unfold Accept, acceptOps.
  destruct (decide (statusOf s (id hv) = Accepted)) as [Hacc|Hnacc].
  - rewrite Hset. simpl app.
    assert (Hsv1 : vertexOf s1 (id hv1) = Some sv).
    { rewrite Hid1. unfold vertexOf. rewrite Hstat1, Hacc. simpl.
      unfold state_Vertex. rewrite Hdbv. exact Hsv. }
    destruct (acceptFrontier_spec s1 l hv1 sv Hcoh1 Hh1 Hsv1)
      as (r & s' & -> & He & Hs & Hv & Hrun).
    exists r, s'. split; [reflexivity|].
    rewrite Hid1 in He, Hrun.
    assert (HF : newFrontier s1 (id hv) sv = newFrontier s (id hv) sv)
      by (unfold newFrontier; rewrite Hedge; reflexivity).
    rewrite HF, Hdb in Hrun. rewrite HF in He.
    destruct (issueAll _ (versionDB s)) as [[[op e]|] db]; [exact Hrun|].
    destruct Hrun as (-> & Hde & Hvdb). split; [reflexivity|].
    split; [|done].
    unfold statusOf, state_Status. rewrite Hs, Hdbs. exact Hacc.
  - cbn [app]. rewrite issueAll_cons. destruct (nextFault s) as [e|].
    + rewrite Hset. eexists _, _. split; [reflexivity|]. split; [reflexivity|].
      apply logged_versionDB. exact Hdb.
    + destruct Hset as [-> HcohA].
      set (sA := stageStatus (id hv) Accepted _) in *.
      assert (HsvA : vertexOf sA (id hv1) = Some sv).
      { rewrite Hid1. unfold vertexOf, sA. rewrite statusOf_stageStatus, decide_True by done.
        simpl. unfold state_Vertex. simpl. rewrite Hdbv. exact Hsv. }
      destruct (acceptFrontier_spec sA l hv1 sv HcohA Hh1 HsvA)
        as (r & s' & -> & He & Hs & Hv & Hrun).
      exists r, s'. split; [reflexivity|].
      rewrite Hid1 in He, Hrun.
      assert (HF : newFrontier sA (id hv) sv = newFrontier s (id hv) sv)
        by (unfold newFrontier; simpl; rewrite Hedge; reflexivity).
      assert (HdbA : versionDB sA = versionDB (logged (OpSetStatus (id hv) Accepted) s))
        by (apply (logged_versionDB _ s (setCell c (withStatus Accepted cs) s1)); exact Hdb).
      rewrite HF, HdbA in Hrun. rewrite HF in He.
      destruct (issueAll _ (versionDB (logged _ s))) as [[[op e]|] db]; [exact Hrun|].
      destruct Hrun as (-> & Hde & Hvdb). split; [reflexivity|].
      split; [|done].
      unfold statusOf, state_Status. rewrite Hs. simpl. rewrite lookup_insert_eq. reflexivity.
Qed.

(** C1.  For a handle of a stored vertex V, in a state that satisfies the
    invariant of the unique-vertex cache, [Accept] issues to the database,
    in this order: the status record of V as Accepted (skipped when V is
    accepted already), the record of the new frontier - the old one with V
    inserted and the parents of V removed -, and one commit.  It stops at
    the first operation that fails and returns its error (the one of the
    frontier record wrapped): the log then ends with the failed operation
    and nothing was made durable.  When no operation fails it returns nil,
    the status of V is Accepted, the frontier is the new one, and all staged
    records are durable. *)
Theorem Accept_sequence s l hv sv :
  coherent s ->
  handles (heap s) !! l = Some hv ->
  state_Vertex s (id hv) = Some sv ->
  exists r s' n,
    Accept l s = (r, s') /\
    dbLog (versionDB s') = dbLog (versionDB s) ++ take n (acceptOps s (id hv) sv) /\
    (forall j e, (j < n - 1)%nat -> faults (versionDB s) !! j <> Some (Some e)) /\
    match r with
    | Ok _ =>
        n = length (acceptOps s (id hv) sv) /\
        (forall e, faults (versionDB s) !! (n - 1)%nat <> Some (Some e)) /\
        statusOf s' (id hv) = Accepted /\
        edge s' = newFrontier s (id hv) sv /\
        dbEdge (state s') = elements (newFrontier s (id hv) sv) /\
        disk (versionDB s') = image s'
    | Err e =>
        exists op e0, acceptOps s (id hv) sv !! (n - 1)%nat = Some op /\
          (0 < n)%nat /\
          faults (versionDB s) !! (n - 1)%nat = Some (Some e0) /\
          e = acceptError (id hv) op e0 /\
          disk (versionDB s') = disk (versionDB s)
    | Panic => False
    end.
Proof.
  intros Hcoh Hh Hsv.
  destruct (Accept_run s l hv sv Hcoh Hh Hsv) as (r & s' & HA & Hrun).
  destruct (issueAll_spec (acceptOps s (id hv) sv) (versionDB s))
    as (n & Hn & Hlog & Hfs & Hdisk & Hout).
  destruct (issueAll _ (versionDB s)) as [[[op e]|] db]; simpl in *.
  - destruct Hrun as [-> Hdb]. destruct Hout as (k & -> & Hop & Hk & Hbefore).
    exists (Err (acceptError (id hv) op e)), s', (S k).
    replace (S k - 1)%nat with k by lia. rewrite Hdb.
    split; [exact HA|]. split; [exact Hlog|]. split; [exact Hbefore|].
    exists op, e. split; [exact Hop|]. split; [lia|]. done.
  - destruct Hrun as (-> & Hstat & Hedge & Hdbe & Hdb). destruct Hout as [-> Hbefore].
    exists (Ok tt), s', (length (acceptOps s (id hv) sv)).
    split; [exact HA|]. rewrite Hdb. simpl.
    split; [exact Hlog|].
    assert (Hlen : (0 < length (acceptOps s (id hv) sv))%nat).
    { unfold acceptOps. rewrite length_app. simpl. lia. }
    split; [intros j e Hj; apply Hbefore; lia|].
    split; [reflexivity|]. split; [intros e; apply Hbefore; lia|]. done.
Qed.

(** C7.  For a vertex flagged as a stop vertex (whose stateless vertex
    passes its own verification, as every vertex that was parsed or built
    does), when the clock - the handle's test clock if it has one, the wall
    clock otherwise - reads a time before [XChainMigrationTime], [Verify]
    returns [errStopVertexNotAllowedTimestamp] and the serializer, with its
    heap, cache, frontier and database, is exactly what it was. *)
Theorem Verify_before_activation range now fuel l s hv c cs sv :
  deref l s = Some (hv, c, cs) ->
  vtx cs = Some sv ->
  svVerify sv = None ->
  svStopVertex sv = true ->
  match time hv with Some t => t | None => now end < XChainMigrationTime s ->
  Verify range now fuel l s = Some (Err errStopVertexNotAllowedTimestamp, s).
Proof.
  intros Hd Hv Hok Hstop Hnow. unfold Verify.
  rewrite Hd, Hv, Hok, Hstop. simpl.
  destruct (Z.ltb_spec (match time hv with Some t => t | None => now end)
              (XChainMigrationTime s)) as [_|Hge]; [reflexivity|lia].
Qed.

(** *** [Verify]: the accepted frontier *)

(** Is the stored vertex [i] a stop vertex? *)
Definition isStop (s : Serializer) (i : ID) : bool :=
  match vertexOf s i with
  | Some sv => svStopVertex sv
  | None => false
  end.

Lemma isStop_store s s' : store s' = store s -> isStop s' = isStop s.
Proof. intros H. unfold isStop. rewrite (vertexOf_store _ _ H). reflexivity. Qed.

Lemma vertexOf_known s i : is_Some (vertexOf s i) -> statusOf s i <> Unknown.
Proof.
  unfold vertexOf. intros [sv H] Hu. rewrite Hu in H. discriminate.
Qed.

(** The loop over the frontier, all of whose vertices are stored: it fails
    exactly when one of them is a stop vertex. *)
Lemma checkEdges_spec ids : forall s,
  coherent s ->
  (forall i, i ∈ ids -> is_Some (vertexOf s i)) ->
  exists s', coherent s' /\ extends s s' /\ store s' = store s /\
    checkEdges ids s =
      (if existsb (isStop s) ids then Err errStopVertexAlreadyAccepted else Ok tt, s').
Proof.
  induction ids as [|i ids IH]; intros s Hcoh Hknown.
  - exists s. split; [exact Hcoh|]. split; [apply extends_refl|]. done.
  - destruct (getUniqueVertex_spec s i Hcoh) as (s1 & Hcoh1 & Hext1 & Hst1 & Hget).
    destruct (Hknown i) as [sv Hsv]; [left|].
    rewrite decide_False in Hget by (apply vertexOf_known; rewrite Hsv; eauto).
    destruct Hget as (l & hv & c & cs & Hget & Hd & Hid & Hvtx).
    simpl. rewrite Hget, Hd, Hvtx, Hsv. unfold isStop at 1. rewrite Hsv.
    destruct (svStopVertex sv).
    + exists s1. done.
    + destruct (IH s1 Hcoh1) as (s2 & Hcoh2 & Hext2 & Hst2 & Hchk).
      { intros j Hj. rewrite (vertexOf_store _ _ Hst1). apply Hknown. right. exact Hj. }
      exists s2. split; [exact Hcoh2|]. split; [exact (extends_trans _ _ _ Hext1 Hext2)|].
      split; [congruence|]. rewrite Hchk, (isStop_store _ _ Hst1). reflexivity.
Qed.

Lemma existsb_elem_of {A} (f : A -> bool) (xs : list A) :
  existsb f xs = true <-> exists x, x ∈ xs /\ f x = true.
Proof.
  rewrite existsb_exists. split; intros (x & Hx & Hf); exists x; split; try done.
  - apply list_elem_of_In. exact Hx.
  - apply list_elem_of_In. exact Hx.
Qed.

(** The frontier as [Verify] ranges over it. *)
Lemma range_frontier range s i :
  range_ok range -> i ∈ range (list_to_set (Edge s)) <-> i ∈ edge s.
Proof.
  intros Hr. unfold Edge. rewrite list_to_set_elements_L, (Hr (edge s)).
  apply elem_of_elements.
Qed.


End AvalancheStateFacts.

(** ** The search of [Verify] for stop vertices *)

Module StopVertexFacts.
Import AvalancheState AvalancheStateFacts.

(** The dependencies of a transaction that are not accepted. *)
Definition pendingOf (tx : Tx) : gset N :=
  match txDependencies tx with
  | Ok ds => pendingDeps ds
  | _ => ∅
  end.

Definition depsKnown (tx : Tx) : Prop := exists ds, txDependencies tx = Ok ds.

Lemma scanTxs_Ok ts : forall P D P' D',
  scanTxs (Some <$> ts) P D = Ok (P', D') ->
  Forall depsKnown ts /\
  P' = list_to_set (txID <$> ts) ∪ P /\
  D' = ⋃ (pendingOf <$> ts) ∪ D.
Proof.
  induction ts as [|tx ts IH]; intros P D P' D'.
  - simpl. intros [= <- <-]. split; [constructor|]. split; set_solver.
  - rewrite fmap_cons. simpl.
    destruct (txDependencies tx) as [ds| |] eqn:Hds; [|discriminate..].
    intros H. apply IH in H as (HF & -> & ->).
    split; [constructor; [exists ds; exact Hds|exact HF]|].
    unfold pendingOf at 2. rewrite Hds. split; set_solver.
Qed.

Lemma scanTxs_known ts : forall P D,
  Forall depsKnown ts -> exists P' D', scanTxs (Some <$> ts) P D = Ok (P', D').
Proof.
  induction ts as [|tx ts IH]; intros P D HF.
  - eexists _, _. reflexivity.
  - apply Forall_cons in HF as [[ds Hds] HF]. rewrite fmap_cons. simpl. rewrite Hds.
    apply IH. exact HF.
Qed.

Section Search.

(** The view of the store the search has: the status of a vertex, the
    stored vertex, and the parser of the VM. *)
Variable st : ID -> Status.
Variable vx : ID -> option StatelessVertex.
Variable parse : list Byte.byte -> result Tx.

Definition parentsOf (i : ID) : list ID :=
  match vx i with
  | Some sv => svParentIDs sv
  | None => []
  end.

Definition txsOf (i : ID) : list Tx :=
  match vx i with
  | Some sv =>
      match parseAll parse (svTxs sv) with
      | Ok ts => ts
      | _ => []
      end
  | None => []
  end.

(** The identifiers of the transactions of a vertex, and their dependencies
    that are not accepted. *)
Definition txIDsOf (i : ID) : gset N := list_to_set (txID <$> txsOf i).
Definition depsOf (i : ID) : gset N := ⋃ (pendingOf <$> txsOf i).

(** The vertices the search reaches from [root]: it follows the parents of
    the vertices that are not accepted. *)
Inductive reached (root : ID) : ID -> Prop :=
| reached_root : reached root root
| reached_parent i p :
    reached root i -> st i <> Accepted -> p ∈ parentsOf i -> reached root p.

(** The ancestors that are not accepted, and the accepted vertices at the
    boundary. *)
Definition visited (root i : ID) : Prop := reached root i /\ st i <> Accepted.
Definition boundary (root i : ID) : Prop := reached root i /\ st i = Accepted.

(** The closure: the visited vertices and their transactions. *)
Definition inClosure (root x : ID) : Prop :=
  visited root x \/ exists i, visited root i /\ x ∈ txIDsOf i.

(** A dependency, not accepted, of a transaction of the closure. *)
Definition pendingDep (root d : ID) : Prop :=
  exists i, visited root i /\ d ∈ depsOf i.

(** A vertex the search can expand without an error: it is stored, its
    transactions parse, and their dependencies are known. *)
Definition expandable (i : ID) : Prop :=
  exists sv ts, vx i = Some sv /\ parseAll parse (svTxs sv) = Ok ts /\ Forall depsKnown ts.

Definition searchable (root : ID) : Prop := forall i, visited root i -> expandable i.

(** The search on identifiers: what [search] does, seen from the store. *)
Fixpoint bfs (fuel : nat) (queue : list ID) (acc : searched) : option (result searched) :=
  match fuel with
  | O => None
  | S fuel =>
      match queue with
      | [] => Some (Ok acc)
      | cur :: queue =>
          if decide (st cur = Accepted)
          then bfs fuel queue
                 {| visitedVtx := visitedVtx acc;
                    acceptedFrontier := {[ cur ]} ∪ acceptedFrontier acc;
                    transitivePaths := transitivePaths acc;
                    dependencies := dependencies acc |}
          else if decide (cur ∈ visitedVtx acc)
          then bfs fuel queue acc
          else
            match vx cur with
            | None => Some (Err (errFailedTxs (st cur)))
            | Some sv =>
                match parseAll parse (svTxs sv) with
                | Ok ts =>
                    match scanTxs (Some <$> ts) ({[ cur ]} ∪ transitivePaths acc)
                            (dependencies acc) with
                    | Ok (paths, deps) =>
                        bfs fuel (queue ++ svParentIDs sv)
                          {| visitedVtx := {[ cur ]} ∪ visitedVtx acc;
                             acceptedFrontier := acceptedFrontier acc;
                             transitivePaths := paths;
                             dependencies := deps |}
                    | Err e => Some (Err e)
                    | Panic => Some Panic
                    end
                | Err e => Some (Err e)
                | Panic => Some Panic
                end
            end
      end
  end.

(** What holds between two rounds of the search from [root]. *)
Record Inv (root : ID) (queue : list ID) (acc : searched) : Prop := mkInv {
  inv_queue : forall i, i ∈ queue -> reached root i;
  inv_visited : forall i, i ∈ visitedVtx acc -> visited root i;
  inv_frontier : forall i, i ∈ acceptedFrontier acc -> boundary root i;
  inv_root : root ∈ queue \/ root ∈ visitedVtx acc \/ root ∈ acceptedFrontier acc;
  inv_closed : forall i p, i ∈ visitedVtx acc -> p ∈ parentsOf i ->
    p ∈ queue \/ p ∈ visitedVtx acc \/ p ∈ acceptedFrontier acc;
  inv_expandable : forall i, i ∈ visitedVtx acc -> expandable i;
  inv_paths : forall x, x ∈ transitivePaths acc <->
    x ∈ visitedVtx acc \/ exists i, i ∈ visitedVtx acc /\ x ∈ txIDsOf i;
  inv_deps : forall d, d ∈ dependencies acc <->
    exists i, i ∈ visitedVtx acc /\ d ∈ depsOf i
}.

Definition noneSearched : searched :=
  {| visitedVtx := ∅; acceptedFrontier := ∅; transitivePaths := ∅; dependencies := ∅ |}.

Lemma Inv_start root : Inv root [root] noneSearched.
Proof.
  constructor; simpl.
  - intros i ->%list_elem_of_singleton. constructor.
  - set_solver.
  - set_solver.
  - left. left.
  - set_solver.
  - set_solver.
  - intros x. split; [set_solver|]. intros [H|(i & H & _)]; set_solver.
  - intros d. split; [set_solver|]. intros (i & H & _). set_solver.
Qed.

Lemma Inv_accepted root cur queue acc :
  Inv root (cur :: queue) acc -> st cur = Accepted ->
  Inv root queue
    {| visitedVtx := visitedVtx acc;
       acceptedFrontier := {[ cur ]} ∪ acceptedFrontier acc;
       transitivePaths := transitivePaths acc;
       dependencies := dependencies acc |}.
Proof.
  intros [Hq Hv Hf Hr Hc He Hp Hd] Hacc. constructor; simpl.
  - intros i Hi. apply Hq. right. exact Hi.
  - exact Hv.
  - intros i [->%elem_of_singleton|Hi]%elem_of_union; [|exact (Hf i Hi)].
    split; [apply Hq; left|exact Hacc].
  - destruct Hr as [[->|Hr]%elem_of_cons|[Hr|Hr]]; set_solver.
  - intros i p Hi Hpar.
    destruct (Hc i p Hi Hpar) as [[->|H]%elem_of_cons|[H|H]]; set_solver.
  - exact He.
  - exact Hp.
  - exact Hd.
Qed.

Lemma Inv_skip root cur queue acc :
  Inv root (cur :: queue) acc -> cur ∈ visitedVtx acc -> Inv root queue acc.
Proof.
  intros [Hq Hv Hf Hr Hc He Hp Hd] Hcur. constructor.
  - intros i Hi. apply Hq. right. exact Hi.
  - exact Hv.
  - exact Hf.
  - destruct Hr as [[->|Hr]%elem_of_cons|Hr]; auto.
  - intros i p Hi Hpar.
    destruct (Hc i p Hi Hpar) as [[->|H]%elem_of_cons|H]; auto.
  - exact He.
  - exact Hp.
  - exact Hd.
Qed.

Lemma Inv_expand root cur queue acc sv ts paths deps :
  Inv root (cur :: queue) acc -> st cur <> Accepted -> cur ∉ visitedVtx acc ->
  vx cur = Some sv -> parseAll parse (svTxs sv) = Ok ts ->
  scanTxs (Some <$> ts) ({[ cur ]} ∪ transitivePaths acc) (dependencies acc)
    = Ok (paths, deps) ->
  Inv root (queue ++ svParentIDs sv)
    {| visitedVtx := {[ cur ]} ∪ visitedVtx acc;
       acceptedFrontier := acceptedFrontier acc;
       transitivePaths := paths;
       dependencies := deps |}.
Proof.
  intros [Hq Hv Hf Hr Hc He Hp Hd] Hst Hnv Hvx Hparse Hscan.
  apply scanTxs_Ok in Hscan as (Hknown & -> & ->).
  assert (Hts : txsOf cur = ts) by (unfold txsOf; rewrite Hvx, Hparse; reflexivity).
  assert (Hps : parentsOf cur = svParentIDs sv) by (unfold parentsOf; rewrite Hvx; reflexivity).
  assert (Hreach : reached root cur) by (apply Hq; left).
  replace (list_to_set (txID <$> ts)) with (txIDsOf cur)
    by (unfold txIDsOf; rewrite Hts; reflexivity).
  replace (⋃ (pendingOf <$> ts)) with (depsOf cur)
    by (unfold depsOf; rewrite Hts; reflexivity).
  constructor; simpl.
  - intros i [Hi|Hi]%elem_of_app.
    + apply Hq. right. exact Hi.
    + apply (reached_parent root cur i Hreach Hst). rewrite Hps. exact Hi.
  - intros i [->%elem_of_singleton|Hi]%elem_of_union; [split; done|exact (Hv i Hi)].
  - exact Hf.
  - destruct Hr as [[->|Hr]%elem_of_cons|[Hr|Hr]].
    + right. left. apply elem_of_union. left. apply elem_of_singleton. reflexivity.
    + left. apply elem_of_app. left. exact Hr.
    + right. left. apply elem_of_union. right. exact Hr.
    + right. right. exact Hr.
  - intros i p [->%elem_of_singleton|Hi]%elem_of_union Hpar.
    + left. apply elem_of_app. right. rewrite <- Hps. exact Hpar.
    + destruct (Hc i p Hi Hpar) as [[->|H]%elem_of_cons|[H|H]].
      * right. left. apply elem_of_union. left. apply elem_of_singleton. reflexivity.
      * left. apply elem_of_app. left. exact H.
      * right. left. apply elem_of_union. right. exact H.
      * right. right. exact H.
  - intros i [->%elem_of_singleton|Hi]%elem_of_union; [|exact (He i Hi)].
    exists sv, ts. done.
  - intros x. rewrite !elem_of_union, Hp, elem_of_singleton. split.
    + intros [Hx|[->|[Hx|(i & Hi & Hx)]]].
      * right. exists cur.
        split; [apply elem_of_union; left; apply elem_of_singleton; reflexivity|exact Hx].
      * left. left. reflexivity.
      * left. right. exact Hx.
      * right. exists i. split; [apply elem_of_union; right; exact Hi|exact Hx].
    + intros [[->|Hx]|(i & [->%elem_of_singleton|Hi]%elem_of_union & Hx)].
      * right. left. reflexivity.
      * right. right. left. exact Hx.
      * left. exact Hx.
      * right. right. right. exists i. done.
  - intros d. rewrite elem_of_union, Hd. split.
    + intros [Hx|(i & Hi & Hx)].
      * exists cur. split; [apply elem_of_union; left; apply elem_of_singleton; reflexivity
                           |exact Hx].
      * exists i. split; [apply elem_of_union; right; exact Hi|exact Hx].
    + intros (i & [->%elem_of_singleton|Hi]%elem_of_union & Hx).
      * left. exact Hx.
      * right. exists i. done.
Qed.

(** The invariant holds when the search returns. *)
Lemma bfs_Inv root fuel : forall queue acc r,
  Inv root queue acc -> bfs fuel queue acc = Some (Ok r) -> Inv root [] r.
Proof.
  induction fuel as [|fuel IH]; intros queue acc r HI; simpl; [discriminate|].
  destruct queue as [|cur queue]; [intros [= <-]; exact HI|].
  destruct (decide (st cur = Accepted)) as [Ha|Hna].
  - apply IH. apply Inv_accepted; done.
  - destruct (decide (cur ∈ visitedVtx acc)) as [Hin|Hnin].
    + apply IH. eapply Inv_skip; done.
    + destruct (vx cur) as [sv|] eqn:Hvx; [|discriminate].
      destruct (parseAll parse (svTxs sv)) as [ts| |] eqn:Hparse; [|discriminate..].
      destruct (scanTxs _ _ _) as [[paths deps]| |] eqn:Hscan; [|discriminate..].
      apply IH. eapply Inv_expand; done.
Qed.

(** What the sets of a finished search are. *)
Lemma Inv_final root r :
  Inv root [] r ->
  (forall i, i ∈ visitedVtx r <-> visited root i) /\
  (forall i, i ∈ acceptedFrontier r <-> boundary root i) /\
  (forall x, x ∈ transitivePaths r <-> inClosure root x) /\
  (forall d, d ∈ dependencies r <-> pendingDep root d) /\
  searchable root.
Proof.
  intros [Hq Hv Hf Hr Hc He Hp Hd].
  assert (Hall : forall i, reached root i -> i ∈ visitedVtx r \/ i ∈ acceptedFrontier r).
  { intros i Hi. induction Hi as [|i p Hi IH Hst Hpar].
    - destruct Hr as [Hr|Hr]; [|exact Hr]. apply elem_of_nil in Hr. destruct Hr.
    - destruct IH as [IH|IH].
      + destruct (Hc i p IH Hpar) as [H|H]; [|exact H]. apply elem_of_nil in H. destruct H.
      + destruct (Hf i IH) as [_ Hacc]. contradiction. }
  assert (Hvis : forall i, i ∈ visitedVtx r <-> visited root i).
  { intros i. split; [apply Hv|]. intros [Hi Hst].
    destruct (Hall i Hi) as [H|H]; [exact H|]. destruct (Hf i H) as [_ Hacc]. contradiction. }
  split; [exact Hvis|]. split.
  { intros i. split; [apply Hf|]. intros [Hi Hst].
    destruct (Hall i Hi) as [H|H]; [|exact H]. destruct (Hv i H) as [_ Hna]. contradiction. }
  split.
  { intros x. rewrite Hp. unfold inClosure. rewrite Hvis.
    split; (intros [H|(i & Hi & Hx)]; [left; exact H|right; exists i]);
      (split; [apply Hvis; exact Hi|exact Hx]). }
  split.
  { intros d. rewrite Hd. unfold pendingDep.
    split; intros (i & Hi & Hx); exists i; (split; [apply Hvis; exact Hi|exact Hx]). }
  intros i Hi. apply He, Hvis, Hi.
Qed.

(** The search terminates: a round either expands a stored vertex that was
    not visited, or shortens the queue. *)
Lemma bfs_terminates (universe : gset N) root :
  (forall i, is_Some (vx i) -> i ∈ universe) ->
  searchable root ->
  forall n acc queue,
    size (universe ∖ visitedVtx acc) = n ->
    (forall i, i ∈ queue -> reached root i) ->
    exists rounds, forall fuel, (rounds <= fuel)%nat ->
      exists r, bfs fuel queue acc = Some (Ok r).
Proof.
  intros Huniv Hsearch n. induction n as [n IHn] using lt_wf_ind.
  intros acc queue. revert acc. induction queue as [|cur queue IHq]; intros acc Hsize Hq.
  - exists 1%nat. intros [|fuel] Hfuel; [lia|]. exists acc. reflexivity.
  - assert (Hq' : forall i, i ∈ queue -> reached root i)
      by (intros i Hi; apply Hq; right; exact Hi).
    destruct (decide (st cur = Accepted)) as [Ha|Hna].
    { destruct (IHq {| visitedVtx := visitedVtx acc;
                       acceptedFrontier := {[ cur ]} ∪ acceptedFrontier acc;
                       transitivePaths := transitivePaths acc;
                       dependencies := dependencies acc |} Hsize Hq') as [rounds Hr].
      exists (S rounds). intros [|fuel] Hfuel; [lia|]. simpl.
      rewrite decide_True by exact Ha. apply Hr. lia. }
    destruct (decide (cur ∈ visitedVtx acc)) as [Hin|Hnin].
    { destruct (IHq acc Hsize Hq') as [rounds Hr].
      exists (S rounds). intros [|fuel] Hfuel; [lia|]. simpl.
      rewrite decide_False, decide_True by done. apply Hr. lia. }
    assert (Hreach : reached root cur) by (apply Hq; left).
    destruct (Hsearch cur (conj Hreach Hna)) as (sv & ts & Hvx & Hparse & Hknown).
    destruct (scanTxs_known ts ({[ cur ]} ∪ transitivePaths acc) (dependencies acc) Hknown)
      as (paths & deps & Hscan).
    assert (Hcur : cur ∈ universe) by (apply Huniv; rewrite Hvx; eauto).
    assert (Hlt : (size (universe ∖ ({[ cur ]} ∪ visitedVtx acc)) < n)%nat).
    { subst n. apply subset_size. set_solver. }
    destruct (IHn _ Hlt {| visitedVtx := {[ cur ]} ∪ visitedVtx acc;
                           acceptedFrontier := acceptedFrontier acc;
                           transitivePaths := paths;
                           dependencies := deps |} (queue ++ svParentIDs sv) eq_refl)
      as [rounds Hr].
    { intros i [Hi|Hi]%elem_of_app; [apply Hq'; exact Hi|].
      apply (reached_parent root cur i Hreach Hna). unfold parentsOf. rewrite Hvx. exact Hi. }
    exists (S rounds). intros [|fuel] Hfuel; [lia|]. simpl.
    rewrite decide_False, decide_False, Hvx, Hparse, Hscan by done. apply Hr. lia.
Qed.

End Search.


(** *** [search] and the search on identifiers *)

Lemma view_store s s' :
  store s' = store s ->
  bfs (statusOf s') (vertexOf s') (ParseTx s') = bfs (statusOf s) (vertexOf s) (ParseTx s).
Proof.
  intros H. rewrite (statusOf_store _ _ H), (vertexOf_store _ _ H).
  apply store_eq in H as (_ & _ & _ & -> & _). reflexivity.
Qed.

(** In a state that satisfies the invariant of the cache, [search] on
    handles does what the search on their identifiers does. *)
Lemma search_bfs fuel : forall q qids acc s r,
  coherent s ->
  Forall2 (handleOf s) q qids ->
  bfs (statusOf s) (vertexOf s) (ParseTx s) fuel qids acc = Some (Ok r) ->
  exists s', search fuel q acc s = Some (Ok r, s') /\
             coherent s' /\ extends s s' /\ store s' = store s.
Proof.
  induction fuel as [|fuel IH]; intros q qids acc s r Hcoh HF Hbfs; [discriminate|].
  destruct HF as [|cur i q qids (hv & Hh & Hid) HF].
  { injection Hbfs as <-. exists s. split; [reflexivity|]. split; [exact Hcoh|].
    split; [apply extends_refl|reflexivity]. }
  simpl in Hbfs. simpl.
  assert (Hcur : idOf s cur = i) by (unfold idOf; rewrite Hh; exact Hid).
  destruct (Status_spec s cur hv Hcoh Hh)
    as (s1 & HS & Hcoh1 & Hext1 & Hst1 & hv1 & c1 & cs1 & Hd1 & Hid1 & _).
  pose proof (deref_points _ _ _ _ _ Hd1) as (Hh1 & _).
  rewrite HS, Hcur, Hid.
  rewrite <- (view_store _ _ Hst1) in Hbfs.
  pose proof (Forall2_handleOf_extends _ _ _ _ Hext1 HF) as HF1.
  destruct (decide (statusOf s i = Accepted)) as [Ha|Hna].
  { destruct (IH _ _ _ _ _ Hcoh1 HF1 Hbfs) as (s' & Hs' & Hcoh' & Hext' & Hst').
    exists s'. split; [exact Hs'|]. split; [exact Hcoh'|].
    split; [exact (extends_trans _ _ _ Hext1 Hext')|congruence]. }
  destruct (decide (i ∈ visitedVtx acc)) as [Hin|Hnin].
  { destruct (IH _ _ _ _ _ Hcoh1 HF1 Hbfs) as (s' & Hs' & Hcoh' & Hext' & Hst').
    exists s'. split; [exact Hs'|]. split; [exact Hcoh'|].
    split; [exact (extends_trans _ _ _ Hext1 Hext')|congruence]. }
  destruct (vertexOf s i) as [sv|] eqn:Hvx; [|discriminate].
  destruct (parseAll (ParseTx s) (svTxs sv)) as [ts| |] eqn:Hparse; [|discriminate..].
  destruct (scanTxs _ _ _) as [[paths deps]| |] eqn:Hscan; [|discriminate..].
  destruct (Txs_spec s1 cur hv1 Hcoh1 Hh1) as (s2 & Hst2 & HT).
  rewrite Hid1, Hid, (vertexOf_store _ _ Hst1), Hvx in HT.
  replace (ParseTx s1) with (ParseTx s) in HT
    by (apply store_eq in Hst1 as (_ & _ & _ & -> & _); reflexivity).
  rewrite Hparse in HT. destruct HT as (HT & Hcoh2 & Hext2).
  rewrite HT, Hscan.
  destruct (Hext2 cur i) as (hv2 & Hh2 & Hid2); [exists hv1; split; [exact Hh1|congruence]|].
  destruct (Parents_spec s2 cur hv2 Hcoh2 Hh2) as (s3 & Hcoh3 & Hext3 & Hst3 & HP).
  rewrite Hid2, (vertexOf_store _ _ Hst2), (vertexOf_store _ _ Hst1), Hvx in HP.
  destruct HP as (ps & HP & HFp & _).
  rewrite HP.
  assert (Hst13 : store s3 = store s1) by congruence.
  rewrite <- (view_store _ _ Hst13) in Hbfs.
  assert (HF3 : Forall2 (handleOf s3) (q ++ ps) (qids ++ svParentIDs sv)).
  { apply Forall2_app; [|exact HFp].
    apply (Forall2_handleOf_extends s1); [|exact HF1].
    exact (extends_trans _ _ _ Hext2 Hext3). }
  destruct (IH _ _ _ _ _ Hcoh3 HF3 Hbfs) as (s' & Hs' & Hcoh' & Hext' & Hst').
  exists s'. split; [exact Hs'|]. split; [exact Hcoh'|].
  split; [|congruence].
  exact (extends_trans _ _ _ Hext1 (extends_trans _ _ _ Hext2 (extends_trans _ _ _ Hext3 Hext'))).
Qed.



(** A search that returned tells what the search reaches. *)
Lemma bfs_result st vx parse root fuel r :
  bfs st vx parse fuel [root] noneSearched = Some (Ok r) ->
  (forall i, i ∈ acceptedFrontier r <-> boundary st vx root i) /\
  (forall x, x ∈ transitivePaths r <-> inClosure st vx parse root x) /\
  (forall d, d ∈ dependencies r <-> pendingDep st vx parse root d) /\
  searchable st vx parse root.
Proof.
  intros Hbfs.
  pose proof (bfs_Inv _ _ _ _ _ _ _ _ (Inv_start _ _ _ root) Hbfs) as Hinv.
  apply Inv_final in Hinv as (_ & Hfront & Hpaths & Hdeps & Hsearch). done.
Qed.

Lemma size_union_same (P D : gset N) : size P = size (P ∪ D) <-> D ⊆ P.
Proof.
  split.
  - intros Hsize. assert (HPD : P = P ∪ D).
    { apply set_subseteq_size_eq; [apply union_subseteq_l|lia]. }
    rewrite HPD. apply union_subseteq_r.
  - intros Hsub. f_equal. symmetry. apply subseteq_union_1_L in Hsub.
    rewrite (comm_L (∪)). exact Hsub.
Qed.

Lemma not_subseteq_witness (P D : gset N) : ~ D ⊆ P -> exists d, d ∈ D /\ d ∉ P.
Proof.
  intros H. apply (not_set_Forall_Exists (fun d => d ∈ P)) in H.
  destruct H as (d & Hd & Hn). exists d. split; [exact Hd|exact Hn].
Qed.

(** C2, as amended.  For a handle of a stop vertex that passes the checks [Verify]
    makes first (the stateless verification, the activation time, no stop
    vertex on the stored frontier), in a state that satisfies the invariant
    of the cache and in which the search meets no error ([searchable]: every
    vertex the search reaches that is not accepted is stored, its
    transactions parse and each returns its dependencies): [Verify] returns
    for every large enough number of rounds, and
    - it fails with [errUnexpectedEdges] exactly when the accepted vertices
      at the boundary of the search are not exactly the accepted frontier;
    - it fails with [errUnexpectedDependencyStopVtx] exactly when the
      boundary is the frontier and some transaction of the closure has a
      dependency that is not accepted and not in the closure;
    - it returns nil exactly when the boundary is the frontier and there is
      no such dependency. *)
Theorem Verify_stop_vertex range now l s hv c cs sv :
  coherent s ->
  range_ok range ->
  deref l s = Some (hv, c, cs) ->
  vtx cs = Some sv ->
  svVerify sv = None ->
  svStopVertex sv = true ->
  XChainMigrationTime s <= match time hv with Some t => t | None => now end ->
  (forall i, i ∈ edge s -> exists svi, vertexOf s i = Some svi /\ svStopVertex svi = false) ->
  searchable (statusOf s) (vertexOf s) (ParseTx s) (id hv) ->
  let frontierReached :=
    forall i, boundary (statusOf s) (vertexOf s) (id hv) i <-> i ∈ edge s in
  let escapes :=
    exists d, pendingDep (statusOf s) (vertexOf s) (ParseTx s) (id hv) d /\
              ~ inClosure (statusOf s) (vertexOf s) (ParseTx s) (id hv) d in
  exists rounds, forall fuel, (rounds <= fuel)%nat ->
    exists r s', Verify range now fuel l s = Some (r, s') /\ store s' = store s /\
      (r = Err errUnexpectedEdges <-> ~ frontierReached) /\
      (r = Err errUnexpectedDependencyStopVtx <-> frontierReached /\ escapes) /\
      (r = Ok tt <-> frontierReached /\ ~ escapes).
Proof.
  intros Hcoh Hrange Hd Hv Hok Hstop Htime Hedge Hsearch frontierReached escapes.
  pose proof (deref_points _ _ _ _ _ Hd) as (Hh & _ & _ & Hpt).
  destruct (checkEdges_spec (range (list_to_set (Edge s))) s Hcoh)
    as (s1 & Hcoh1 & Hext1 & Hst1 & Hchk).
  { intros i Hi. apply (range_frontier range s i Hrange) in Hi.
    destruct (Hedge i Hi) as (svi & -> & _). eauto. }
  assert (Hnostop : existsb (isStop s) (range (list_to_set (Edge s))) = false).
  { apply not_true_is_false. intros (i & Hi & Hs)%existsb_elem_of.
    apply (range_frontier range s i Hrange) in Hi.
    destruct (Hedge i Hi) as (svi & Hsvi & Hns). unfold isStop in Hs.
    rewrite Hsvi in Hs. congruence. }
  rewrite Hnostop in Hchk.
  destruct (bfs_terminates (statusOf s) (vertexOf s) (ParseTx s)
              (dom (dbVertex (state s))) (id hv)) with
    (n := size (dom (dbVertex (state s)) ∖ visitedVtx noneSearched))
    (acc := noneSearched) (queue := [id hv]) as [rounds Hrounds].
  { intros i [svi Hi]. apply elem_of_dom. unfold vertexOf in Hi.
    destruct (Fetched (statusOf s i)); [|discriminate]. exists svi. exact Hi. }
  { exact Hsearch. }
  { reflexivity. }
  { intros i ->%list_elem_of_singleton. constructor. }
  exists rounds. intros fuel Hfuel. destruct (Hrounds fuel Hfuel) as [r0 Hbfs].
  pose proof (bfs_Inv _ _ _ _ _ _ _ _ (Inv_start _ _ _ (id hv)) Hbfs) as Hinv.
  apply Inv_final in Hinv as (_ & Hfront & Hpaths & Hdeps & _).
  rewrite <- (view_store _ _ Hst1) in Hbfs.
  destruct (search_bfs fuel [l] [id hv] noneSearched s1 r0 Hcoh1) as (s2 & Hs2 & _ & _ & Hst2);
    [|exact Hbfs|].
  { constructor; [|constructor]. apply Hext1. exists hv. done. }
  assert (Hgate : svStopVertex sv &&
            (match time hv with Some t => t | None => now end <? XChainMigrationTime s)
          = false).
  { rewrite Hstop. simpl. apply Z.ltb_ge. exact Htime. }
  assert (Hrun : Verify range now fuel l s =
    Some (if negb (bool_decide (acceptedFrontier r0 = edge s))
          then Err errUnexpectedEdges
          else if negb (Nat.eqb (size (transitivePaths r0))
                          (size (transitivePaths r0 ∪ dependencies r0)))
          then Err errUnexpectedDependencyStopVtx
          else Ok tt, s2)).
  { unfold Verify. rewrite Hd, Hv, Hok. cbv zeta. rewrite Hgate, Hchk, Hstop.
    simpl negb. cbv iota. fold noneSearched. rewrite Hs2.
    unfold Edge. rewrite list_to_set_elements_L.
    destruct (negb (bool_decide _)); [reflexivity|].
    destruct (negb (Nat.eqb _ _)); reflexivity. }
  eexists _, s2. split; [exact Hrun|]. split; [congruence|].
  assert (Hfr : acceptedFrontier r0 = edge s <-> frontierReached).
  { unfold frontierReached. split.
    - intros E i. rewrite <- Hfront, E. reflexivity.
    - intros H. apply set_eq. intros i. rewrite Hfront. apply H. }
  assert (Hesc : dependencies r0 ⊆ transitivePaths r0 <-> ~ escapes).
  { unfold escapes. split.
    - intros Hsub (d & Hd1 & Hd2). apply Hd2, Hpaths, Hsub, Hdeps, Hd1.
    - intros Hno d Hdd. destruct (decide (d ∈ transitivePaths r0)) as [Hin|Hout]; [exact Hin|].
      exfalso. apply Hno. exists d. split; [apply Hdeps; exact Hdd|].
      intros Hc. apply Hout, Hpaths, Hc. }
  case_bool_decide as HAF; simpl.
  - destruct (Nat.eqb_spec (size (transitivePaths r0))
                (size (transitivePaths r0 ∪ dependencies r0))) as [Hsz|Hsz]; simpl.
    + apply size_union_same in Hsz. apply Hesc in Hsz.
      split; [split; [discriminate|intros Hn; destruct Hn; apply Hfr, HAF]|].
      split; [split; [discriminate|intros [_ He]; contradiction]|].
      split; [intros _; split; [apply Hfr, HAF|exact Hsz]|reflexivity].
    + assert (He : escapes).
      { rewrite size_union_same in Hsz. apply not_subseteq_witness in Hsz as (d & Hd1 & Hd2).
        exists d. split; [apply Hdeps; exact Hd1|]. intros Hc. apply Hd2, Hpaths, Hc. }
      split; [split; [discriminate|intros Hn; destruct Hn; apply Hfr, HAF]|].
      split; [split; [intros _; split; [apply Hfr, HAF|exact He]|reflexivity]|].
      split; [discriminate|intros [_ Hn]; contradiction].
  - assert (Hn : ~ frontierReached) by (intros H; apply HAF, Hfr, H).
    split; [split; [intros _; exact Hn|reflexivity]|].
    split; (split; [discriminate|intros [H _]; contradiction]).
Qed.


End StopVertexFacts.

(** ** A small DAG *)

Module DagExample.
Import AvalancheState AvalancheStateFacts StopVertexFacts.

(** A serializer that has not handed out any handle yet. *)
Definition newSerializer (statuses : gmap N Status) (vertices : gmap N StatelessVertex)
    (frontier : gset N) (fs : list (option error)) (activation : Z)
    (parse : list Byte.byte -> result Tx) : Serializer :=
  {| heap := {| handles := ∅; cells := ∅; nextHandle := 1; nextCell := 1 |};
     state := {| uniqueVtx := []; cacheSize := 2; dbStatus := statuses;
                 dbVertex := vertices; dbEdge := elements frontier |};
     versionDB := {| disk := {| diskStatus := statuses; diskVertex := vertices;
                                diskEdge := elements frontier |};
                     dbLog := []; faults := fs |};
     edge := frontier; XChainMigrationTime := activation; ParseTx := parse |}.

Lemma coherent_newSerializer statuses vertices frontier fs activation parse :
  coherent (newSerializer statuses vertices frontier fs activation parse).
Proof.
  assert (Hno : forall l i c,
            ~ points (newSerializer statuses vertices frontier fs activation parse) l i c).
  { intros l i c (hv & H & _). simpl in H. rewrite lookup_empty in H. discriminate. }
  constructor; simpl.
  - intros l hv H. rewrite lookup_empty in H. discriminate.
  - intros c cs H. rewrite lookup_empty in H. discriminate.
  - intros l i c H. destruct (Hno _ _ _ H).
  - intros l1 l2 i1 i2 c H. destruct (Hno _ _ _ H).
  - constructor.
  - intros i l H. apply elem_of_nil in H. destruct H.
  - intros l i c cs H. destruct (Hno _ _ _ H).
  - intros l i c cs sv H. destruct (Hno _ _ _ H).
  - intros l i c cs H. destruct (Hno _ _ _ H).
  - intros l i c cs H. destruct (Hno _ _ _ H).
Qed.

Lemma coherent_getUniqueVertex s i : coherent s -> coherent (getUniqueVertex i s).2.
Proof.
  intros Hcoh. destruct (getUniqueVertex_spec s i Hcoh) as (s' & Hcoh' & _ & _ & H).
  destruct (decide (statusOf s i = Unknown)).
  - rewrite H. exact Hcoh'.
  - destruct H as (l & hv & c & cs & -> & _). exact Hcoh'.
Qed.

Lemma range_ok_elements : range_ok elements.
Proof. intros X. reflexivity. Qed.

(** Transactions are one byte long, the byte is their identifier. *)
Definition txBytes (n : N) : list Byte.byte :=
  match Byte.of_N n with
  | Some b => [b]
  | None => []
  end.

Definition storedVertex (stop : bool) (ps : list ID) (ts : list N) : StatelessVertex :=
  {| svVerify := None; svStopVertex := stop; svParentIDs := ps; svTxs := txBytes <$> ts |}.

(** Transaction 17 depends on transaction 15, which is processing. *)
Definition dagParse (bs : list Byte.byte) : result Tx :=
  match bs with
  | [b] =>
      let n := Byte.to_N b in
      Ok {| txID := n;
            txDependencies := Ok (if (n =? 17)%N then [mkDep 15%N Processing] else []) |}
  | _ => Err (errVM 1%N)
  end.

Definition dagStatuses : gmap N Status :=
  <[1%N := Accepted]> (<[2%N := Accepted]> (<[3%N := Processing]>
    (<[4%N := Processing]> (<[5%N := Processing]> ∅)))).

(** The DAG of the comment in [Verify]: vertices 1 and 2 are accepted and
    are the frontier, 3 and 4 have them as parents, and the stop vertex 5
    has 4 as parent; transaction 17 of vertex 4 depends on transaction 15 of
    vertex 3. *)
Definition dagVertices : gmap N StatelessVertex :=
  <[1%N := storedVertex false [] [11%N; 12%N]]>
  (<[2%N := storedVertex false [] [13%N; 14%N]]>
  (<[3%N := storedVertex false [1%N; 2%N] [15%N; 16%N]]>
  (<[4%N := storedVertex false [1%N; 2%N] [17%N; 18%N]]>
  (<[5%N := storedVertex true [4%N] []]> ∅)))).

(** The serializer, once a handle (at address 1) of the stop vertex was
    made. *)
Definition dag : Serializer :=
  (getUniqueVertex 5%N
     (newSerializer dagStatuses dagVertices {[1%N; 2%N]} [] 100 dagParse)).2.

Lemma coherent_dag : coherent dag.
Proof. apply coherent_getUniqueVertex, coherent_newSerializer. Qed.

(** The same, but vertex 4 has vertex 2 as its only parent: the search of
    the stop vertex does not reach vertex 1. *)
Definition narrowVertices : gmap N StatelessVertex :=
  <[4%N := storedVertex false [2%N] [17%N; 18%N]]> dagVertices.

Definition narrowDag : Serializer :=
  (getUniqueVertex 5%N
     (newSerializer dagStatuses narrowVertices {[1%N; 2%N]} [] 100 dagParse)).2.

(** The stop vertex 5 was accepted and is the frontier; vertex 6, which is
    not a stop vertex, has it as parent and is to be verified. *)
Definition linearizedStatuses : gmap N Status :=
  <[5%N := Accepted]> (<[6%N := Processing]> ∅).

Definition linearizedVertices : gmap N StatelessVertex :=
  <[5%N := storedVertex true [] []]> (<[6%N := storedVertex false [5%N] []]> ∅).



Definition stopVertex5 : StatelessVertex := storedVertex true [4%N] [].
Definition handle5 : uniqueVertex := {| id := 5%N; v := Some 1%positive; time := None |}.

(** Before the activation time (here 100) the stop vertex is refused. *)
Lemma Verify_before_activation_witness :
  Verify elements 50 0 1%positive dag = Some (Err errStopVertexNotAllowedTimestamp, dag).
Proof.
  eapply Verify_before_activation.
  - vm_compute. reflexivity.
  - reflexivity.
  - reflexivity.
  - reflexivity.
  - vm_compute. reflexivity.
Defined.




(** Accepting the stop vertex of the DAG. *)
Lemma Accept_sequence_witness :
  exists r s' n,
    Accept 1%positive dag = (r, s') /\
    dbLog (versionDB s') = dbLog (versionDB dag) ++ take n (acceptOps dag 5%N stopVertex5).
Proof.
  destruct (Accept_sequence dag 1%positive handle5 stopVertex5)
    as (r & s' & n & HA & Hlog & _).
  - exact coherent_dag.
  - vm_compute. reflexivity.
  - vm_compute. reflexivity.
  - exists r, s', n. split; [exact HA|exact Hlog].
Defined.

(** The handle of the stop vertex after its entry was evicted from the
    cache. *)
Lemma Status_after_evictions_witness :
  exists s2, Status_ 1%positive (evictions [5%N] dag) = (Ok Processing, s2).
Proof.
  destruct (Status_after_evictions dag [5%N] 1%positive handle5)
    as [_ (s2 & hv2 & c2 & cs2 & HS & _)].
  - exact coherent_dag.
  - vm_compute. reflexivity.
  - exists s2. exact HS.
Defined.

(** The search of the stop vertex in the DAG of the comment. *)
Lemma Verify_stop_vertex_witness :
  exists rounds, forall fuel, (rounds <= fuel)%nat ->
    exists r s', Verify elements 100 fuel 1%positive dag = Some (r, s') /\
                 store s' = store dag.
Proof.
  destruct (Verify_stop_vertex elements 100 1%positive dag handle5 1%positive
              {| latest := true; vtx := Some stopVertex5; status := Processing;
                 parents := []; txs := [] |} stopVertex5)
    as [rounds Hrounds].
  - exact coherent_dag.
  - exact range_ok_elements.
  - vm_compute. reflexivity.
  - reflexivity.
  - reflexivity.
  - reflexivity.
  - vm_compute. discriminate.
  - intros i Hi. change (edge dag) with ({[1%N; 2%N]} : gset N) in Hi.
    apply elem_of_union in Hi as [Hi|Hi]; apply elem_of_singleton in Hi; subst i;
      eexists; (split; [vm_compute; reflexivity|reflexivity]).
  - apply (bfs_result _ _ _ _ 6 {| visitedVtx := {[5%N; 4%N]};
                                    acceptedFrontier := {[1%N; 2%N]};
                                    transitivePaths := {[5%N; 4%N; 17%N; 18%N]};
                                    dependencies := {[15%N]} |}).
    vm_compute. reflexivity.
  - exists rounds. intros fuel Hfuel.
    destruct (Hrounds fuel Hfuel) as (r & s' & HV & Hst & _).
    exists r, s'. split; [exact HV|exact Hst].
Defined.

(** C2, as stated, fails.  In the narrow DAG both rules are violated - the search reaches the
    frontier vertex 2 only, and transaction 17 of the closure depends on
    transaction 15, which is processing and not in the closure -, and
    [Verify] fails with [errUnexpectedEdges], not with
    [errUnexpectedDependencyStopVtx]. *)
Lemma unexpected_edges_first :
  fst <$> Verify elements 100 6 1%positive narrowDag = Some (Err errUnexpectedEdges) /\
  pendingDep (statusOf narrowDag) (vertexOf narrowDag) (ParseTx narrowDag) 5%N 15%N /\
  ~ inClosure (statusOf narrowDag) (vertexOf narrowDag) (ParseTx narrowDag) 5%N 15%N.
Proof.
  split; [vm_compute; reflexivity|].
  destruct (bfs_result (statusOf narrowDag) (vertexOf narrowDag) (ParseTx narrowDag) 5%N 6
              {| visitedVtx := {[5%N; 4%N]};
                 acceptedFrontier := {[2%N]};
                 transitivePaths := {[5%N; 4%N; 17%N; 18%N]};
                 dependencies := {[15%N]} |})
    as (_ & Hpaths & Hdeps & _).
  { vm_compute. reflexivity. }
  split.
  - apply Hdeps. simpl. apply elem_of_singleton. reflexivity.
  - intros Hc. apply Hpaths in Hc. simpl in Hc. set_solver.
Qed.


End DagExample.

(** ** More on unique vertices *)

Module UniqueVertexFacts.
Import AvalancheState AvalancheStateFacts StopVertexFacts DagExample.

(** *** [Parents] and [Txs] answer from the state of the handle *)

(** A handle whose state is the latest and holds the vertex is not changed
    by [refresh]. *)
Lemma refresh_fixed s l hv c cs :
  deref l s = Some (hv, c, cs) -> latest cs = true -> is_Some (vtx cs) -> refresh l s = s.
Proof.
  intros Hd Hlat [sv Hsv]. pose proof (deref_points _ _ _ _ _ Hd) as (Hh & Hv & Hc & _).
  assert (Hsh : shallowRefresh l s = s).
  { unfold shallowRefresh. rewrite Hh, Hv. cbv beta iota zeta. rewrite Hc, Hlat. reflexivity. }
  unfold refresh. rewrite Hsh, Hd, Hsv. reflexivity.
Qed.

Lemma Forall2_handleOf_idOf s ps ids :
  Forall2 (handleOf s) ps ids -> idOf s <$> ps = ids.
Proof.
  induction 1 as [|p i ps ids (hv & Hh & Hi) _ IH]; [reflexivity|].
  rewrite fmap_cons, IH. unfold idOf. rewrite Hh, Hi. reflexivity.
Qed.

(** The state of the handle after [Parents]. *)
Lemma Parents_cell s l hv sv ps s' :
  coherent s -> handles (heap s) !! l = Some hv -> vertexOf s (id hv) = Some sv ->
  Parents l s = (Ok ps, s') ->
  exists hv2 c2 cs2, deref l s' = Some (hv2, c2, cs2) /\
    latest cs2 = true /\ vtx cs2 = Some sv /\ parents cs2 = ps.
Proof.
  intros Hcoh Hh Hvo HP.
  destruct (refresh_spec s l hv Hcoh Hh)
    as (Hcoh1 & Hext1 & hv' & c & cs & Hd1 & Hid & Hlat & Hstat & Hvtx).
  rewrite Hvo in Hvtx.
  unfold Parents in HP. set (s1 := refresh l s) in *. rewrite Hd1, Hvtx in HP.
  pose proof (deref_points _ _ _ _ _ Hd1) as (Hh1 & Hv1 & Hc1 & Hpt1).
  case_bool_decide as Hlen.
  - pose proof (newHandles_spec (svParentIDs sv) s1 Hcoh1) as HN.
    destruct (newHandles (svParentIDs sv) s1) as [ps0 s2].
    destruct HN as (_ & _ & _ & Hcells & Hpts).
    rewrite Hcells, Hc1 in HP. injection HP as <- <-.
    destruct (proj2 (Hpts l (id hv') c) Hpt1) as (hv2 & Hh2 & Hi2 & Hv2).
    exists hv2, c, (withParents ps0 cs). split; [|done].
    apply deref_setCell with (cs := cs). apply deref_intro; try done.
    rewrite Hcells. exact Hc1.
  - injection HP as <- <-. exists hv', c, cs. done.
Qed.

(** X16.  [Parents] of a stored vertex returns one handle for each parent, in the
    order of the vertex's parent identifiers; it keeps the invariant and the
    store, and a second call returns the same handles from the state of the
    handle, which it leaves as it is. *)
Theorem Parents_of_stored_vertex s l hv sv :
  coherent s -> handles (heap s) !! l = Some hv -> vertexOf s (id hv) = Some sv ->
  exists ps s',
    Parents l s = (Ok ps, s') /\ idOf s' <$> ps = svParentIDs sv /\
    coherent s' /\ store s' = store s /\
    Parents l s' = (Ok ps, s').
Proof.
  intros Hcoh Hh Hvo.
  destruct (Parents_spec s l hv Hcoh Hh) as (s' & Hcoh' & Hext & Hst & HP).
  rewrite Hvo in HP. destruct HP as (ps & HP & HF & _).
  destruct (Parents_cell s l hv sv ps s' Hcoh Hh Hvo HP)
    as (hv2 & c2 & cs2 & Hd2 & Hlat2 & Hvtx2 & Hps2).
  exists ps, s'. split; [exact HP|]. split; [apply Forall2_handleOf_idOf, HF|].
  split; [exact Hcoh'|]. split; [exact Hst|].
  unfold Parents. rewrite (refresh_fixed s' l hv2 c2 cs2 Hd2 Hlat2) by (rewrite Hvtx2; eauto).
  rewrite Hd2, Hvtx2, Hps2, bool_decide_eq_false_2; [reflexivity|].
  intros Hne. apply Hne. exact (Forall2_length _ _ _ HF).
Qed.

(** X17.  A vertex that is not stored has no parents to return. *)
Theorem Parents_of_missing_vertex s l hv :
  coherent s -> handles (heap s) !! l = Some hv -> vertexOf s (id hv) = None ->
  fst (Parents l s) = Err (errFailedParents (statusOf s (id hv))) /\
  store (snd (Parents l s)) = store s.
Proof.
  intros Hcoh Hh Hvo.
  destruct (Parents_spec s l hv Hcoh Hh) as (s' & _ & _ & Hst & HP).
  rewrite Hvo in HP. rewrite HP. done.
Qed.

Lemma parseInto_length parse bs : forall done,
  length (snd (parseInto parse bs done)) = (length done + length bs)%nat.
Proof.
  induction bs as [|b bs IH]; intros done; simpl; [lia|].
  destruct (parse b) as [tx| |]; simpl.
  - rewrite IH, length_app. simpl. lia.
  - rewrite length_app. simpl. rewrite length_replicate. lia.
  - rewrite length_app. simpl. rewrite length_replicate. lia.
Qed.

Lemma parseInto_nil_entry parse bs : forall done e ts,
  parseInto parse bs done = (Err e, ts) -> None ∈ ts.
Proof.
  induction bs as [|b bs IH]; intros done e ts; simpl; [discriminate|].
  destruct (parse b) as [tx|e'|]; [apply IH| |discriminate].
  intros [= _ <-]. apply elem_of_app. right. simpl. left.
Qed.

(** The state of the handle after [Txs], whether it failed or not. *)
Lemma Txs_cell s l hv sv :
  coherent s -> handles (heap s) !! l = Some hv -> vertexOf s (id hv) = Some sv ->
  exists hv2 c2 cs2, deref l (snd (Txs l s)) = Some (hv2, c2, cs2) /\
    latest cs2 = true /\ vtx cs2 = Some sv /\
    length (txs cs2) = length (svTxs sv) /\
    (forall e, fst (Txs l s) = Err e -> None ∈ txs cs2).
Proof.
  intros Hcoh Hh Hvo.
  destruct (refresh_spec s l hv Hcoh Hh)
    as (Hcoh1 & Hext1 & hv' & c & cs & Hd1 & Hid & Hlat & Hstat & Hvtx).
  rewrite Hvo in Hvtx.
  unfold Txs. set (s1 := refresh l s) in *. rewrite Hd1, Hvtx.
  case_bool_decide as Hlen.
  - pose proof (parseInto_length (ParseTx s1) (svTxs sv) []) as Hl.
    pose proof (parseInto_nil_entry (ParseTx s1) (svTxs sv) []) as Hnil.
    destruct (parseInto (ParseTx s1) (svTxs sv) []) as [[[]|e|] ts]; simpl in *;
      exists hv', c, (withTxs ts cs);
      (split; [apply deref_setCell with (cs := cs); exact Hd1|]);
      (split; [exact Hlat|]); (split; [exact Hvtx|]); (split; [exact Hl|]).
    + discriminate.
    + intros e' [= <-]. apply (Hnil e ts). reflexivity.
    + discriminate.
  - simpl. exists hv', c, cs. split; [exact Hd1|]. split; [exact Hlat|].
    split; [exact Hvtx|]. split; [|discriminate].
    symmetry. exact Hlen.
Qed.

(** X18.  [Txs] of a stored vertex whose transactions parse returns them in the
    order of the vertex; it keeps the invariant and the store, and a second
    call returns the same transactions from the state of the handle, which
    it leaves as it is. *)
Theorem Txs_of_stored_vertex s l hv sv ts :
  coherent s -> handles (heap s) !! l = Some hv -> vertexOf s (id hv) = Some sv ->
  parseAll (ParseTx s) (svTxs sv) = Ok ts ->
  exists s',
    Txs l s = (Ok (Some <$> ts), s') /\ coherent s' /\ store s' = store s /\
    Txs l s' = (Ok (Some <$> ts), s').
Proof.
  intros Hcoh Hh Hvo Hparse.
  destruct (Txs_spec s l hv Hcoh Hh) as (s' & Hst & HT).
  rewrite Hvo, Hparse in HT. destruct HT as (HT & Hcoh' & Hext).
  destruct (Txs_cell s l hv sv Hcoh Hh Hvo)
    as (hv2 & c2 & cs2 & Hd2 & Hlat2 & Hvtx2 & Hlen2 & _).
  rewrite HT in Hd2. simpl in Hd2.
  exists s'. split; [exact HT|]. split; [exact Hcoh'|]. split; [exact Hst|].
  pose proof (deref_points _ _ _ _ _ Hd2) as (Hh2 & _ & Hc2 & Hpt2).
  assert (Htxs : txs cs2 = Some <$> ts).
  { destruct (txs cs2) as [|t ts0] eqn:Hts.
    - destruct ts as [|tx ts]; [reflexivity|].
      apply parseAll_length in Hparse. simpl in *. lia.
    - destruct (coh_txs s' Hcoh' l _ c2 cs2 Hpt2 Hc2) as (sv' & ts' & Hvo' & HPA & Htx).
      { rewrite Hts. done. }
      assert (Hid2 : id hv2 = id hv).
      { destruct (Hext l (id hv)) as (hv3 & Hh3 & Hi3); [exists hv; done|]. congruence. }
      rewrite Hid2, (vertexOf_store _ _ Hst), Hvo in Hvo'. injection Hvo' as <-.
      replace (ParseTx s') with (ParseTx s) in HPA
        by (apply store_eq in Hst as (_ & _ & _ & -> & _); reflexivity).
      rewrite Hparse in HPA. injection HPA as <-. rewrite <- Hts. exact Htx. }
  unfold Txs. rewrite (refresh_fixed s' l hv2 c2 cs2 Hd2 Hlat2) by (rewrite Hvtx2; eauto).
  rewrite Hd2, Hvtx2, bool_decide_eq_false_2 by (intros Hne; apply Hne; congruence).
  rewrite Htxs. reflexivity.
Qed.

(** X19.  A parse error is reported once.  When a transaction of a stored vertex
    does not parse, [Txs] returns the error of the parser; a second call on
    the handle returns no error, but the slice the first call left: as long
    as the vertex's list of transactions, with nil entries from the
    transaction that failed on. *)
Theorem Txs_error_once s l hv sv e :
  coherent s -> handles (heap s) !! l = Some hv -> vertexOf s (id hv) = Some sv ->
  parseAll (ParseTx s) (svTxs sv) = Err e ->
  exists s1 ts,
    Txs l s = (Err e, s1) /\
    Txs l s1 = (Ok ts, s1) /\ length ts = length (svTxs sv) /\ None ∈ ts.
Proof.
  intros Hcoh Hh Hvo Hparse.
  destruct (Txs_spec s l hv Hcoh Hh) as (s1 & Hst & HT).
  rewrite Hvo, Hparse in HT.
  destruct (Txs_cell s l hv sv Hcoh Hh Hvo)
    as (hv2 & c2 & cs2 & Hd2 & Hlat2 & Hvtx2 & Hlen2 & Hnil).
  rewrite HT in Hd2, Hnil. simpl in Hd2, Hnil.
  exists s1, (txs cs2). split; [exact HT|].
  split; [|split; [exact Hlen2|exact (Hnil e eq_refl)]].
  unfold Txs. rewrite (refresh_fixed s1 l hv2 c2 cs2 Hd2 Hlat2) by (rewrite Hvtx2; eauto).
  rewrite Hd2, Hvtx2, bool_decide_eq_false_2 by (intros Hne; apply Hne; congruence).
  reflexivity.
Qed.

(** *** [Accept] and [Reject] *)

Lemma acceptFrontier_state s l hv sv :
  coherent s -> handles (heap s) !! l = Some hv -> vertexOf s (id hv) = Some sv ->
  coherent (snd (acceptFrontier l s)) /\ extends s (snd (acceptFrontier l s)).
Proof.
  intros Hcoh Hh Hsv. unfold acceptFrontier.
  assert (Hidl : idOf s l = id hv) by (unfold idOf; rewrite Hh; reflexivity).
  rewrite Hidl. set (s0 := setEdgeSet ({[id hv]} ∪ edge s) s).
  assert (Hcoh0 : coherent s0) by (apply (coherent_frame s); done).
  destruct (Parents_spec s0 l hv Hcoh0 Hh) as (s1 & Hcoh1 & Hext1 & Hst1 & HP).
  change (vertexOf s0 (id hv)) with (vertexOf s (id hv)) in HP. rewrite Hsv in HP.
  destruct HP as (ps & -> & HF & hv1 & c & cs & Hd1 & Hid1).
  rewrite (remove_parents ps _ s1 HF).
  set (s2 := setEdgeSet _ s1).
  assert (Hcoh2 : coherent s2) by (apply (coherent_frame s1); done).
  rewrite state_SetEdge_eq.
  destruct (nextFault s2) as [e|].
  - simpl. split; [apply (coherent_frame s2); done|exact Hext1].
  - set (s3 := stageEdge _ _).
    assert (Hcoh3 : coherent s3) by (apply (coherent_frame s2); done).
    unfold clearParents. change (deref l s3) with (deref l s1). rewrite Hd1.
    set (s4 := setCell c (withParents [] cs) s3).
    pose proof (deref_points _ _ _ _ _ Hd1) as (_ & _ & Hc1 & _).
    assert (Hcoh4 : coherent s4).
    { apply (coherent_setCell s3 c cs); try done.
      - intros sv0 H. left. exact H.
      - right. left. reflexivity.
      - left. reflexivity. }
    rewrite Commit_eq.
    destruct (nextFault s4); simpl; (split; [apply (coherent_frame s4); done|exact Hext1]).
Qed.

Lemma time_fold ps : forall s,
  XChainMigrationTime (foldl (fun s p => setEdgeSet (edge s ∖ {[ idOf s p ]}) s) s ps)
  = XChainMigrationTime s.
Proof. induction ps as [|p ps IH]; intros s; simpl; [reflexivity|]. rewrite IH. reflexivity. Qed.

Lemma store_acceptFrontier_time l s :
  XChainMigrationTime (snd (acceptFrontier l s)) = XChainMigrationTime s.
Proof.
  unfold acceptFrontier. set (s0 := setEdgeSet _ s).
  pose proof (store_Parents l s0) as HP. apply store_eq in HP as (_ & _ & Ht & _).
  destruct (Parents l s0) as [[ps| |] s1]; simpl in *; try exact Ht.
  rewrite state_SetEdge_eq. destruct (nextFault _); simpl; [rewrite time_fold; exact Ht|].
  unfold clearParents. destruct (deref l _) as [[[? c] cs]|]; simpl.
  - rewrite Commit_eq. destruct (nextFault _); simpl; rewrite time_fold; exact Ht.
  - rewrite time_fold. exact Ht.
Qed.

(** The state a successful [Accept] leaves. *)
Lemma Accept_ok_state s l hv sv s' :
  coherent s -> handles (heap s) !! l = Some hv -> state_Vertex s (id hv) = Some sv ->
  Accept l s = (Ok tt, s') ->
  coherent s' /\ extends s s' /\
  edge s' = newFrontier s (id hv) sv /\
  dbVertex (state s') = dbVertex (state s) /\
  dbStatus (state s') = <[id hv := Accepted]> (dbStatus (state s)) /\
  XChainMigrationTime s' = XChainMigrationTime s.
Proof.
  intros Hcoh Hh Hsv HA.
  destruct (setStatus_spec s l hv Accepted Hcoh Hh eq_refl)
    as (s1 & hv1 & c & cs & Hcoh1 & Hext1 & Hst1 & Hd1 & Hid1 & Hlat1 & Hset).
  pose proof (deref_points _ _ _ _ _ Hd1) as (Hh1 & Hv1 & Hc1 & Hpt1).
  pose proof (statusOf_store _ _ Hst1) as Hstat1.
  pose proof (store_eq _ _ Hst1) as (Hdb & Hedge & Htime & _ & Hdbs & Hdbv & _).
  unfold Accept in HA.
  destruct (decide (statusOf s (id hv) = Accepted)) as [Hacc|Hnacc].
  - rewrite Hset in HA.
    assert (Hsv1 : vertexOf s1 (id hv1) = Some sv).
    { rewrite Hid1. unfold vertexOf. rewrite Hstat1, Hacc. simpl.
      unfold state_Vertex. rewrite Hdbv. exact Hsv. }
    destruct (acceptFrontier_spec s1 l hv1 sv Hcoh1 Hh1 Hsv1)
      as (r & s'' & HF & He & Hs & Hv & _).
    destruct (acceptFrontier_state s1 l hv1 sv Hcoh1 Hh1 Hsv1) as [Hcoh' Hext'].
    rewrite HA in HF, Hcoh', Hext'. injection HF as <- <-. simpl in Hcoh', Hext'.
    split; [exact Hcoh'|]. split; [exact (extends_trans _ _ _ Hext1 Hext')|].
    split; [rewrite He, Hid1; unfold newFrontier; rewrite Hedge; reflexivity|].
    split; [congruence|]. split.
    + rewrite Hs, Hdbs. symmetry. apply insert_id.
      unfold statusOf, state_Status in Hacc.
      destruct (dbStatus (state s) !! id hv) as [st|]; simpl in Hacc; [congruence|discriminate].
    + pose proof (store_acceptFrontier_time l s1) as Ht. rewrite HA in Ht. simpl in Ht.
      congruence.
  - destruct (nextFault s) as [e|]; [rewrite Hset in HA; discriminate|].
    destruct Hset as [Hset HcohA]. rewrite Hset in HA.
    set (sA := stageStatus (id hv) Accepted _) in *.
    assert (HsvA : vertexOf sA (id hv1) = Some sv).
    { rewrite Hid1. unfold vertexOf, sA. rewrite statusOf_stageStatus, decide_True by done.
      simpl. unfold state_Vertex. simpl. rewrite Hdbv. exact Hsv. }
    destruct (acceptFrontier_spec sA l hv1 sv HcohA Hh1 HsvA)
      as (r & s'' & HF & He & Hs & Hv & _).
    destruct (acceptFrontier_state sA l hv1 sv HcohA Hh1 HsvA) as [Hcoh' Hext'].
    rewrite HA in HF, Hcoh', Hext'. injection HF as <- <-. simpl in Hcoh', Hext'.
    split; [exact Hcoh'|]. split.
    { intros p j Hp. apply Hext'. apply (Hext1 p j Hp). }
    split; [rewrite He, Hid1; unfold newFrontier; simpl; rewrite Hedge; reflexivity|].
    split; [rewrite Hv; simpl; exact Hdbv|]. split.
    + rewrite Hs. simpl. rewrite Hdbs. reflexivity.
    + pose proof (store_acceptFrontier_time l sA) as Ht. rewrite HA in Ht. simpl in Ht.
      rewrite Ht. simpl. exact Htime.
Qed.


(** X20.  A successful [Accept] keeps the invariant of the unique-vertex cache
    and every handle; it changes no status record but that of the accepted
    vertex, and no vertex record. *)
Theorem Accept_keeps_invariant s l hv sv :
  coherent s -> handles (heap s) !! l = Some hv -> state_Vertex s (id hv) = Some sv ->
  fst (Accept l s) = Ok tt ->
  let s' := snd (Accept l s) in
  coherent s' /\ extends s s' /\
  (forall j, statusOf s' j = if decide (j = id hv) then Accepted else statusOf s j) /\
  (forall j, state_Vertex s' j = state_Vertex s j).
Proof.
  intros Hcoh Hh Hsv Hok. cbv zeta.
  destruct (Accept l s) as [r s'] eqn:HA. simpl in Hok. subst r. simpl.
  destruct (Accept_ok_state s l hv sv s' Hcoh Hh Hsv HA)
    as (Hcoh' & Hext & _ & Hdbv & Hdbs & _).
  split; [exact Hcoh'|]. split; [exact Hext|]. split.
  - intros j. unfold statusOf, state_Status. rewrite Hdbs.
    destruct (decide (j = id hv)) as [->|Hne].
    + rewrite lookup_insert_eq. reflexivity.
    + rewrite lookup_insert_ne by congruence. reflexivity.
  - intros j. unfold state_Vertex. rewrite Hdbv. reflexivity.
Qed.

(** X21.  In the state a successful [Accept] of a stop vertex returns (the stop
    vertex being none of its own parents, on a frontier of stored vertices),
    [Verify] on any handle - of a stop vertex or not - that passes the
    stateless verification and the check of the activation time returns
    [errStopVertexAlreadyAccepted]: the accepted stop vertex is on the
    frontier of that state.  Nothing is said of later states. *)
Theorem stop_vertex_closes_gate s l hv sv range now fuel l' hv' c' cs' sv' :
  coherent s -> handles (heap s) !! l = Some hv -> state_Vertex s (id hv) = Some sv ->
  svStopVertex sv = true -> id hv ∉ svParentIDs sv ->
  (forall j, j ∈ edge s -> is_Some (vertexOf s j)) ->
  fst (Accept l s) = Ok tt ->
  range_ok range ->
  deref l' (snd (Accept l s)) = Some (hv', c', cs') ->
  vtx cs' = Some sv' -> svVerify sv' = None ->
  (svStopVertex sv' = true ->
   XChainMigrationTime s <= match time hv' with Some t => t | None => now end) ->
  exists s2,
    Verify range now fuel l' (snd (Accept l s)) = Some (Err errStopVertexAlreadyAccepted, s2).
Proof.
  intros Hcoh Hh Hsv Hstop Hself Hknown Hok Hr Hd Hv Hverify Htime.
  destruct (Accept l s) as [r s1] eqn:HA. simpl in Hok. subst r. simpl in *.
  destruct (Accept_ok_state s l hv sv s1 Hcoh Hh Hsv HA)
    as (Hcoh1 & _ & Hedge & Hdbv & Hdbs & Hxt).
  assert (Hvo : forall j, j = id hv \/ is_Some (vertexOf s j) -> is_Some (vertexOf s1 j)).
  { intros j Hj. unfold vertexOf, statusOf, state_Status, state_Vertex. rewrite Hdbs, Hdbv.
    destruct (decide (j = id hv)) as [->|Hne].
    - rewrite lookup_insert_eq. simpl. unfold state_Vertex in Hsv.
      rewrite Hsv. eauto.
    - rewrite lookup_insert_ne by congruence. destruct Hj as [Hj|Hj]; [congruence|].
      exact Hj. }
  assert (Hin : id hv ∈ edge s1).
  { rewrite Hedge. unfold newFrontier. apply elem_of_difference. split.
    - apply elem_of_union. left. apply elem_of_singleton. reflexivity.
    - rewrite elem_of_list_to_set. exact Hself. }
  destruct (checkEdges_spec (range (list_to_set (Edge s1))) s1 Hcoh1)
    as (s2 & _ & _ & _ & Hchk).
  { intros j Hj. apply (range_frontier range s1 j Hr) in Hj. apply Hvo.
    rewrite Hedge in Hj. unfold newFrontier in Hj.
    apply elem_of_difference in Hj as [[Hj|Hj]%elem_of_union _].
    - left. apply elem_of_singleton in Hj. exact Hj.
    - right. apply Hknown. exact Hj. }
  exists s2. unfold Verify. rewrite Hd, Hv, Hverify.
  assert (Hgate : svStopVertex sv' &&
            (match time hv' with Some t => t | None => now end <? XChainMigrationTime s1)
          = false).
  { destruct (svStopVertex sv'); [|reflexivity]. simpl. apply Z.ltb_ge. rewrite Hxt.
    apply Htime. reflexivity. }
  cbv zeta. rewrite Hgate, Hchk.
  replace (existsb (isStop s1) (range (list_to_set (Edge s1)))) with true; [reflexivity|].
  symmetry. apply existsb_elem_of. exists (id hv). split.
  - apply (range_frontier range s1 _ Hr). exact Hin.
  - unfold isStop, vertexOf, statusOf, state_Status, state_Vertex.
    rewrite Hdbs, Hdbv, lookup_insert_eq. simpl.
    unfold state_Vertex in Hsv. rewrite Hsv. exact Hstop.
Qed.

(** X22.  [Accept] on a handle of a vertex that is not stored fails when it asks
    for the parents: by then the status record is staged as Accepted and the
    vertex was added to the frontier in memory, but no frontier record was
    written and nothing was committed. *)
Theorem Accept_missing_vertex s l hv :
  coherent s -> handles (heap s) !! l = Some hv -> state_Vertex s (id hv) = None ->
  nextFault s = None ->
  let s' := snd (Accept l s) in
  fst (Accept l s) = Err (errFailedParents Accepted) /\
  edge s' = {[ id hv ]} ∪ edge s /\
  statusOf s' (id hv) = Accepted /\
  disk (versionDB s') = disk (versionDB s) /\
  dbLog (versionDB s') =
    dbLog (versionDB s) ++
    (if decide (statusOf s (id hv) = Accepted) then [] else [OpSetStatus (id hv) Accepted]).
Proof.
  intros Hcoh Hh Hsv Hnf. cbv zeta.
  destruct (setStatus_spec s l hv Accepted Hcoh Hh eq_refl)
    as (s1 & hv1 & c & cs & Hcoh1 & Hext1 & Hst1 & Hd1 & Hid1 & Hlat1 & Hset).
  pose proof (deref_points _ _ _ _ _ Hd1) as (Hh1 & Hv1 & Hc1 & Hpt1).
  pose proof (statusOf_store _ _ Hst1) as Hstat1.
  pose proof (store_eq _ _ Hst1) as (Hdb & Hedge & _ & _ & Hdbs & Hdbv & _).
  assert (Htail : forall sA, coherent sA -> handles (heap sA) !! l = Some hv1 ->
            statusOf sA (id hv) = Accepted -> state_Vertex sA (id hv) = None ->
            fst (acceptFrontier l sA) = Err (errFailedParents Accepted) /\
            store (snd (acceptFrontier l sA))
              = store (setEdgeSet ({[ id hv ]} ∪ edge sA) sA)).
  { intros sA HcohA HhA HstA HsvA. unfold acceptFrontier.
    assert (Hidl : idOf sA l = id hv) by (unfold idOf; rewrite HhA; exact Hid1).
    rewrite Hidl. set (s0 := setEdgeSet _ sA).
    assert (Hcoh0 : coherent s0) by (apply (coherent_frame sA); done).
    destruct (Parents_spec s0 l hv1 Hcoh0 HhA) as (s' & _ & _ & Hst' & HP).
    change (vertexOf s0 (id hv1)) with (vertexOf sA (id hv1)) in HP.
    change (statusOf s0 (id hv1)) with (statusOf sA (id hv1)) in HP.
    rewrite Hid1 in HP. unfold vertexOf in HP. rewrite HstA in HP. simpl in HP.
    rewrite HsvA in HP. rewrite HP. simpl. done. }
  unfold Accept.
  destruct (decide (statusOf s (id hv) = Accepted)) as [Hacc|Hnacc].
  - rewrite Hset.
    destruct (Htail s1 Hcoh1 Hh1) as [Hr Hst'].
    { rewrite Hstat1. exact Hacc. }
    { unfold state_Vertex. rewrite Hdbv. exact Hsv. }
    apply store_eq in Hst' as (Hdb' & Hedge' & _ & _ & Hdbs' & _). simpl in *.
    split; [exact Hr|]. split; [rewrite Hedge', Hedge; reflexivity|].
    split; [unfold statusOf, state_Status; rewrite Hdbs', Hdbs; exact Hacc|].
    rewrite Hdb', Hdb, app_nil_r. done.
  - rewrite Hnf in Hset. destruct Hset as [-> HcohA].
    set (sA := stageStatus (id hv) Accepted _) in *.
    destruct (Htail sA HcohA Hh1) as [Hr Hst'].
    { unfold sA. rewrite statusOf_stageStatus, decide_True by done. reflexivity. }
    { unfold state_Vertex. simpl. rewrite Hdbv. exact Hsv. }
    apply store_eq in Hst' as (Hdb' & Hedge' & _ & _ & Hdbs' & _). simpl in *.
    split; [exact Hr|]. split; [rewrite Hedge', Hedge; reflexivity|].
    split; [unfold statusOf, state_Status; rewrite Hdbs'; simpl;
            rewrite lookup_insert_eq; reflexivity|].
    rewrite Hdb', Hdb. done.
Qed.


(** *** [Reject] *)

(** [Reject], once the status is set: the parents are dropped and the
    database committed. *)
Definition rejectCommit (l : ptr) (s : Serializer) : result unit * Serializer :=
  match clearParents l s with
  | (Ok _, s) =>
      match Commit s with
      | (Some e, s) => (Err e, s)
      | (None, s) => (Ok tt, s)
      end
  | (Err e, s) => (Err e, s)
  | (Panic, s) => (Panic, s)
  end.

Lemma Reject_eq l s :
  Reject l s =
  match setStatus l Rejected s with
  | (Ok _, s) => rejectCommit l s
  | (Err e, s) => (Err e, s)
  | (Panic, s) => (Panic, s)
  end.
Proof. reflexivity. Qed.

Lemma rejectCommit_spec s l hv c cs :
  coherent s -> deref l s = Some (hv, c, cs) ->
  edge (snd (rejectCommit l s)) = edge s /\
  state (snd (rejectCommit l s)) = state s /\
  match issueAll [OpCommit] (versionDB s) with
  | (Some (_, e), db) =>
      fst (rejectCommit l s) = Err e /\ versionDB (snd (rejectCommit l s)) = db
  | (None, db) =>
      fst (rejectCommit l s) = Ok tt /\
      coherent (snd (rejectCommit l s)) /\ extends s (snd (rejectCommit l s)) /\
      versionDB (snd (rejectCommit l s))
        = {| disk := image s; dbLog := dbLog db; faults := faults db |}
  end.
Proof.
  intros Hcoh Hd. unfold rejectCommit, clearParents. rewrite Hd.
  set (s4 := setCell c (withParents [] cs) s).
  pose proof (deref_points _ _ _ _ _ Hd) as (_ & _ & Hc & _).
  assert (Hcoh4 : coherent s4).
  { apply (coherent_setCell s c cs); try done.
    - intros sv0 H. left. exact H.
    - right. left. reflexivity.
    - left. reflexivity. }
  assert (Hext4 : extends s s4).
  { intros p j Hp. apply handleOf_setCell. exact Hp. }
  rewrite Commit_eq, issueAll_cons. change (nextFault s4) with (nextFault s).
  destruct (nextFault s) as [e|]; simpl.
  - done.
  - do 3 (split; [reflexivity|]). split; [apply (coherent_frame s4); done|].
    split; [exact Hext4|reflexivity].
Qed.

(** The database operations of [Reject] on vertex [i]: the status record
    (unless the vertex is rejected already) and one commit. *)
Definition rejectOps (s : Serializer) (i : ID) : list dbOp :=
  (if decide (statusOf s i = Rejected) then [] else [OpSetStatus i Rejected]) ++ [OpCommit].

Lemma Reject_run s l hv :
  coherent s -> handles (heap s) !! l = Some hv ->
  exists r s', Reject l s = (r, s') /\
  edge s' = edge s /\
  match issueAll (rejectOps s (id hv)) (versionDB s) with
  | (Some (_, e), db) => r = Err e /\ versionDB s' = db
  | (None, db) =>
      r = Ok tt /\ coherent s' /\ extends s s' /\
      statusOf s' (id hv) = Rejected /\
      (forall j, j <> id hv -> statusOf s' j = statusOf s j) /\
      dbEdge (state s') = dbEdge (state s) /\
      versionDB s' = {| disk := image s'; dbLog := dbLog db; faults := faults db |}
  end.
Proof.
  intros Hcoh Hh. exists (fst (Reject l s)), (snd (Reject l s)).
  split; [apply surjective_pairing|].
  destruct (setStatus_spec s l hv Rejected Hcoh Hh eq_refl)
    as (s1 & hv1 & c & cs & Hcoh1 & Hext1 & Hst1 & Hd1 & Hid1 & Hlat1 & Hset).
  pose proof (statusOf_store _ _ Hst1) as Hstat1.
  pose proof (store_eq _ _ Hst1) as (Hdb & Hedge & _ & _ & Hdbs & Hdbv & Hdbe & _).
  rewrite Reject_eq. unfold rejectOps.
  destruct (decide (statusOf s (id hv) = Rejected)) as [Hrej|Hnrej].
  - rewrite Hset. cbn [app].
    destruct (rejectCommit_spec s1 l hv1 c cs Hcoh1 Hd1) as (He & Hs & Hrun).
    rewrite Hdb in Hrun. split; [congruence|].
    destruct (issueAll [OpCommit] (versionDB s)) as [[[op e]|] db]; [exact Hrun|].
    destruct Hrun as (Hr & Hcoh' & Hext' & Hv).
    split; [exact Hr|]. split; [exact Hcoh'|].
    split; [exact (extends_trans _ _ _ Hext1 Hext')|].
    assert (Hstat' : forall j, statusOf (rejectCommit l s1).2 j = statusOf s j).
    { intros j. unfold statusOf, state_Status. rewrite Hs, Hdbs. reflexivity. }
    split; [rewrite Hstat'; exact Hrej|]. split; [intros j _; apply Hstat'|].
    split; [rewrite Hs; exact Hdbe|].
    rewrite Hv. unfold image. rewrite Hs. reflexivity.
  - cbn [app]. rewrite issueAll_cons.
    destruct (nextFault s) as [e|]; [rewrite Hset; simpl; split; [exact Hedge|];
      split; [reflexivity|]; rewrite Hdb; reflexivity|].
    destruct Hset as [Hset HcohA]. rewrite Hset.
    set (sA := stageStatus (id hv) Rejected _) in *.
    assert (HdA : deref l sA = Some (hv1, c, withStatus Rejected cs)).
    { change (deref l sA) with (deref l (setCell c (withStatus Rejected cs) s1)).
      apply (deref_setCell s1 l hv1 c cs). exact Hd1. }
    destruct (rejectCommit_spec sA l hv1 c _ HcohA HdA) as (He & Hs & Hrun).
    assert (HdbA : versionDB sA = versionDB (logged (OpSetStatus (id hv) Rejected) s)).
    { unfold sA. simpl. rewrite Hdb. reflexivity. }
    rewrite HdbA in Hrun. split; [rewrite He; exact Hedge|].
    destruct (issueAll [OpCommit] _) as [[[op e]|] db]; [exact Hrun|].
    destruct Hrun as (Hr & Hcoh' & Hext' & Hv).
    split; [exact Hr|]. split; [exact Hcoh'|]. split.
    { intros p j Hp. apply Hext'. apply handleOf_setCell. apply (Hext1 p j Hp). }
    assert (Hstat' : forall j, statusOf (rejectCommit l sA).2 j = statusOf sA j).
    { intros j. unfold statusOf, state_Status. rewrite Hs. reflexivity. }
    split; [rewrite Hstat'; unfold sA; rewrite statusOf_stageStatus, decide_True by done;
            reflexivity|].
    split.
    { intros j Hj. rewrite Hstat'. unfold sA. rewrite statusOf_stageStatus.
      rewrite decide_False by congruence. apply (f_equal (fun f => f j) Hstat1). }
    split; [rewrite Hs; simpl; exact Hdbe|].
    rewrite Hv. unfold image. rewrite Hs. reflexivity.
Qed.

(** X23.  [Reject] issues the status record (unless the vertex is rejected
    already) and then one commit, up to the first operation that fails,
    whose error it returns; it never touches the frontier. When all
    succeed, the vertex is Rejected, no other status record and not the
    frontier record has changed, the staged records are on disk, and the
    invariant of the cache holds. *)
Theorem Reject_sequence s l hv :
  coherent s -> handles (heap s) !! l = Some hv ->
  let s' := snd (Reject l s) in
  edge s' = edge s /\
  match issueAll (rejectOps s (id hv)) (versionDB s) with
  | (Some (_, e), db) => fst (Reject l s) = Err e /\ versionDB s' = db
  | (None, db) =>
      fst (Reject l s) = Ok tt /\ coherent s' /\ extends s s' /\
      statusOf s' (id hv) = Rejected /\
      (forall j, j <> id hv -> statusOf s' j = statusOf s j) /\
      dbEdge (state s') = dbEdge (state s) /\
      versionDB s' = {| disk := image s'; dbLog := dbLog db; faults := faults db |}
  end.
Proof.
  intros Hcoh Hh. cbv zeta.
  destruct (Reject_run s l hv Hcoh Hh) as (r & s' & HR & He & Hrun).
  rewrite HR. simpl. split; [exact He|].
  destruct (issueAll _ _) as [[[op e]|] db]; exact Hrun.
Qed.

(** *** A decision is seen through every handle *)

(** X24.  After a successful [Accept] of a stored vertex, [Status] on every handle
    of the vertex - the one that was accepted or another, stale or not -
    returns Accepted; after a successful [Reject] it returns Rejected. *)
Theorem decision_seen_by_all_handles s l hv l' hv' :
  coherent s -> handles (heap s) !! l = Some hv ->
  handles (heap s) !! l' = Some hv' -> id hv' = id hv ->
  (is_Some (state_Vertex s (id hv)) -> fst (Accept l s) = Ok tt ->
   fst (Status_ l' (snd (Accept l s))) = Ok Accepted) /\
  (fst (Reject l s) = Ok tt ->
   fst (Status_ l' (snd (Reject l s))) = Ok Rejected).
Proof.
  intros Hcoh Hh Hh' Hid.
  assert (Hseen : forall s' st, coherent s' -> extends s s' -> statusOf s' (id hv) = st ->
            fst (Status_ l' s') = Ok st).
  { intros s' st Hcoh' Hext Hst.
    destruct (Hext l' (id hv)) as (hv2 & Hh2 & Hid2); [exists hv'; done|].
    destruct (Status_spec s' l' hv2 Hcoh' Hh2) as (s2 & HS & _).
    rewrite HS. simpl. congruence. }
  split.
  - intros [sv Hsv] Hok. destruct (Accept l s) as [r s'] eqn:HA. simpl in Hok. subst r.
    destruct (Accept_ok_state s l hv sv s' Hcoh Hh Hsv HA)
      as (Hcoh' & Hext & _ & _ & Hdbs & _).
    apply Hseen; [exact Hcoh'|exact Hext|].
    unfold statusOf, state_Status. simpl. rewrite Hdbs, lookup_insert_eq. reflexivity.
  - intros Hok. destruct (Reject_run s l hv Hcoh Hh) as (r & s' & HR & _ & Hrun).
    rewrite HR in Hok |- *. simpl in Hok |- *.
    destruct (issueAll _ _) as [[[op e]|] db].
    + destruct Hrun as [Hr _]. congruence.
    + destruct Hrun as (_ & Hcoh' & Hext & Hst & _). apply Hseen; done.
Qed.


(** *** [Verify] of a vertex that is not a stop vertex *)

(** X25.  For a handle of a vertex that is not a stop vertex and passes the
    stateless verification, on a frontier of stored vertices: [Verify]
    returns nil when no vertex of the accepted frontier is a stop vertex and
    [errStopVertexAlreadyAccepted] otherwise. The ancestors are not
    searched, so the result comes whatever the fuel, the clock and the
    activation time; the persistent state is left as it was and the
    invariant of the cache is kept. *)
Theorem Verify_non_stop_vertex range now fuel l s hv c cs sv :
  coherent s -> range_ok range ->
  deref l s = Some (hv, c, cs) -> vtx cs = Some sv ->
  svVerify sv = None -> svStopVertex sv = false ->
  (forall i, i ∈ edge s -> is_Some (vertexOf s i)) ->
  exists r s',
    Verify range now fuel l s = Some (r, s') /\
    store s' = store s /\ coherent s' /\ extends s s' /\
    (r = Ok tt <-> forall i, i ∈ edge s -> isStop s i = false) /\
    (r = Err errStopVertexAlreadyAccepted <-> exists i, i ∈ edge s /\ isStop s i = true).
Proof.
  intros Hcoh Hr Hd Hv Hok Hns Hknown.
  destruct (checkEdges_spec (range (list_to_set (Edge s))) s Hcoh)
    as (s' & Hcoh' & Hext' & Hst & Hchk).
  { intros i Hi. apply Hknown. apply (range_frontier range s i Hr). exact Hi. }
  unfold Verify. rewrite Hd, Hv, Hok, Hns. cbv zeta. simpl andb. cbv iota.
  rewrite Hchk.
  destruct (existsb (isStop s) (range (list_to_set (Edge s)))) eqn:Hex.
  - apply existsb_elem_of in Hex as (j & Hj & Hstop).
    apply (range_frontier range s j Hr) in Hj.
    eexists _, s'. split; [reflexivity|]. split; [exact Hst|]. split; [exact Hcoh'|].
    split; [exact Hext'|]. split.
    + split; [discriminate|]. intros Hall. rewrite (Hall j Hj) in Hstop. discriminate.
    + split; [|reflexivity]. intros _. exists j. done.
  - simpl. eexists _, s'. split; [reflexivity|]. split; [exact Hst|]. split; [exact Hcoh'|].
    split; [exact Hext'|]. split.
    + split; [|reflexivity]. intros _ i Hi.
      destruct (isStop s i) eqn:Hstop; [|reflexivity].
      assert (existsb (isStop s) (range (list_to_set (Edge s))) = true) as Hc.
      { apply existsb_elem_of. exists i. split; [|exact Hstop].
        apply (range_frontier range s i Hr). exact Hi. }
      congruence.
    + split; [discriminate|]. intros (i & Hi & Hstop).
      assert (existsb (isStop s) (range (list_to_set (Edge s))) = true) as Hc.
      { apply existsb_elem_of. exists i. split; [|exact Hstop].
        apply (range_frontier range s i Hr). exact Hi. }
      congruence.
Qed.

(** *** On the small DAG *)

(** The serializer of the DAG, once a handle (at address 1) of vertex [i]
    was made. *)
Definition dagAt (i : ID) : Serializer :=
  (getUniqueVertex i
     (newSerializer dagStatuses dagVertices {[1%N; 2%N]} [] 100 dagParse)).2.

Lemma coherent_dagAt i : coherent (dagAt i).
Proof. apply coherent_getUniqueVertex, coherent_newSerializer. Qed.

(** Vertex 7 is stored, its parent 8 is not; [Parents] has made a handle of
    vertex 8, at address 2. *)
Definition orphan : Serializer :=
  (Parents 1%positive
     (getUniqueVertex 7%N
        (newSerializer (<[7%N := Processing]> ∅)
           (<[7%N := storedVertex false [8%N] []]> ∅) ∅ [] 100 dagParse)).2).2.

Definition handle8 : uniqueVertex := {| id := 8%N; v := None; time := None |}.

Lemma coherent_orphan : coherent orphan.
Proof.
  unfold orphan. set (s := (getUniqueVertex 7%N _).2).
  assert (Hcoh : coherent s) by apply coherent_getUniqueVertex, coherent_newSerializer.
  destruct (Parents_spec s 1%positive {| id := 7%N; v := Some 1%positive; time := None |} Hcoh)
    as (s' & Hcoh' & _ & _ & HP); [vm_compute; reflexivity|].
  replace (vertexOf s 7%N) with (Some (storedVertex false [8%N] [])) in HP
    by (vm_compute; reflexivity).
  destruct HP as (ps & -> & _). exact Hcoh'.
Qed.

(** The second transaction of vertex 9 does not parse. *)
Definition garbled : Serializer :=
  (getUniqueVertex 9%N
     (newSerializer (<[9%N := Processing]> ∅)
        (<[9%N := storedVertex false [] [11%N; 300%N]]> ∅) ∅ [] 100 dagParse)).2.

Definition handle9 : uniqueVertex := {| id := 9%N; v := Some 1%positive; time := None |}.

Lemma coherent_garbled : coherent garbled.
Proof. apply coherent_getUniqueVertex, coherent_newSerializer. Qed.

Lemma Parents_of_stored_vertex_witness :
  exists ps s',
    Parents 1%positive dag = (Ok ps, s') /\ idOf s' <$> ps = [4%N] /\
    coherent s' /\ store s' = store dag /\
    Parents 1%positive s' = (Ok ps, s').
Proof.
  apply (Parents_of_stored_vertex dag 1%positive handle5 stopVertex5).
  - exact coherent_dag.
  - vm_compute. reflexivity.
  - vm_compute. reflexivity.
Defined.

Lemma Parents_of_missing_vertex_witness :
  fst (Parents 2%positive orphan) = Err (errFailedParents (statusOf orphan 8%N)) /\
  store (snd (Parents 2%positive orphan)) = store orphan.
Proof.
  apply (Parents_of_missing_vertex orphan 2%positive handle8).
  - exact coherent_orphan.
  - vm_compute. reflexivity.
  - vm_compute. reflexivity.
Defined.

Lemma Txs_of_stored_vertex_witness :
  exists s',
    Txs 1%positive (dagAt 4%N)
      = (Ok (Some <$> [ {| txID := 17%N; txDependencies := Ok [mkDep 15%N Processing] |};
                        {| txID := 18%N; txDependencies := Ok [] |} ]), s') /\
    coherent s' /\ store s' = store (dagAt 4%N) /\
    Txs 1%positive s'
      = (Ok (Some <$> [ {| txID := 17%N; txDependencies := Ok [mkDep 15%N Processing] |};
                        {| txID := 18%N; txDependencies := Ok [] |} ]), s').
Proof.
  apply (Txs_of_stored_vertex (dagAt 4%N) 1%positive
           {| id := 4%N; v := Some 1%positive; time := None |}
           (storedVertex false [1%N; 2%N] [17%N; 18%N])).
  - apply coherent_dagAt.
  - vm_compute. reflexivity.
  - vm_compute. reflexivity.
  - vm_compute. reflexivity.
Defined.

Lemma Txs_error_once_witness :
  exists s1 ts,
    Txs 1%positive garbled = (Err (errVM 1%N), s1) /\
    Txs 1%positive s1 = (Ok ts, s1) /\ length ts = 2%nat /\ None ∈ ts.
Proof.
  apply (Txs_error_once garbled 1%positive handle9 (storedVertex false [] [11%N; 300%N])).
  - exact coherent_garbled.
  - vm_compute. reflexivity.
  - vm_compute. reflexivity.
  - vm_compute. reflexivity.
Defined.

Lemma Accept_keeps_invariant_witness :
  coherent (snd (Accept 1%positive dag)) /\ extends dag (snd (Accept 1%positive dag)).
Proof.
  destruct (Accept_keeps_invariant dag 1%positive handle5 stopVertex5)
    as (Hcoh & Hext & _).
  - exact coherent_dag.
  - vm_compute. reflexivity.
  - vm_compute. reflexivity.
  - vm_compute. reflexivity.
  - split; [exact Hcoh|exact Hext].
Defined.

(** The stop vertex 5 is accepted; verifying it in the state [Accept] returns
    fails. *)
Lemma stop_vertex_closes_gate_witness :
  exists s2,
    Verify elements 100 0 1%positive (snd (Accept 1%positive dag))
    = Some (Err errStopVertexAlreadyAccepted, s2).
Proof.
  eapply (stop_vertex_closes_gate dag 1%positive handle5 stopVertex5 elements 100 0%nat
            1%positive handle5 1%positive _ stopVertex5).
  - exact coherent_dag.
  - vm_compute. reflexivity.
  - vm_compute. reflexivity.
  - reflexivity.
  - intros H%list_elem_of_singleton. discriminate H.
  - intros j Hj. change (edge dag) with ({[1%N; 2%N]} : gset N) in Hj.
    apply elem_of_union in Hj as [Hj|Hj]; apply elem_of_singleton in Hj; subst j;
      eexists; vm_compute; reflexivity.
  - vm_compute. reflexivity.
  - exact range_ok_elements.
  - vm_compute. reflexivity.
  - reflexivity.
  - reflexivity.
  - intros _. vm_compute. discriminate.
Defined.

Lemma Accept_missing_vertex_witness :
  fst (Accept 2%positive orphan) = Err (errFailedParents Accepted) /\
  edge (snd (Accept 2%positive orphan)) = {[ 8%N ]} ∪ edge orphan.
Proof.
  destruct (Accept_missing_vertex orphan 2%positive handle8) as (Hr & He & _).
  - exact coherent_orphan.
  - vm_compute. reflexivity.
  - vm_compute. reflexivity.
  - vm_compute. reflexivity.
  - split; [exact Hr|exact He].
Defined.

Lemma Reject_sequence_witness : edge (snd (Reject 1%positive dag)) = edge dag.
Proof.
  destruct (Reject_sequence dag 1%positive handle5) as [He _].
  - exact coherent_dag.
  - vm_compute. reflexivity.
  - exact He.
Defined.

(** Vertex 4 is not a stop vertex, and neither are the frontier vertices 1
    and 2. *)
Lemma Verify_non_stop_vertex_witness :
  exists r s',
    Verify elements 0 0 1%positive (dagAt 4%N) = Some (r, s') /\
    store s' = store (dagAt 4%N).
Proof.
  destruct (Verify_non_stop_vertex elements 0 0%nat 1%positive (dagAt 4%N)
              {| id := 4%N; v := Some 1%positive; time := None |} 1%positive
              {| latest := true; vtx := Some (storedVertex false [1%N; 2%N] [17%N; 18%N]);
                 status := Processing; parents := []; txs := [] |}
              (storedVertex false [1%N; 2%N] [17%N; 18%N]))
    as (r & s' & HV & Hst & _).
  - apply coherent_dagAt.
  - exact range_ok_elements.
  - vm_compute. reflexivity.
  - reflexivity.
  - reflexivity.
  - reflexivity.
  - intros i Hi. change (edge (dagAt 4%N)) with ({[1%N; 2%N]} : gset N) in Hi.
    apply elem_of_union in Hi as [Hi|Hi]; apply elem_of_singleton in Hi; subst i;
      eexists; vm_compute; reflexivity.
  - exists r, s'. split; [exact HV|exact Hst].
Defined.

(** A second handle (at address 2) of the stop vertex 5. *)
Definition twoHandles : Serializer := (getUniqueVertex 5%N dag).2.

Lemma decision_seen_by_all_handles_witness :
  fst (Status_ 2%positive (snd (Accept 1%positive twoHandles))) = Ok Accepted /\
  fst (Status_ 2%positive (snd (Reject 1%positive twoHandles))) = Ok Rejected.
Proof.
  destruct (decision_seen_by_all_handles twoHandles 1%positive handle5 2%positive handle5)
    as [HA HR].
  - apply coherent_getUniqueVertex, coherent_dag.
  - vm_compute. reflexivity.
  - vm_compute. reflexivity.
  - reflexivity.
  - split.
    + apply HA; [eexists; vm_compute; reflexivity|vm_compute; reflexivity].
    + apply HR. vm_compute. reflexivity.
Defined.

End UniqueVertexFacts.

(** ** [Whitelist] *)

Module WhitelistFacts.
Import AvalancheState AvalancheStateFacts StopVertexFacts DagExample.

(** [for _, tx := range txs { whitlist.Add(tx.ID()) }] *)
Fixpoint addTxIDs (ts : list (option Tx)) (whitlist : gset N) : result (gset N) :=
  match ts with
  | [] => Ok whitlist
  | None :: _ => Panic
  | Some tx :: rest => addTxIDs rest ({[ txID tx ]} ∪ whitlist)
  end.

(** [for len(queue) > 0], for at most [fuel] rounds; [None] when the rounds
    are used up. *)
Fixpoint whitelistSearch (fuel : nat) (queue : list ptr) (whitlist visitedVtx : gset N)
    (s : Serializer) : option (result (gset N) * Serializer) :=
  match fuel with
  | O => None
  | S fuel =>
      match queue with
      | [] => Some (Ok whitlist, s)
      | cur :: queue =>
          match Status_ cur s with
          | (Ok st, s) =>
              if decide (st = Accepted)
              then whitelistSearch fuel queue whitlist visitedVtx s
              else
                let curID := idOf s cur in
                if decide (curID ∈ visitedVtx)
                then whitelistSearch fuel queue whitlist visitedVtx s
                else
                  let visitedVtx := {[ curID ]} ∪ visitedVtx in
                  match Txs cur s with
                  | (Ok ts, s) =>
                      match addTxIDs ts whitlist with
                      | Ok whitlist =>
                          let whitlist := {[ curID ]} ∪ whitlist in
                          match Parents cur s with
                          | (Ok ps, s) =>
                              whitelistSearch fuel (queue ++ ps) whitlist visitedVtx s
                          | (Err e, s) => Some (Err e, s)
                          | (Panic, s) => Some (Panic, s)
                          end
                      | Err e => Some (Err e, s)
                      | Panic => Some (Panic, s)
                      end
                  | (Err e, s) => Some (Err e, s)
                  | (Panic, s) => Some (Panic, s)
                  end
          | (Err e, s) => Some (Err e, s)
          | (Panic, s) => Some (Panic, s)
          end
      end
  end.

(** [Whitelist]; the nil set it returns for a vertex that is not a stop
    vertex reads as the empty set. *)
Definition Whitelist (fuel : nat) (l : ptr) (s : Serializer)
  : option (result (gset N) * Serializer) :=
  match deref l s with
  | None => Some (Panic, s)
  | Some (_, _, cs) =>
      match vtx cs with
      | None => Some (Panic, s)
      | Some sv =>
          if negb (svStopVertex sv) then Some (Ok ∅, s)
          else whitelistSearch fuel [l] ∅ ∅ s
      end
  end.

(** *** The search of [Whitelist], seen from the store *)

(** [Whitelist] asks a transaction for its identifier only: it runs like
    the search of [Verify] on transactions without dependencies. *)
Definition noDeps (tx : Tx) : Tx := {| txID := txID tx; txDependencies := Ok [] |}.

Definition parseIDs (parse : list Byte.byte -> result Tx) (b : list Byte.byte) : result Tx :=
  match parse b with
  | Ok tx => Ok (noDeps tx)
  | Err e => Err e
  | Panic => Panic
  end.

Lemma parseAll_noDeps parse bs :
  parseAll (parseIDs parse) bs =
  match parseAll parse bs with
  | Ok ts => Ok (noDeps <$> ts)
  | Err e => Err e
  | Panic => Panic
  end.
Proof.
  induction bs as [|b bs IH]; simpl; [reflexivity|]. unfold parseIDs at 1.
  destruct (parse b) as [tx| |]; [|reflexivity..]. rewrite IH.
  destruct (parseAll parse bs) as [ts| |]; reflexivity.
Qed.

Lemma txID_noDeps (ts : list Tx) : txID <$> (noDeps <$> ts) = txID <$> ts.
Proof. induction ts as [|tx ts IH]; [reflexivity|]. rewrite !fmap_cons, IH. reflexivity. Qed.

Lemma depsKnown_noDeps (ts : list Tx) : Forall depsKnown (noDeps <$> ts).
Proof. induction ts as [|tx ts IH]; constructor; [exists []; reflexivity|exact IH]. Qed.

Lemma scanTxs_noDeps ts P D :
  exists D', scanTxs (Some <$> (noDeps <$> ts)) P D = Ok (list_to_set (txID <$> ts) ∪ P, D').
Proof.
  destruct (scanTxs_known (noDeps <$> ts) P D (depsKnown_noDeps ts)) as (P' & D' & H).
  exists D'. rewrite H. apply scanTxs_Ok in H as (_ & -> & _).
  rewrite txID_noDeps. reflexivity.
Qed.

Lemma addTxIDs_Ok ts : forall W,
  addTxIDs (Some <$> ts) W = Ok (list_to_set (txID <$> ts) ∪ W).
Proof.
  induction ts as [|tx ts IH]; intros W; simpl.
  - f_equal. set_solver.
  - rewrite IH. f_equal. set_solver.
Qed.

Lemma txIDsOf_noDeps vx parse i : txIDsOf vx (parseIDs parse) i = txIDsOf vx parse i.
Proof.
  unfold txIDsOf, txsOf. destruct (vx i) as [sv|]; [|reflexivity].
  rewrite parseAll_noDeps. destruct (parseAll parse (svTxs sv)) as [ts| |]; [|reflexivity..].
  rewrite txID_noDeps. reflexivity.
Qed.

Lemma inClosure_noDeps st vx parse root x :
  inClosure st vx (parseIDs parse) root x <-> inClosure st vx parse root x.
Proof.
  unfold inClosure. split; (intros [H|(i & Hi & Hx)]; [left; exact H|right; exists i]);
    (split; [exact Hi|]).
  - rewrite txIDsOf_noDeps in Hx. exact Hx.
  - rewrite txIDsOf_noDeps. exact Hx.
Qed.

Lemma view_store_ids s s' :
  store s' = store s ->
  bfs (statusOf s') (vertexOf s') (parseIDs (ParseTx s'))
  = bfs (statusOf s) (vertexOf s) (parseIDs (ParseTx s)).
Proof.
  intros H. rewrite (statusOf_store _ _ H), (vertexOf_store _ _ H).
  apply store_eq in H as (_ & _ & _ & -> & _). reflexivity.
Qed.

(** In a state that satisfies the invariant of the cache, [whitelistSearch]
    on handles builds the transitive paths of the search on their
    identifiers. *)
Lemma whitelistSearch_bfs fuel : forall q qids acc wl s r,
  coherent s ->
  Forall2 (handleOf s) q qids ->
  wl = transitivePaths acc ->
  bfs (statusOf s) (vertexOf s) (parseIDs (ParseTx s)) fuel qids acc = Some (Ok r) ->
  exists s', whitelistSearch fuel q wl (visitedVtx acc) s = Some (Ok (transitivePaths r), s') /\
             coherent s' /\ extends s s' /\ store s' = store s.
Proof.
  induction fuel as [|fuel IH]; intros q qids acc wl s r Hcoh HF Hwl Hbfs; [discriminate|].
  destruct HF as [|cur i q qids (hv & Hh & Hid) HF].
  { injection Hbfs as <-. exists s. subst wl. split; [reflexivity|]. split; [exact Hcoh|].
    split; [apply extends_refl|reflexivity]. }
  simpl in Hbfs. simpl.
  destruct (Status_spec s cur hv Hcoh Hh)
    as (s1 & HS & Hcoh1 & Hext1 & Hst1 & hv1 & c1 & cs1 & Hd1 & Hid1 & _).
  pose proof (deref_points _ _ _ _ _ Hd1) as (Hh1 & _).
  assert (Hcur : idOf s1 cur = i) by (unfold idOf; rewrite Hh1; congruence).
  rewrite HS, Hid.
  rewrite <- (view_store_ids _ _ Hst1) in Hbfs.
  pose proof (Forall2_handleOf_extends _ _ _ _ Hext1 HF) as HF1.
  destruct (decide (statusOf s i = Accepted)) as [Ha|Hna].
  { destruct (fun H => IH _ _ _ wl _ _ Hcoh1 HF1 H Hbfs) as (s' & Hs' & Hcoh' & Hext' & Hst');
      [exact Hwl|].
    exists s'. split; [exact Hs'|]. split; [exact Hcoh'|].
    split; [exact (extends_trans _ _ _ Hext1 Hext')|congruence]. }
  rewrite Hcur.
  destruct (decide (i ∈ visitedVtx acc)) as [Hin|Hnin].
  { destruct (IH _ _ _ wl _ _ Hcoh1 HF1 Hwl Hbfs) as (s' & Hs' & Hcoh' & Hext' & Hst').
    exists s'. split; [exact Hs'|]. split; [exact Hcoh'|].
    split; [exact (extends_trans _ _ _ Hext1 Hext')|congruence]. }
  destruct (vertexOf s i) as [sv|] eqn:Hvx; [|discriminate].
  rewrite parseAll_noDeps in Hbfs.
  destruct (parseAll (ParseTx s) (svTxs sv)) as [ts| |] eqn:Hparse; [|discriminate..].
  destruct (scanTxs_noDeps ts ({[ i ]} ∪ transitivePaths acc) (dependencies acc))
    as [deps Hscan].
  rewrite Hscan in Hbfs.
  destruct (Txs_spec s1 cur hv1 Hcoh1 Hh1) as (s2 & Hst2 & HT).
  rewrite Hid1, Hid, (vertexOf_store _ _ Hst1), Hvx in HT.
  replace (ParseTx s1) with (ParseTx s) in HT
    by (apply store_eq in Hst1 as (_ & _ & _ & -> & _); reflexivity).
  rewrite Hparse in HT. destruct HT as (HT & Hcoh2 & Hext2).
  rewrite HT, addTxIDs_Ok.
  destruct (Hext2 cur i) as (hv2 & Hh2 & Hid2); [exists hv1; split; [exact Hh1|congruence]|].
  destruct (Parents_spec s2 cur hv2 Hcoh2 Hh2) as (s3 & Hcoh3 & Hext3 & Hst3 & HP).
  rewrite Hid2, (vertexOf_store _ _ Hst2), (vertexOf_store _ _ Hst1), Hvx in HP.
  destruct HP as (ps & HP & HFp & _).
  rewrite HP.
  assert (Hst13 : store s3 = store s1) by congruence.
  rewrite <- (view_store_ids _ _ Hst13) in Hbfs.
  assert (HF3 : Forall2 (handleOf s3) (q ++ ps) (qids ++ svParentIDs sv)).
  { apply Forall2_app; [|exact HFp].
    apply (Forall2_handleOf_extends s1); [|exact HF1].
    exact (extends_trans _ _ _ Hext2 Hext3). }
  destruct (fun H => IH _ _ _ ({[ i ]} ∪ (list_to_set (txID <$> ts) ∪ wl)) _ _ Hcoh3 HF3 H Hbfs)
    as (s' & Hs' & Hcoh' & Hext' & Hst').
  { simpl. subst wl. set_solver. }
  exists s'. split; [exact Hs'|]. split; [exact Hcoh'|].
  split; [|congruence].
  exact (extends_trans _ _ _ Hext1 (extends_trans _ _ _ Hext2 (extends_trans _ _ _ Hext3 Hext'))).
Qed.

(** A vertex [Whitelist] can expand without an error: it is stored and its
    transactions parse. *)
Definition parsable (s : Serializer) (i : ID) : Prop :=
  exists sv ts, vertexOf s i = Some sv /\ parseAll (ParseTx s) (svTxs sv) = Ok ts.

(** X26.  [Whitelist] on a handle of a stop vertex, when the vertices it visits
    (the ancestors that are not accepted, the vertex itself among them) are
    stored and their transactions parse: for every large enough number of
    rounds it returns exactly the identifiers of the visited vertices and of
    their transactions, and leaves the persistent state as it was. *)
Theorem Whitelist_closure l s hv c cs sv :
  coherent s ->
  deref l s = Some (hv, c, cs) -> vtx cs = Some sv -> svStopVertex sv = true ->
  (forall i, visited (statusOf s) (vertexOf s) (id hv) i -> parsable s i) ->
  exists rounds, forall fuel, (rounds <= fuel)%nat ->
    exists wl s', Whitelist fuel l s = Some (Ok wl, s') /\
      store s' = store s /\ coherent s' /\
      forall x, x ∈ wl <-> inClosure (statusOf s) (vertexOf s) (ParseTx s) (id hv) x.
Proof.
  intros Hcoh Hd Hv Hstop Hpars.
  pose proof (deref_points _ _ _ _ _ Hd) as (Hh & _ & _ & Hpt).
  destruct (bfs_terminates (statusOf s) (vertexOf s) (parseIDs (ParseTx s))
              (dom (dbVertex (state s))) (id hv)) with
    (n := size (dom (dbVertex (state s)) ∖ visitedVtx noneSearched))
    (acc := noneSearched) (queue := [id hv]) as [rounds Hrounds].
  { intros i [svi Hi]. apply elem_of_dom. unfold vertexOf in Hi.
    destruct (Fetched (statusOf s i)); [|discriminate]. exists svi. exact Hi. }
  { intros i Hi. destruct (Hpars i Hi) as (svi & ts & Hsvi & Hts).
    exists svi, (noDeps <$> ts). split; [exact Hsvi|].
    split; [rewrite parseAll_noDeps, Hts; reflexivity|apply depsKnown_noDeps]. }
  { reflexivity. }
  { intros i ->%list_elem_of_singleton. constructor. }
  exists rounds. intros fuel Hfuel. destruct (Hrounds fuel Hfuel) as [r0 Hbfs].
  pose proof (bfs_result _ _ _ _ _ _ Hbfs) as (_ & Hpaths & _).
  destruct (whitelistSearch_bfs fuel [l] [id hv] noneSearched ∅ s r0 Hcoh)
    as (s' & Hs' & Hcoh' & _ & Hst'); [|reflexivity|exact Hbfs|].
  { constructor; [|constructor]. exists hv. done. }
  exists (transitivePaths r0), s'. split.
  { unfold Whitelist. rewrite Hd, Hv, Hstop. exact Hs'. }
  split; [exact Hst'|]. split; [exact Hcoh'|].
  intros x. rewrite Hpaths. apply inClosure_noDeps.
Qed.

(** X27.  [Whitelist] on a handle of a stop vertex that is accepted already
    returns the empty set: the search stops at the vertex itself. *)
Theorem Whitelist_of_accepted_vertex fuel l s hv c cs sv :
  coherent s ->
  deref l s = Some (hv, c, cs) -> vtx cs = Some sv -> svStopVertex sv = true ->
  statusOf s (id hv) = Accepted ->
  exists s', Whitelist (S (S fuel)) l s = Some (Ok ∅, s') /\ store s' = store s.
Proof.
  intros Hcoh Hd Hv Hstop Hacc.
  pose proof (deref_points _ _ _ _ _ Hd) as (Hh & _).
  destruct (Status_spec s l hv Hcoh Hh) as (s1 & HS & _ & _ & Hst1 & _).
  exists s1. split; [|exact Hst1].
  unfold Whitelist. rewrite Hd, Hv, Hstop. simpl. rewrite HS, Hacc. reflexivity.
Qed.

(** *** On the small DAG *)

(** The stop vertex 5 of the DAG whitelists itself, vertex 4 and the
    transactions 17 and 18 of vertex 4. *)
Lemma Whitelist_closure_witness :
  exists rounds, forall fuel, (rounds <= fuel)%nat ->
    exists wl s', Whitelist fuel 1%positive dag = Some (Ok wl, s') /\
      store s' = store dag /\ coherent s' /\
      forall x, x ∈ wl <-> inClosure (statusOf dag) (vertexOf dag) (ParseTx dag) 5%N x.
Proof.
  apply (Whitelist_closure 1%positive dag handle5 1%positive
           {| latest := true; vtx := Some stopVertex5; status := Processing;
              parents := []; txs := [] |} stopVertex5).
  - exact coherent_dag.
  - vm_compute. reflexivity.
  - reflexivity.
  - reflexivity.
  - intros i Hi.
    destruct (bfs_result (statusOf dag) (vertexOf dag) (ParseTx dag) 5%N 6
                {| visitedVtx := {[5%N; 4%N]};
                   acceptedFrontier := {[1%N; 2%N]};
                   transitivePaths := {[5%N; 4%N; 17%N; 18%N]};
                   dependencies := {[15%N]} |}) as (_ & _ & _ & Hsearch).
    { vm_compute. reflexivity. }
    destruct (Hsearch i Hi) as (svi & ts & Hsvi & Hts & _). exists svi, ts. done.
Defined.

(** The stop vertex 5 was accepted. *)
Definition accepted5 : Serializer :=
  (getUniqueVertex 5%N
     (newSerializer linearizedStatuses linearizedVertices {[5%N]} [] 100 dagParse)).2.

Lemma Whitelist_of_accepted_vertex_witness :
  exists s', Whitelist 2 1%positive accepted5 = Some (Ok ∅, s') /\
             store s' = store accepted5.
Proof.
  apply (Whitelist_of_accepted_vertex 0 1%positive accepted5 handle5 1%positive
           {| latest := true; vtx := Some (storedVertex true [] []); status := Accepted;
              parents := []; txs := [] |} (storedVertex true [] [])).
  - apply coherent_getUniqueVertex, coherent_newSerializer.
  - vm_compute. reflexivity.
  - reflexivity.
  - reflexivity.
  - vm_compute. reflexivity.
Defined.

End WhitelistFacts.
